(** * The diagram-generation pipeline of [app/services/csv_service.py]

    A shallow embedding of the service module: the fenced-block extractor
    [_extract_code_block], the two analyzers
    [_extract_actors_from_plantuml] and [_extract_activities_from_plantuml],
    and the two orchestrators [process_csv_and_generate] and
    [refine_plantuml_code].

    Python [str] values are modelled as lists of characters whose code
    points lie in U+0000..U+00FF (the type [ascii] read as Latin-1); the
    character tables below are those of CPython on that range.  The module
    [re] is modelled by a pattern parser for the part of the pattern syntax
    the service can reach with ordinary hints, and by a backtracking matcher
    with the priorities of the [sre] engine. *)

From Stdlib Require Import Ascii String.
From Stdlib Require Import List Arith Lia Bool PeanoNat.
From Stdlib Require Import Sorting.Sorted.
From Stdlib Require Decimal DecimalString.
Import ListNotations.

Set Implicit Arguments.

(** ** Strings *)

Definition pystr := list ascii.

(** A Python string literal. *)
Definition py (s : string) : pystr := list_ascii_of_string s.

Definition code (c : ascii) : nat := nat_of_ascii c.

Definition chr_eqb (c d : ascii) : bool := Ascii.eqb c d.

Definition between (lo hi n : nat) : bool := (lo <=? n) && (n <=? hi).

(** [str.isspace] on one character, which is also what [\s] matches:
    TAB..CR, FS..US, SPACE, NEL and NBSP. *)
Definition is_space (c : ascii) : bool :=
  let n := code c in
  between 9 13 n || between 28 32 n || (n =? 133) || (n =? 160).

(** [\d]: the decimal digits. *)
Definition is_digit (c : ascii) : bool := between 48 57 (code c).

(** What [\w] matches: alphanumeric characters and the underscore. *)
Definition is_word (c : ascii) : bool :=
  let n := code c in
  between 48 57 n || between 65 90 n || (n =? 95) || between 97 122 n
  || (n =? 170) || between 178 179 n || (n =? 181) || between 185 186 n
  || between 188 190 n || between 192 214 n || between 216 246 n
  || between 248 255 n.

(** [str.lower] on one character. *)
Definition lower (c : ascii) : ascii :=
  let n := code c in
  if between 65 90 n || (between 192 222 n && negb (n =? 215))
  then ascii_of_nat (n + 32) else c.

(** The line boundaries of [str.splitlines]. *)
Definition is_linebreak (c : ascii) : bool :=
  let n := code c in
  between 10 13 n || between 28 30 n || (n =? 133).

Definition LF : ascii := ascii_of_nat 10.
Definition CR : ascii := ascii_of_nat 13.
Definition DQUOTE : ascii := ascii_of_nat 34.

Fixpoint str_eqb (a b : pystr) : bool :=
  match a, b with
  | [], [] => true
  | c :: a', d :: b' => chr_eqb c d && str_eqb a' b'
  | _, _ => false
  end.

(** [a < b] on strings: lexicographic on code points. *)
Fixpoint str_ltb (a b : pystr) : bool :=
  match a, b with
  | _, [] => false
  | [], _ :: _ => true
  | c :: a', d :: b' =>
      if code c <? code d then true
      else if code c =? code d then str_ltb a' b' else false
  end.

(** [prefix in s] at the front of [s]. *)
Fixpoint startswith (p s : pystr) : bool :=
  match p, s with
  | [], _ => true
  | c :: p', d :: s' => chr_eqb c d && startswith p' s'
  | _ :: _, [] => false
  end.

(** [p in s], the substring test. *)
Fixpoint contains (p s : pystr) : bool :=
  startswith p s ||
  match s with
  | [] => false
  | _ :: s' => contains p s'
  end.

Fixpoint dropwhile (f : ascii -> bool) (s : pystr) : pystr :=
  match s with
  | c :: s' => if f c then dropwhile f s' else s
  | [] => []
  end.

Definition lstrip (s : pystr) : pystr := dropwhile is_space s.
Definition rstrip (s : pystr) : pystr := rev (dropwhile is_space (rev s)).

(** [s.strip()] *)
Definition strip (s : pystr) : pystr := rstrip (lstrip s).

(** [s.splitlines()]: [cur] holds the characters of the line being read,
    in reverse; a CR LF pair is one boundary, and no empty line is reported
    after the last boundary. *)
Fixpoint splitlines_aux (s : pystr) (cur : pystr) : list pystr :=
  match s with
  | [] => match cur with [] => [] | _ => [rev cur] end
  | c :: s' =>
      if is_linebreak c then
        rev cur ::
        match s' with
        | d :: s'' =>
            if chr_eqb c CR && chr_eqb d LF
            then splitlines_aux s'' []
            else splitlines_aux s' []
        | [] => []
        end
      else splitlines_aux s' (c :: cur)
  end.

Definition splitlines (s : pystr) : list pystr := splitlines_aux s [].

(** [set(l)] followed by [sorted]: the distinct elements in increasing
    order.  The set is kept as a strictly increasing list. *)
Fixpoint insert_sorted (x : pystr) (l : list pystr) : list pystr :=
  match l with
  | [] => [x]
  | y :: l' =>
      if str_ltb x y then x :: l
      else if str_eqb x y then l
      else y :: insert_sorted x l'
  end.

Definition sorted_set (l : list pystr) : list pystr :=
  fold_right insert_sorted [] l.

(** ** Exceptions and outcomes *)

(** A raised exception: its class name, [str(e)], and whether it is an
    instance of [Exception].  [KeyboardInterrupt], [SystemExit] and the
    other classes that derive from [BaseException] alone are not, and an
    [except Exception] clause lets them pass. *)
Record exn := mkBaseExn {
  exn_class : string;
  exn_str : pystr;
  exn_is_Exception : bool
}.

(** An instance of [Exception]. *)
Definition mkExn (class : string) (message : pystr) : exn :=
  mkBaseExn class message true.

Inductive outcome (A : Type) :=
| Ret (a : A)
| Raise (e : exn).
Arguments Ret {A} a.
Arguments Raise {A} e.

Definition bind {A B} (x : outcome A) (f : A -> outcome B) : outcome B :=
  match x with
  | Ret a => f a
  | Raise e => Raise e
  end.

Notation "x <- c1 ;; c2" := (bind c1 (fun x => c2))
  (at level 61, c1 at next level, right associativity).

(** ** Regular expressions *)

(** A member of a character set [[...]]. *)
Inductive citem :=
| CLit (c : ascii)
| CSpace | CNotSpace
| CWord | CNotWord
| CDigit | CNotDigit.

Inductive regex :=
| Eps
| Lit (c : ascii)
| Dot
| CSet (neg : bool) (items : list citem)
| Cat (r1 r2 : regex)
| Alt (r1 r2 : regex)
| Rep (greedy : bool) (lo : nat) (hi : option nat) (r : regex)
| Grp (n : nat) (r : regex).

(** Comparison of a pattern character with a text character, under
    [re.IGNORECASE] when [ic] is set. *)
Definition lit_match (ic : bool) (c d : ascii) : bool :=
  if ic then chr_eqb (lower c) (lower d) else chr_eqb c d.

Definition citem_match (ic : bool) (i : citem) (d : ascii) : bool :=
  match i with
  | CLit c => lit_match ic c d
  | CSpace => is_space d
  | CNotSpace => negb (is_space d)
  | CWord => is_word d
  | CNotWord => negb (is_word d)
  | CDigit => is_digit d
  | CNotDigit => negb (is_digit d)
  end.

Definition cset_match (ic : bool) (neg : bool) (items : list citem)
  (d : ascii) : bool :=
  xorb neg (existsb (fun i => citem_match ic i d) items).

(** The groups of a match: the text each numbered group matched last. *)
Definition groups := list (nat * pystr).

Fixpoint group_of (g : groups) (n : nat) : option pystr :=
  match g with
  | [] => None
  | (k, v) :: g' => if k =? n then Some v else group_of g' n
  end.

Definition orelse {A} (x y : option A) : option A :=
  match x with
  | Some _ => x
  | None => y
  end.

Definition below (cnt : nat) (hi : option nat) : bool :=
  match hi with
  | None => true
  | Some h => cnt <? h
  end.

Section Matcher.
Variable R : Type.
Variable ic : bool.

(** The loop of a repeat: [step] matches one iteration, [cnt] counts the
    iterations done.  A greedy repeat tries one more iteration before it
    tries to stop, a lazy one the other way round; an iteration must
    consume text, so [fuel] beyond the length of the text is never used. *)
Fixpoint rep_loop
  (step : pystr -> groups -> (pystr -> groups -> option R) -> option R)
  (greedy : bool) (lo : nat) (hi : option nat)
  (k : pystr -> groups -> option R)
  (fuel cnt : nat) (s : pystr) (g : groups) {struct fuel} : option R :=
  match fuel with
  | O => None
  | S fuel' =>
      let more :=
        if below cnt hi then
          step s g
            (fun s' g' =>
               if length s' <? length s
               then rep_loop step greedy lo hi k fuel' (S cnt) s' g'
               else None)
        else None in
      let stop := if lo <=? cnt then k s g else None in
      if greedy then orelse more stop else orelse stop more
  end.

(** The backtracking matcher, in continuation-passing style: [k] is what
    remains to be matched after [r], and the first success in the order
    of the engine's priorities is returned. *)
Fixpoint rmatch (r : regex) (s : pystr) (g : groups)
  (k : pystr -> groups -> option R) {struct r} : option R :=
  match r with
  | Eps => k s g
  | Lit c =>
      match s with
      | d :: s' => if lit_match ic c d then k s' g else None
      | [] => None
      end
  | Dot =>
      match s with
      | d :: s' => if chr_eqb d LF then None else k s' g
      | [] => None
      end
  | CSet neg items =>
      match s with
      | d :: s' => if cset_match ic neg items d then k s' g else None
      | [] => None
      end
  | Cat r1 r2 => rmatch r1 s g (fun s' g' => rmatch r2 s' g' k)
  | Alt r1 r2 => orelse (rmatch r1 s g k) (rmatch r2 s g k)
  | Grp n r1 =>
      rmatch r1 s g
        (fun s' g' => k s' ((n, firstn (length s - length s') s) :: g'))
  | Rep greedy lo hi r1 =>
      rep_loop (rmatch r1) greedy lo hi k (S (length s)) 0 s g
  end.
End Matcher.

(** The number of groups of a pattern. *)
Fixpoint count_groups (r : regex) : nat :=
  match r with
  | Eps | Lit _ | Dot | CSet _ _ => 0
  | Cat r1 r2 | Alt r1 r2 => count_groups r1 + count_groups r2
  | Rep _ _ _ r1 => count_groups r1
  | Grp _ r1 => S (count_groups r1)
  end.

(** A match object: where the match starts and ends, its groups, and the
    number of groups of its pattern. *)
Record match_obj := mkMatch {
  m_start : nat;
  m_end : nat;
  m_groups : groups;
  m_ngroups : nat
}.

(** The match of [r] that starts exactly at the front of [s], if any: the
    number of characters matched and the groups. *)
Definition match_here (ic : bool) (r : regex) (s : pystr)
  : option (nat * groups) :=
  rmatch ic r s [] (fun s' g => Some (length s - length s', g)).

(** [re.search]: the first start position, from the left, at which the
    pattern matches; [pos] is the position of the front of [s]. *)
Fixpoint search_from (ic : bool) (r : regex) (pos : nat) (s : pystr)
  : option match_obj :=
  match match_here ic r s with
  | Some (len, g) => Some (mkMatch pos (pos + len) g (count_groups r))
  | None =>
      match s with
      | [] => None
      | _ :: s' => search_from ic r (S pos) s'
      end
  end.

Definition re_search (ic : bool) (r : regex) (text : pystr)
  : option match_obj :=
  search_from ic r 0 text.

(** The first match at the front of [s] that is not empty. *)
Definition match_here_nonempty (ic : bool) (r : regex) (s : pystr)
  : option (nat * groups) :=
  rmatch ic r s []
    (fun s' g =>
       if length s' <? length s then Some (length s - length s', g)
       else None).

(** What [re.findall] reports for a match of a pattern with one group. *)
Definition reported (g : groups) : pystr :=
  match group_of g 1 with
  | Some v => v
  | None => []
  end.

(** [re.findall] for a pattern with exactly one group: the text of group 1
    of every match, the matches taken from left to right without overlap.
    [skip] counts the characters of the last match still to be passed.  A
    group that took no part in a match is reported as the empty string, and
    after an empty match the next match at the same position must not be
    empty. *)
Fixpoint findall_from (ic : bool) (r : regex) (skip : nat) (s : pystr)
  : list pystr :=
  match skip with
  | S k =>
      match s with
      | [] => []
      | _ :: s' => findall_from ic r k s'
      end
  | O =>
      match match_here ic r s with
      | Some (S len, g) =>
          reported g ::
          match s with
          | [] => []
          | _ :: s' => findall_from ic r len s'
          end
      | Some (O, g) =>
          reported g ::
          match match_here_nonempty ic r s with
          | Some (len, g') =>
              reported g' ::
              match s with
              | [] => []
              | _ :: s' => findall_from ic r (pred len) s'
              end
          | None =>
              match s with
              | [] => []
              | _ :: s' => findall_from ic r 0 s'
              end
          end
      | None =>
          match s with
          | [] => []
          | _ :: s' => findall_from ic r 0 s'
          end
      end
  end.

Definition re_findall (ic : bool) (r : regex) (text : pystr) : list pystr :=
  findall_from ic r 0 text.

(** ** Compiling a pattern

    The parser covers literals, [.], the classes [\s \S \w \W \d \D],
    escaped punctuation, sets of such members, groups [( )] and [(?: )],
    alternation, and the repeats [* + ?] with their lazy forms.  It reports
    the errors of [re.compile] for that syntax, and answers [Unsupported]
    for any other construct, which is then left to [re_extern] below. *)

Inductive re_error_kind :=
| MissingParen
| UnbalancedParen
| NothingToRepeat
| MultipleRepeat
| UnterminatedSet.

Inductive compiled :=
| Compiled (r : regex)
| ReError (k : re_error_kind) (pos : nat)
| Unsupported.

(** What the last item of the current sequence is, for the repeat
    operators: nothing, an item that can be repeated, a greedy repeat that
    a [?] would make lazy, or a repeat that is complete. *)
Inductive last_item := LNone | LAtom | LRep | LLazy.

Record frame := mkFrame {
  fr_open : nat;                (* position of the opening parenthesis *)
  fr_group : option nat;        (* group number, [None] for [(?: )] *)
  fr_alts : list regex;         (* finished alternatives, last first *)
  fr_seq : list regex           (* items of the current one, last first *)
}.

Record pstate := mkPState {
  ps_cur : frame;
  ps_stack : list frame;
  ps_groups : nat;
  ps_last : last_item
}.

Fixpoint mkseq (l : list regex) : regex :=
  match l with
  | [] => Eps
  | r :: l' => Cat r (mkseq l')
  end.

Fixpoint alt_of (l : list regex) : regex :=
  match l with
  | [] => Eps
  | [r] => r
  | r :: l' => Alt r (alt_of l')
  end.

Definition close_frame (f : frame) : regex :=
  alt_of (rev (mkseq (rev (fr_seq f)) :: fr_alts f)).

Fixpoint nullable (r : regex) : bool :=
  match r with
  | Eps => true
  | Lit _ | Dot | CSet _ _ => false
  | Cat r1 r2 => nullable r1 && nullable r2
  | Alt r1 r2 => nullable r1 || nullable r2
  | Rep _ lo _ r1 => (lo =? 0) || nullable r1
  | Grp _ r1 => nullable r1
  end.

Definition is_chr (s : string) (c : ascii) : bool :=
  match s with
  | String d EmptyString => chr_eqb c d
  | _ => false
  end.

Definition one_of (s : string) (c : ascii) : bool :=
  existsb (chr_eqb c) (list_ascii_of_string s).

Definition is_ascii_alnum (c : ascii) : bool :=
  let n := code c in
  between 48 57 n || between 65 90 n || between 97 122 n.

Definition category (e : ascii) : option citem :=
  if is_chr "s" e then Some CSpace
  else if is_chr "S" e then Some CNotSpace
  else if is_chr "w" e then Some CWord
  else if is_chr "W" e then Some CNotWord
  else if is_chr "d" e then Some CDigit
  else if is_chr "D" e then Some CNotDigit
  else None.

(** The member of a set that [\e] denotes. *)
Definition escape_citem (e : ascii) : option citem :=
  match category e with
  | Some i => Some i
  | None => if is_ascii_alnum e then None else Some (CLit e)
  end.

(** The item that [\e] denotes outside a set. *)
Definition escape_item (e : ascii) : option regex :=
  match category e with
  | Some i => Some (CSet false [i])
  | None => if is_ascii_alnum e then None else Some (Lit e)
  end.

Definition push (st : pstate) (r : regex) : pstate :=
  let f := ps_cur st in
  mkPState (mkFrame (fr_open f) (fr_group f) (fr_alts f) (r :: fr_seq f))
           (ps_stack st) (ps_groups st) LAtom.

Definition open_group (st : pstate) (pos : nat) (capture : bool) : pstate :=
  let n := if capture then S (ps_groups st) else ps_groups st in
  mkPState (mkFrame pos (if capture then Some n else None) [] [])
           (ps_cur st :: ps_stack st) n LNone.

Definition close_group (st : pstate) : option pstate :=
  match ps_stack st with
  | [] => None
  | f :: stack' =>
      let r := close_frame (ps_cur st) in
      let item := match fr_group (ps_cur st) with
                  | Some n => Grp n r
                  | None => r
                  end in
      Some (mkPState
              (mkFrame (fr_open f) (fr_group f) (fr_alts f) (item :: fr_seq f))
              stack' (ps_groups st) LAtom)
  end.

Definition next_alt (st : pstate) : pstate :=
  let f := ps_cur st in
  mkPState (mkFrame (fr_open f) (fr_group f)
                    (mkseq (rev (fr_seq f)) :: fr_alts f) [])
           (ps_stack st) (ps_groups st) LNone.

Definition repeat_bounds (c : ascii) : nat * option nat :=
  if is_chr "*" c then (0, None)
  else if is_chr "+" c then (1, None)
  else (0, Some 1).

Definition set_last_item (st : pstate) (r : regex) (rest : list regex)
  (l : last_item) : pstate :=
  let f := ps_cur st in
  mkPState (mkFrame (fr_open f) (fr_group f) (fr_alts f) (r :: rest))
           (ps_stack st) (ps_groups st) l.

(** A repeat operator [c] read at position [pos]. *)
Definition apply_repeat (st : pstate) (c : ascii) (pos : nat)
  : pstate + compiled :=
  match ps_last st, fr_seq (ps_cur st) with
  | LNone, _ => inr (ReError NothingToRepeat pos)
  | LLazy, _ => inr (ReError MultipleRepeat pos)
  | LRep, Rep _ lo hi r :: rest =>
      if is_chr "?" c then inl (set_last_item st (Rep false lo hi r) rest LLazy)
      else if is_chr "+" c then inr Unsupported
      else inr (ReError MultipleRepeat pos)
  | LAtom, r :: rest =>
      if nullable r then inr Unsupported
      else let (lo, hi) := repeat_bounds c in
           inl (set_last_item st (Rep true lo hi r) rest LRep)
  | _, _ => inr Unsupported
  end.

Fixpoint parse (s : pystr) (pos : nat) (st : pstate) {struct s} : compiled :=
  match s with
  | [] =>
      match ps_stack st with
      | [] => Compiled (close_frame (ps_cur st))
      | _ :: _ => ReError MissingParen (fr_open (ps_cur st))
      end
  | c :: s1 =>
      if is_chr "\" c then
        match s1 with
        | [] => Unsupported
        | e :: s2 =>
            match escape_item e with
            | Some r => parse s2 (pos + 2) (push st r)
            | None => Unsupported
            end
        end
      else if is_chr "[" c then
        match s1 with
        | [] => ReError UnterminatedSet pos
        | d :: s2 =>
            if is_chr "^" d then parse_set s2 (pos + 2) pos true [] st
            else parse_set s1 (pos + 1) pos false [] st
        end
      else if is_chr "(" c then
        match s1 with
        | [] => ReError MissingParen pos
        | d :: s2 =>
            if is_chr "?" d then
              match s2 with
              | [] => Unsupported
              | d' :: s3 =>
                  if is_chr ":" d'
                  then parse s3 (pos + 3) (open_group st pos false)
                  else Unsupported
              end
            else parse s1 (pos + 1) (open_group st pos true)
        end
      else if is_chr ")" c then
        match close_group st with
        | None => ReError UnbalancedParen pos
        | Some st' => parse s1 (pos + 1) st'
        end
      else if is_chr "|" c then parse s1 (pos + 1) (next_alt st)
      else if one_of "*+?" c then
        match apply_repeat st c pos with
        | inl st' => parse s1 (pos + 1) st'
        | inr res => res
        end
      else if is_chr "." c then parse s1 (pos + 1) (push st Dot)
      else if one_of "{^$" c then Unsupported
      else parse s1 (pos + 1) (push st (Lit c))
  end

with parse_set (s : pystr) (pos openpos : nat) (neg : bool)
  (items : list citem) (st : pstate) {struct s} : compiled :=
  match s with
  | [] => ReError UnterminatedSet openpos
  | c :: s1 =>
      if is_chr "]" c && negb (Nat.eqb (length items) 0) then
        parse s1 (pos + 1) (push st (CSet neg (rev items)))
      else if is_chr "\" c then
        match s1 with
        | [] => Unsupported
        | e :: s2 =>
            match escape_citem e with
            | Some i => parse_set s2 (pos + 2) openpos neg (i :: items) st
            | None => Unsupported
            end
        end
      else if one_of "-[&~|" c then Unsupported
      else parse_set s1 (pos + 1) openpos neg (CLit c :: items) st
  end.

Definition initial_pstate : pstate :=
  mkPState (mkFrame 0 None [] []) [] 0 LNone.

(** [re.compile(pattern)] *)
Definition re_compile (pattern : pystr) : compiled :=
  parse pattern 0 initial_pstate.

(** A pattern written in the source as a constant. *)
Definition pattern_of (pattern : pystr) : regex :=
  match re_compile pattern with
  | Compiled r => r
  | _ => Eps
  end.

Definition decimal (n : nat) : pystr :=
  py (DecimalString.NilEmpty.string_of_uint (Nat.to_uint n)).

Definition re_error_msg (k : re_error_kind) : pystr :=
  match k with
  | MissingParen => py "missing ), unterminated subpattern"
  | UnbalancedParen => py "unbalanced parenthesis"
  | NothingToRepeat => py "nothing to repeat"
  | MultipleRepeat => py "multiple repeat"
  | UnterminatedSet => py "unterminated character set"
  end.

(** Line and column (from 1) of position [pos] of the pattern. *)
Fixpoint line_col (pattern : pystr) (pos line col : nat) : nat * nat :=
  match pos, pattern with
  | S pos', c :: pattern' =>
      if chr_eqb c LF then line_col pattern' pos' (S line) 1
      else line_col pattern' pos' line (S col)
  | _, _ => (line, col)
  end.

(** The [re.error] raised for a pattern that does not compile; its message
    gives the position, and the line and column when the pattern has a
    line feed. *)
Definition re_error (pattern : pystr) (k : re_error_kind) (pos : nat) : exn :=
  let (line, col) := line_col pattern pos 1 1 in
  mkExn "re.error"
    (re_error_msg k ++ py " at position " ++ decimal pos ++
     if existsb (chr_eqb LF) pattern
     then py " (line " ++ decimal line ++ py ", column " ++ decimal col
          ++ py ")"
     else []).

(** [m.group(n)]: [None] stands for a group that took no part in the
    match. *)
Definition group (m : match_obj) (n : nat) : outcome (option pystr) :=
  if n <=? m_ngroups m then Ret (group_of (m_groups m) n)
  else Raise (mkExn "IndexError" (py "no such group")).

(** [x.strip()] where [x] is a string or [None]. *)
Definition strip_method (x : option pystr) : outcome pystr :=
  match x with
  | Some s => Ret (strip s)
  | None =>
      Raise (mkExn "AttributeError"
               (py "'NoneType' object has no attribute 'strip'"))
  end.

(** [pathlib.Path(p).name] on a POSIX path: the last component, where empty
    components and [.] are no components. *)
Fixpoint split_on (sep : ascii) (s : pystr) (cur : pystr) : list pystr :=
  match s with
  | [] => [rev cur]
  | c :: s' =>
      if chr_eqb c sep then rev cur :: split_on sep s' []
      else split_on sep s' (c :: cur)
  end.

Definition path_parts (p : pystr) : list pystr :=
  filter (fun c => negb (str_eqb c [] || str_eqb c (py ".")))
         (split_on "/"%char p []).

Definition path_name (p : pystr) : pystr := last (path_parts p) [].

(** ** Values and result records *)

Inductive value :=
| VBool (b : bool)
| VStr (s : pystr)
| VNone
| VList (l : list pystr).

(** A [dict] with string keys, in insertion order. *)
Definition dict := list (string * value).

Definition entry (k : string) (v : value) : string * value := (k, v).

Fixpoint dict_get (d : dict) (k : string) : option value :=
  match d with
  | [] => None
  | (k', v) :: d' => if String.eqb k' k then Some v else dict_get d' k
  end.

(** ** The service *)

(** An object that may or may not be a string: a string, a bytes-like
    object ([bytes], [bytearray], ...), or another object, with the name
    of its type. *)
Inductive pyobj :=
| PyStr (s : pystr)
| PyBytesLike (type_name : pystr)
| PyOther (type_name : pystr).

(** What [agent.run] returns: an object of some type, with or without a
    [content] attribute, and its [str]. *)
Record response := mkResponse {
  resp_type : pystr;
  resp_content : option pyobj;
  resp_str : pystr
}.

Inductive tool :=
| CsvTools (csvs : list pystr) (read_csvs list_csvs read_column_names : bool)
| PythonTools (base_dir : pystr) (save_and_run run_code : bool).

Record agent := Agent {
  agent_name : pystr;
  agent_model : pystr;
  agent_tools : list tool;
  agent_instructions : list pystr;
  agent_markdown : bool;
  agent_show_tool_calls : bool
}.

Definition OpenAIChat (id : pystr) : pystr := id.

Section Service.

(** [re.search] for the patterns the parser does not cover. *)
Variable re_extern : bool -> pystr -> pystr -> outcome (option match_obj).

(** [re.search(pattern, text, flags)] *)
Definition py_re_search (pattern text : pystr) (ic : bool)
  : outcome (option match_obj) :=
  match re_compile pattern with
  | Compiled r => Ret (re_search ic r text)
  | ReError k pos => Raise (re_error pattern k pos)
  | Unsupported => re_extern ic pattern text
  end.

Definition FENCED_ANY : pystr := py "```(?:\w+)?\s*([\s\S]*?)```".

(** Extract triple-backtick fenced block.  If lang_hint provided, prefer
    fence ```lang_hint *)
Definition _extract_code_block (text : pystr) (lang_hint : option pystr)
  : outcome pystr :=
  hinted <-
    match lang_hint with
    | Some (c :: h) =>
        let pattern := py "```" ++ (c :: h) ++ py "\s*([\s\S]*?)```" in
        m <- py_re_search pattern text true ;;
        match m with
        | Some m => x <- group m 1 ;; r <- strip_method x ;; Ret (Some r)
        | None => Ret None
        end
    | _ => Ret None
    end ;;
  match hinted with
  | Some r => Ret r
  | None =>
      (* fallback to any fenced block *)
      match re_search false (pattern_of FENCED_ANY) text with
      | Some m => x <- group m 1 ;; strip_method x
      | None => Ret (strip text)
      end
  end.

(** The sixteen patterns of the source: for each keyword, the form with a
    quoted label and the form with a bare identifier. *)
Definition quoted_pattern (kw : string) : pystr :=
  py kw ++ py "\s+" ++ [DQUOTE] ++ py "([^" ++ [DQUOTE] ++ py "]+)"
     ++ [DQUOTE].

Definition bare_pattern (kw : string) : pystr := py kw ++ py "\s+(\w+)".

Definition participant_keywords : list string :=
  ["participant"; "actor"; "entity"; "boundary"; "control"; "database";
   "collections"; "queue"]%string.

Definition participant_patterns : list pystr :=
  flat_map (fun kw => [quoted_pattern kw; bare_pattern kw])
           participant_keywords.

(** Extract actors/participants from PlantUML code *)
Definition _extract_actors_from_plantuml (plantuml_code : pystr)
  : list pystr :=
  let actors :=
    fold_left
      (fun actors pattern =>
         actors ++ re_findall true (pattern_of pattern) plantuml_code)
      participant_patterns [] in
  sorted_set actors.

(** Extract activities/interactions (messages) from PlantUML sequence
    code. *)
Definition _extract_activities_from_plantuml (plantuml_code : pystr)
  : list pystr :=
  flat_map
    (fun line =>
       if contains (py "->") line && contains (py ":") line
       then [strip line] else [])
    (splitlines plantuml_code).

(** *** The collaborators

    The file system, pandas, the agent and the renderer act on a world
    [W]; each call returns a value or raises, and leaves a new world. *)
Variable W : Type.
Variable dataframe : Type.

Definition M (A : Type) : Type := W -> outcome A * W.

Definition mret {A} (a : A) : M A := fun w => (Ret a, w).

Definition mbind {A B} (x : M A) (f : A -> M B) : M B :=
  fun w =>
    match x w with
    | (Ret a, w') => f a w'
    | (Raise e, w') => (Raise e, w')
    end.

Definition lift {A} (x : outcome A) : M A := fun w => (x, w).

(** [try: body / except Exception as e: handler e]: an exception that is
    no instance of [Exception] is not caught. *)
Definition mtry_except {A} (body : M A) (handler : exn -> M A) : M A :=
  fun w =>
    match body w with
    | (Ret a, w') => (Ret a, w')
    | (Raise e, w') =>
        if exn_is_Exception e then handler e w' else (Raise e, w')
    end.

(** [try: body / finally: cleanup]: the cleanup runs after the body,
    whatever its outcome, and an exception of the cleanup replaces it. *)
Definition mtry_finally {A} (body : M A) (cleanup : M unit) : M A :=
  fun w =>
    match body w with
    | (r, w') =>
        match cleanup w' with
        | (Ret _, w'') => (r, w'')
        | (Raise e, w'') => (Raise e, w'')
        end
    end.

Variable NamedTemporaryFile : M pystr.
Variable read_csv : pystr -> M dataframe.
Variable to_csv : dataframe -> pystr -> M unit.
Variable path_exists : pystr -> M bool.
Variable unlink : pystr -> M unit.
Variable agent_run : agent -> pystr -> M response.
Variable render_plantuml_from_text : pystr -> pystr -> pystr -> M pystr.

(** [re.search] on a text that is no string: the pattern is compiled
    first, then the text is rejected. *)
Definition not_a_string (text : pyobj) : exn :=
  match text with
  | PyBytesLike _ =>
      mkExn "TypeError"
        (py "cannot use a string pattern on a bytes-like object")
  | PyOther t =>
      mkExn "TypeError"
        (py "expected string or bytes-like object, got '" ++ t ++ py "'")
  | PyStr _ => mkExn "TypeError" []
  end.

(** The text handed to [_extract_code_block] may be any object: the first
    [re.search] that runs rejects one that is not a string. *)
Definition extract_from (text : pyobj) (lang_hint : option pystr)
  : outcome pystr :=
  match text with
  | PyStr s => _extract_code_block s lang_hint
  | _ =>
      match lang_hint with
      | Some (c :: h) =>
          let pattern := py "```" ++ (c :: h) ++ py "\s*([\s\S]*?)```" in
          _ <- py_re_search pattern [] true ;;
          Raise (not_a_string text)
      | _ => Raise (not_a_string text)
      end
  end.

(** [resp.content] *)
Definition get_content (resp : response) : outcome pyobj :=
  match resp_content resp with
  | Some c => Ret c
  | None =>
      Raise (mkExn "AttributeError"
               (py "'" ++ resp_type resp
                   ++ py "' object has no attribute 'content'"))
  end.

Definition success_result (plantuml_code img_path : pystr) : dict :=
  let host_prefix := py "/static" in
  [entry "success" (VBool true);
   entry "plantuml_code" (VStr plantuml_code);
   entry "plantuml_image"
     (VStr (host_prefix ++ py "/" ++ path_name img_path));
   entry "actors" (VList (_extract_actors_from_plantuml plantuml_code));
   entry "activities"
     (VList (_extract_activities_from_plantuml plantuml_code))].

Definition failure_result (e : exn) : dict :=
  [entry "success" (VBool false);
   entry "error" (VStr (exn_str e));
   entry "plantuml_code" VNone;
   entry "plantuml_image" VNone;
   entry "actors" (VList []);
   entry "activities" (VList [])].

Notation "x <~ c1 ;; c2" := (mbind c1 (fun x => c2))
  (at level 61, c1 at next level, right associativity).

Definition generation_instructions : list pystr :=
  [py "You are an expert at analyzing test cases and creating PlantUML sequence diagrams.";
   py "First, examine the test case data to identify:";
   py "1. All actors involved (users, systems, services, databases, cron jobs, etc.)";
   py "2. The sequence of activities/steps in the end-to-end flow";
   py "3. Interactions between different components";
   py "Then create a PlantUML sequence diagram that visualizes this end-to-end flow.";
   py "For PlantUML: return ONLY a fenced code block with ```plantuml.";
   py "Do NOT include any explanations or prose outside code blocks.";
   py "Make the diagram clear, with proper sequencing and appropriate participant names."].

Definition puml_prompt : pystr :=
  py "Analyze the test cases and create a PlantUML sequence diagram that represents "
  ++ py "the end-to-end flow with all actors and their interactions." ++ [LF; LF]
  ++ py "Rules:" ++ [LF]
  ++ py "1. Identify all participants (users, frontend, backend systems, databases, cron jobs, etc.)" ++ [LF]
  ++ py "2. Map the sequence of activities from the test cases" ++ [LF]
  ++ py "3. Show interactions between participants with clear messages" ++ [LF]
  ++ py "4. Use appropriate PlantUML syntax for sequence diagrams" ++ [LF]
  ++ py "5. Output only a single fenced code block using ```plantuml" ++ [LF; LF]
  ++ py "First, examine the CSV data to understand the test cases, then generate the diagram.".

(** The agent of [process_csv_and_generate], with its two tools. *)
Definition generation_agent (tmp_csv_path output_dir : pystr) : agent :=
  let csv_tool := CsvTools [tmp_csv_path] true true true in
  let py_tool := PythonTools output_dir true true in
  Agent (py "Test Case to PlantUML Agent") (OpenAIChat (py "gpt-4o-mini"))
        [csv_tool; py_tool] generation_instructions true true.

(** The [finally] block of [process_csv_and_generate]:
    [if os.path.exists(tmp_csv_path): os.unlink(tmp_csv_path)]. *)
Definition cleanup (tmp_csv_path : pystr) : M unit :=
  ex <~ path_exists tmp_csv_path ;;
  if ex then unlink tmp_csv_path else mret tt.

(** The [try] block of [process_csv_and_generate]. *)
Definition generation_body (tmp_csv_path output_dir : pystr) : M dict :=
  let agent := generation_agent tmp_csv_path output_dir in
  resp <~ agent_run agent puml_prompt ;;
  let puml_text_raw :=
    match resp_content resp with
    | Some c => c
    | None => PyStr (resp_str resp)
    end in
  plantuml_code <~
    lift (extract_from puml_text_raw (Some (py "plantuml"))) ;;
  (* Render PlantUML -> PNG *)
  puml_img_path <~
    render_plantuml_from_text plantuml_code output_dir
      (py "e2e_test_diagram") ;;
  (* Extract actors & activities *)
  mret (success_result plantuml_code puml_img_path).

(** Process CSV with Phidata Agent to generate PlantUML diagram from test
    cases. *)
Definition process_csv_and_generate (csv_path output_dir : pystr)
  : M dict :=
  tmp_file <~ NamedTemporaryFile ;;
  df <~ read_csv csv_path ;;
  _ <~ to_csv df tmp_file ;;
  let tmp_csv_path := tmp_file in
  mtry_finally
    (mtry_except
       (generation_body tmp_csv_path output_dir)
       (fun e => mret (failure_result e)))
    (cleanup tmp_csv_path).

Definition refiner_instructions : list pystr :=
  [py "You are an expert PlantUML editor.";
   py "Take the provided PlantUML code and modify it according to the user's request.";
   py "Return ONLY the updated PlantUML code in a fenced code block (```plantuml ... ```).";
   py "Do not add explanations or comments outside the code block."].

Definition refine_prompt (plantuml_code message : pystr) : pystr :=
  py "Here is the current PlantUML code:" ++ [LF] ++ py "```plantuml" ++ [LF]
  ++ plantuml_code ++ [LF] ++ py "```" ++ [LF; LF]
  ++ py "User request: " ++ message ++ [LF; LF]
  ++ py "Please return the updated PlantUML code.".

(** The agent of [refine_plantuml_code]. *)
Definition refiner : agent :=
  Agent (py "PlantUML Refiner") (OpenAIChat (py "gpt-4o-mini")) []
        refiner_instructions true false.

(** The [try] block of [refine_plantuml_code]. *)
Definition refinement_body (plantuml_code message output_dir : pystr)
  : M dict :=
  let agent := refiner in
  resp <~ agent_run agent (refine_prompt plantuml_code message) ;;
  content <~ lift (get_content resp) ;;
  updated_code <~ lift (extract_from content (Some (py "plantuml"))) ;;
  img_path <~
    render_plantuml_from_text updated_code output_dir
      (py "e2e_test_diagram") ;;
  mret (success_result updated_code img_path).

(** Use AI to refine existing PlantUML code based on user message. *)
Definition refine_plantuml_code (plantuml_code message output_dir : pystr)
  : M dict :=
  mtry_except
    (refinement_body plantuml_code message output_dir)
    (fun e => mret (failure_result e)).

End Service.

(** ** Result records *)

Definition is_success (d : dict) : Prop :=
  dict_get d "success" = Some (VBool true).

Definition is_failure (d : dict) : Prop :=
  dict_get d "success" = Some (VBool false).

(** A field is present when the record holds a string for it, and absent
    when the key is missing or holds [None]. *)
Definition present (d : dict) (k : string) : Prop :=
  exists s, dict_get d k = Some (VStr s).

Definition absent (d : dict) (k : string) : Prop :=
  dict_get d k = None \/ dict_get d k = Some VNone.

Definition well_formed_result (d : dict) : Prop :=
  (is_success d <->
     present d "plantuml_code" /\ present d "plantuml_image"
     /\ absent d "error")
  /\ (is_failure d <->
        absent d "plantuml_code" /\ absent d "plantuml_image"
        /\ present d "error")
  /\ (is_failure d ->
        dict_get d "actors" = Some (VList [])
        /\ dict_get d "activities" = Some (VList [])).

(** ** The HTTP handlers of [app/main.py] *)

(** [not v]: the empty string, the empty list, [None] and [False] are
    false. *)
Definition truthy (v : value) : bool :=
  match v with
  | VBool b => b
  | VStr s => negb (str_eqb s [])
  | VNone => false
  | VList l => match l with [] => false | _ => true end
  end.

(** [d.get(k, default)] *)
Definition dict_get_default (d : dict) (k : string) (default : value)
  : value :=
  match dict_get d k with
  | Some v => v
  | None => default
  end.

(** [s.endswith(suffix)] *)
Definition endswith (suffix s : pystr) : bool :=
  startswith (rev suffix) (rev s).

(** A value of the JSON body of a request: a string, or another value
    with its truth value and its text when formatted. *)
Inductive jvalue :=
| JStr (s : pystr)
| JOther (is_true : bool) (text : pystr).

Definition jtruthy (v : option jvalue) : bool :=
  match v with
  | None => false
  | Some (JStr s) => negb (str_eqb s [])
  | Some (JOther b _) => b
  end.

Definition jtext (v : option jvalue) : pystr :=
  match v with
  | None => py "None"
  | Some (JStr s) => s
  | Some (JOther _ t) => t
  end.

Fixpoint request_get (request : list (string * jvalue)) (k : string)
  : option jvalue :=
  match request with
  | [] => None
  | (k', v) :: request' =>
      if String.eqb k' k then Some v else request_get request' k
  end.

(** How a handler ends: it returns a record, raises [HTTPException], or
    lets another exception reach the framework. *)
Inductive handled :=
| Returned (d : dict)
| HTTPException (status_code : nat) (detail : value)
| Propagated (e : exn).

Section Handlers.

Variable re_extern : bool -> pystr -> pystr -> outcome (option match_obj).
Variable W : Type.
Variable dataframe : Type.
Variable NamedTemporaryFile : M W pystr.
Variable read_csv : pystr -> M W dataframe.
Variable to_csv : dataframe -> pystr -> M W unit.
Variable path_exists : pystr -> M W bool.
Variable unlink : pystr -> M W unit.
Variable agent_run : agent -> pystr -> M W response.
Variable render_plantuml_from_text : pystr -> pystr -> pystr -> M W pystr.

(** The two directories, the path [UPLOAD_DIR / name] and
    [path.with_suffix(suffix)], as strings. *)
Variable UPLOAD_DIR : pystr.
Variable STATIC_DIR : pystr.
Variable path_join : pystr -> pystr -> pystr.
Variable with_suffix : pystr -> pystr -> pystr.

(** Writing the uploaded file to a path, and [pd.read_excel]. *)
Variable save_upload : pystr -> M W unit.
Variable read_excel : pystr -> M W dataframe.

(** The end of both handlers: a failure record becomes an error 500 that
    carries its [error]. *)
Definition respond (orchestrated : M W dict) (default : pystr)
  : W -> handled * W :=
  fun w =>
    match orchestrated w with
    | (Raise e, w') => (Propagated e, w')
    | (Ret result, w') =>
        if negb (truthy (dict_get_default result "success" (VBool false)))
        then (HTTPException 500
                (dict_get_default result "error" (VStr default)), w')
        else (Returned result, w')
    end.

Definition upload_csv (file_filename : pystr) : W -> handled * W :=
  fun w =>
    let filename := map lower file_filename in
    let dest := path_join UPLOAD_DIR file_filename in
    match save_upload dest w with
    | (Raise e, w1) => (Propagated e, w1)
    | (Ret _, w1) =>
        let process dest :=
          respond
            (process_csv_and_generate re_extern NamedTemporaryFile read_csv
               to_csv path_exists unlink agent_run
               render_plantuml_from_text dest STATIC_DIR)
            (py "Failed to process test cases") in
        (* If Excel, convert to CSV *)
        if endswith (py ".xlsx") filename || endswith (py ".xls") filename
        then
          match read_excel dest w1 with
          | (Raise e, w2) => (Propagated e, w2)
          | (Ret df, w2) =>
              let csv_path := with_suffix dest (py ".csv") in
              match to_csv df csv_path w2 with
              | (Raise e, w3) => (Propagated e, w3)
              | (Ret _, w3) => process csv_path w3
              end
          end
        else if negb (endswith (py ".csv") filename) then
          (HTTPException 400 (VStr (py "Only CSV or Excel files allowed")),
           w1)
        else process dest w1
    end.

Definition chat_plantuml (request : list (string * jvalue))
  : W -> handled * W :=
  fun w =>
    let plantuml_code := request_get request "plantuml_code" in
    let user_message := request_get request "message" in
    if negb (jtruthy plantuml_code) || negb (jtruthy user_message) then
      (HTTPException 400
         (VStr (py "plantuml_code and message are required")), w)
    else
      respond
        (refine_plantuml_code re_extern agent_run render_plantuml_from_text
           (jtext plantuml_code) (jtext user_message) STATIC_DIR)
        (py "Failed to refine PlantUML") w.

End Handlers.

(** ** Vocabulary of the properties *)

(** A line of a diagram that is an activity: it holds an arrow [->] and a
    label separator [:]. *)
Definition is_activity (line : pystr) : bool :=
  contains (py "->") line && contains (py ":") line.

Definition no_linebreak (l : pystr) : Prop :=
  Forall (fun c => is_linebreak c = false) l.

(** [b] is a line boundary standing before [rest]: a CR LF pair, or one
    line-break character that is not the CR of such a pair. *)
Inductive boundary (rest : pystr) : pystr -> Prop :=
| boundary_crlf : boundary rest [CR; LF]
| boundary_one c :
    is_linebreak c = true ->
    (c = CR -> forall rest', rest <> LF :: rest') ->
    boundary rest [c].

(** [lines_of s ls]: the text [s] is the lines [ls], each followed by a
    line boundary, except that the last line may end the text. *)
Inductive lines_of : pystr -> list pystr -> Prop :=
| lines_none : lines_of [] []
| lines_last l : l <> [] -> no_linebreak l -> lines_of l [l]
| lines_more l b rest ls :
    no_linebreak l -> boundary rest b -> lines_of rest ls ->
    lines_of (l ++ b ++ rest) (l :: ls).

(** The pattern that matches the characters of [w] and then [rest]. *)
Definition lits (w : pystr) (rest : regex) : regex :=
  fold_right (fun c r => Cat (Lit c) r) rest w.

(** [w] matches the front of [s], character by character. *)
Fixpoint lit_prefix (ic : bool) (w s : pystr) : bool :=
  match w, s with
  | [], _ => true
  | c :: w', d :: s' => lit_match ic c d && lit_prefix ic w' s'
  | _ :: _, [] => false
  end.

(** A character that stands for itself in a pattern. *)
Definition plain (c : ascii) : bool := negb (one_of ".\[{()*+?^$|" c).

(** Two strings equal up to the case of their letters. *)
Definition same_ci (a b : pystr) : Prop := map lower a = map lower b.

Definition FENCE : pystr := py "```".

(** The continuation [k] succeeds with [res] on some suffix of [s]. *)
Definition reaches (R : Type) (k : pystr -> groups -> option R) (s : pystr)
  (res : R) : Prop :=
  exists x s' g', s = x ++ s' /\ k s' g' = Some res.

(** What follows the hint in the pattern of [_extract_code_block], and
    that pattern for a hint of plain characters. *)
Definition hinted_tail : regex :=
  Cat (Rep true 0 None (CSet false [CSpace]))
      (Cat (Grp 1 (Cat (Rep false 0 None (CSet false [CSpace; CNotSpace]))
                       Eps))
           (lits FENCE Eps)).

Definition hinted_regex (hint : pystr) : regex :=
  lits (FENCE ++ hint) hinted_tail.

(** The text [s] begins with an opening fence that names [hint], in
    whatever case. *)
Definition opens_block (hint s : pystr) : Prop :=
  exists label rest, s = FENCE ++ label ++ rest /\ same_ci label hint.

(** No fence begins in [body ++ FENCE ++ post] before the one written:
    that fence is the first to close a block opened before [body]. *)
Definition closes_first (body post : pystr) : Prop :=
  forall j, j < length body ->
            startswith FENCE (skipn j (body ++ FENCE ++ post)) = false.

(** The optional label of the pattern for any fenced block, [(?:\w+)?],
    and that pattern. *)
Definition optional_label : regex :=
  Rep true 0 (Some 1) (Cat (Rep true 1 None (CSet false [CWord])) Eps).

Definition fenced_any_regex : regex :=
  lits FENCE (Cat optional_label hinted_tail).

(** The text holds no fenced block that names [hint]: after a fence
    followed by the hint, in whatever case, no fence closes a block. *)
Definition no_hinted_block (hint text : pystr) : Prop :=
  forall a label b,
    text = a ++ FENCE ++ label ++ b -> same_ci label hint ->
    contains FENCE b = false.

(** The hinted search of [_extract_code_block] has nothing to find: no
    hint is given, or the hint is of plain characters and the text holds
    no fenced block that names it. *)
Definition nothing_hinted (lang_hint : option pystr) (text : pystr) : Prop :=
  match lang_hint with
  | None | Some [] => True
  | Some hint => forallb plain hint = true /\ no_hinted_block hint text
  end.

(** The text holds no fenced block at all: no two fences, one after the
    other. *)
Definition no_fenced_block (text : pystr) : Prop :=
  forall a m b, text <> a ++ FENCE ++ m ++ FENCE ++ b.


Definition str_lt (a b : pystr) : Prop := str_ltb a b = true.

(** What follows the keyword in the two forms of a participant pattern. *)
Definition bare_tail : regex :=
  Cat (Rep true 1 None (CSet false [CSpace]))
      (Cat (Grp 1 (Cat (Rep true 1 None (CSet false [CWord])) Eps)) Eps).

Definition quoted_tail : regex :=
  Cat (Rep true 1 None (CSet false [CSpace]))
      (Cat (Lit DQUOTE)
           (Cat (Grp 1 (Cat (Rep true 1 None (CSet true [CLit DQUOTE])) Eps))
                (Cat (Lit DQUOTE) Eps))).

(** The text [s] begins with [kw], in whatever case. *)
Definition begins_ci (kw s : pystr) : Prop :=
  exists w rest, s = w ++ rest /\ same_ci w kw.

Definition all_space (ws : pystr) : Prop :=
  Forall (fun c => is_space c = true) ws.

Definition all_word (name : pystr) : Prop :=
  Forall (fun c => is_word c = true) name.

(** No word character follows: the text is empty or begins with another
    character. *)
Definition ends_word (post : pystr) : Prop :=
  forall c t, post = c :: t -> is_word c = false.

(** The text [s] begins with a declaration by the keyword [kw], written
    in whatever case, of the bare identifier [name], and [rest] follows:
    white space stands between the keyword and the identifier, and the
    identifier ends where the word characters end. *)
Definition bare_decl (kw s name rest : pystr) : Prop :=
  exists kw' ws,
    s = kw' ++ ws ++ name ++ rest
    /\ same_ci kw' kw /\ ws <> [] /\ all_space ws
    /\ name <> [] /\ all_word name /\ ends_word rest.

(** The same for a label between double quotes: the label ends at the
    first quote after it begins. *)
Definition quoted_decl (kw s label rest : pystr) : Prop :=
  exists kw' ws,
    s = kw' ++ ws ++ [DQUOTE] ++ label ++ [DQUOTE] ++ rest
    /\ same_ci kw' kw /\ ws <> [] /\ all_space ws
    /\ label <> [] /\ ~ In DQUOTE label.

(** [scanned decl s names]: the names of the declarations met when [s] is
    read from left to right, each declaration sought from the end of the
    one before. *)
Inductive scanned (decl : pystr -> pystr -> pystr -> Prop)
  : pystr -> list pystr -> Prop :=
| scanned_none s :
    (forall i name rest, ~ decl (skipn i s) name rest) ->
    scanned decl s []
| scanned_next pre s name rest names :
    (forall i name' rest',
        i < length pre -> ~ decl (skipn i (pre ++ s)) name' rest') ->
    decl s name rest ->
    scanned decl rest names ->
    scanned decl (pre ++ s) (name :: names).

(** What a handler makes of the outcome [o] of its orchestrator: a
    success record is returned as it is, a failure record becomes an error
    500 whose detail is the [error] of that record, and an exception
    reaches the framework. *)
Definition relays (o : outcome dict) (out : handled) : Prop :=
  match o with
  | Ret d =>
      (is_success d /\ well_formed_result d /\ out = Returned d)
      \/ (is_failure d
          /\ exists detail,
               dict_get d "error" = Some detail
               /\ out = HTTPException 500 detail)
  | Raise e => out = Propagated e
  end.

(** What a handler makes of the outcome [o] of the [try] block of its
    orchestrator. *)
Definition relays_try (o : outcome dict) : handled :=
  match o with
  | Ret d => Returned d
  | Raise e =>
      if exn_is_Exception e then HTTPException 500 (VStr (exn_str e))
      else Propagated e
  end.

(** A string with no white space at either end. *)
Definition trimmed (x : pystr) : Prop := strip x = x.

(** ** Deterministic fakes of the collaborators

    The world has one state; the agent answers with a fixed text and the
    renderer names the image after the base name. *)

Definition no_extern : bool -> pystr -> pystr -> outcome (option match_obj) :=
  fun _ _ _ => Ret None.

Definition fake_tmp : M unit pystr := mret (py "/tmp/tmpcases.csv").

Definition fake_read_csv : pystr -> M unit unit := fun _ => mret tt.

Definition missing_csv : pystr -> M unit unit :=
  fun p w =>
    (Raise (mkExn "FileNotFoundError"
              (py "[Errno 2] No such file or directory: '" ++ p ++ py "'")),
     w).

Definition fake_to_csv : unit -> pystr -> M unit unit := fun _ _ => mret tt.

Definition fake_exists : pystr -> M unit bool := fun _ => mret true.

Definition fake_unlink : pystr -> M unit unit := fun _ => mret tt.

Definition fake_agent (content : pystr) : agent -> pystr -> M unit response :=
  fun _ _ =>
    mret (mkResponse (py "RunResponse") (Some (PyStr content))
                     (py "RunResponse")).

Definition fake_render : pystr -> pystr -> pystr -> M unit pystr :=
  fun _ output_dir filename_base =>
    mret (output_dir ++ py "/" ++ filename_base ++ py ".png").

(** The answer of the refinement capability in scenario C of the
    specification, and the diagram it holds. *)
Definition ping_pong : pystr :=
  py "A -> B: ping" ++ [LF] ++ py "B -> A: pong".

Definition ping_pong_reply : pystr :=
  py "```plantuml" ++ [LF] ++ ping_pong ++ [LF] ++ py "```".

(** A world that is the list of the files on disk: the temporary file is
    created under a fixed name, reading and writing leave the list as it
    is, and the agent fails after leaving a file of its own behind. *)
Definition disk := list pystr.

Definition on_disk (p : pystr) (w : disk) : bool := existsb (str_eqb p) w.

Definition disk_tmp : M disk pystr :=
  fun w => (Ret (py "/tmp/tmpcases.csv"), py "/tmp/tmpcases.csv" :: w).

Definition disk_read_csv : pystr -> M disk unit := fun _ => mret tt.

Definition disk_to_csv : unit -> pystr -> M disk unit := fun _ _ => mret tt.

Definition disk_exists : pystr -> M disk bool :=
  fun p w => (Ret (on_disk p w), w).

Definition disk_unlink : pystr -> M disk unit :=
  fun p w => (Ret tt, filter (fun q => negb (str_eqb p q)) w).

Definition failing_agent : agent -> pystr -> M disk response :=
  fun _ _ w =>
    (Raise (mkExn "RuntimeError" (py "model unavailable")),
     py "static/notes.txt" :: w).

Definition disk_render : pystr -> pystr -> pystr -> M disk pystr :=
  fun _ output_dir filename_base w =>
    let p := output_dir ++ py "/" ++ filename_base ++ py ".png" in
    (Ret p, p :: w).

(** * Properties *)

Lemma present_not_absent d k : present d k -> absent d k -> False.
Proof.
  intros [s Hs] [Ha | Ha]; rewrite Hs in Ha; discriminate.
Qed.

Lemma success_result_well_formed code_ img :
  well_formed_result (success_result code_ img).
Proof.
  unfold well_formed_result, is_success, is_failure, present, absent.
  cbn. repeat split; intros; try discriminate; eauto;
    match goal with
    | H : (_ \/ _) /\ _ |- _ => destruct H as [[H | H] _]; discriminate
    end.
Qed.

Lemma failure_result_well_formed e : well_formed_result (failure_result e).
Proof.
  unfold well_formed_result, is_success, is_failure, present, absent.
  cbn. repeat split; intros; try discriminate; eauto;
    match goal with
    | H : (exists _, _) /\ _ |- _ => destruct H as [[s H] _]; discriminate
    end.
Qed.

Section Orchestrators.

Variable re_extern : bool -> pystr -> pystr -> outcome (option match_obj).
Variable W : Type.
Variable dataframe : Type.
Variable NamedTemporaryFile : M W pystr.
Variable read_csv : pystr -> M W dataframe.
Variable to_csv : dataframe -> pystr -> M W unit.
Variable path_exists : pystr -> M W bool.
Variable unlink : pystr -> M W unit.
Variable agent_run : agent -> pystr -> M W response.
Variable render_plantuml_from_text : pystr -> pystr -> pystr -> M W pystr.

Let process := process_csv_and_generate re_extern NamedTemporaryFile
                 read_csv to_csv path_exists unlink agent_run
                 render_plantuml_from_text.
Let refine := refine_plantuml_code re_extern agent_run
                render_plantuml_from_text.
Let gen_body := generation_body re_extern agent_run
                  render_plantuml_from_text.
Let ref_body := refinement_body re_extern agent_run
                  render_plantuml_from_text.

(** A [try] block that returns, returns a success record. *)
Lemma generation_body_ret tmp output_dir w d w' :
  gen_body tmp output_dir w = (Ret d, w') ->
  exists c p, d = success_result c p.
Proof.
  unfold gen_body, generation_body, mbind, lift, mret.
  destruct (agent_run _ _ w) as [[resp | e] v1]; [| discriminate].
  destruct (extract_from _ _ _) as [u | e]; [| discriminate].
  destruct (render_plantuml_from_text u _ _ v1) as [[p | e] v2];
    [| discriminate].
  intros H; inversion H; subst. eauto.
Qed.

Lemma refinement_body_ret plantuml_code message output_dir w d w' :
  ref_body plantuml_code message output_dir w = (Ret d, w') ->
  exists c p, d = success_result c p.
Proof.
  unfold ref_body, refinement_body, mbind, lift, mret.
  destruct (agent_run _ _ w) as [[resp | e] v1]; [| discriminate].
  destruct (get_content resp) as [c | e]; [| discriminate].
  destruct (extract_from _ _ _) as [u | e]; [| discriminate].
  destruct (render_plantuml_from_text u _ _ v1) as [[p | e] v2];
    [| discriminate].
  intros H; inversion H; subst. eauto.
Qed.

(** [refine_plantuml_code] returns what its [try] block returns and the
    failure record of the instance of [Exception] it raises; it raises
    what its [try] block raises otherwise. *)
Lemma refine_catches plantuml_code message output_dir w :
  refine plantuml_code message output_dir w =
  match ref_body plantuml_code message output_dir w with
  | (Ret d, w') => (Ret d, w')
  | (Raise e, w') =>
      if exn_is_Exception e then (Ret (failure_result e), w')
      else (Raise e, w')
  end.
Proof.
  unfold refine, refine_plantuml_code, mtry_except.
  fold (ref_body plantuml_code message output_dir).
  destruct (ref_body plantuml_code message output_dir w) as [[d | e] w'];
    [reflexivity |].
  destruct (exn_is_Exception e); reflexivity.
Qed.

(** Any record [refine_plantuml_code] returns is a success record or a
    failure record. *)
Lemma refine_result_shape plantuml_code message output_dir w d w' :
  refine plantuml_code message output_dir w = (Ret d, w') ->
  (exists c p, d = success_result c p) \/ (exists e, d = failure_result e).
Proof.
  rewrite refine_catches.
  destruct (ref_body _ _ _ w) as [[d0 | e] v] eqn:Hb.
  - intros H; inversion H; subst.
    left. eapply refinement_body_ret; eauto.
  - destruct (exn_is_Exception e); intros H; inversion H; subst. eauto.
Qed.

(** Once the CSV is normalised, [process_csv_and_generate] runs its [try]
    block and then the removal of the temporary file. *)
Lemma process_after_normalisation csv_path output_dir w tmp df w1 w2 w3 :
  NamedTemporaryFile w = (Ret tmp, w1) ->
  read_csv csv_path w1 = (Ret df, w2) ->
  to_csv df tmp w2 = (Ret tt, w3) ->
  process csv_path output_dir w =
  mtry_finally
    (mtry_except (gen_body tmp output_dir)
                 (fun e => mret (failure_result e)))
    (cleanup path_exists unlink tmp) w3.
Proof.
  intros Htmp Hread Hto.
  unfold process, process_csv_and_generate.
  unfold mbind at 1. rewrite Htmp.
  unfold mbind at 1. rewrite Hread.
  unfold mbind at 1. rewrite Hto. reflexivity.
Qed.

(** After its [try] block and a removal of the temporary file that does
    not raise, [process_csv_and_generate] returns what the block returns
    and the failure record of the instance of [Exception] it raises. *)
Lemma process_runs_try_block csv_path output_dir w tmp df w1 w2 w3 o w4 w5 :
  NamedTemporaryFile w = (Ret tmp, w1) ->
  read_csv csv_path w1 = (Ret df, w2) ->
  to_csv df tmp w2 = (Ret tt, w3) ->
  gen_body tmp output_dir w3 = (o, w4) ->
  cleanup path_exists unlink tmp w4 = (Ret tt, w5) ->
  process csv_path output_dir w
  = (match o with
     | Ret d => Ret d
     | Raise e =>
         if exn_is_Exception e then Ret (failure_result e) else Raise e
     end, w5).
Proof.
  intros Htmp Hread Hto Hbody Hclean.
  erewrite process_after_normalisation by eassumption.
  unfold mtry_finally, mtry_except. rewrite Hbody.
  destruct o as [d | e].
  - rewrite Hclean. reflexivity.
  - destruct (exn_is_Exception e); unfold mret; rewrite Hclean;
      reflexivity.
Qed.

(** Any record [process_csv_and_generate] returns is a success record or a
    failure record. *)
Lemma process_result_shape csv_path output_dir w d w' :
  process csv_path output_dir w = (Ret d, w') ->
  (exists c p, d = success_result c p) \/ (exists e, d = failure_result e).
Proof.
  unfold process, process_csv_and_generate.
  unfold mbind at 1.
  destruct (NamedTemporaryFile w) as [[tmp | e] w1]; [| discriminate].
  unfold mbind at 1.
  destruct (read_csv csv_path w1) as [[df | e] w2]; [| discriminate].
  unfold mbind at 1.
  destruct (to_csv df tmp w2) as [[[] | e] w3]; [| discriminate].
  unfold mtry_finally, mtry_except.
  fold (gen_body tmp output_dir).
  destruct (gen_body tmp output_dir w3) as [[d0 | e] w4] eqn:Hbody.
  - destruct (cleanup _ _ tmp w4) as [[[] | e] w5]; [| discriminate].
    intros H; inversion H; subst.
    left. eapply generation_body_ret; eauto.
  - unfold mret.
    destruct (exn_is_Exception e);
      destruct (cleanup _ _ tmp w4) as [[[] | e'] w5]; try discriminate.
    intros H; inversion H; subst. eauto.
Qed.

End Orchestrators.

(** ** Strings *)

Lemma chr_eqb_eq c d : chr_eqb c d = true <-> c = d.
Proof. apply Ascii.eqb_eq. Qed.

Lemma chr_eqb_refl c : chr_eqb c c = true.
Proof. apply Ascii.eqb_refl. Qed.

Lemma startswith_iff p s : startswith p s = true <-> exists b, s = p ++ b.
Proof.
  revert s. induction p as [| c p IH]; intros s; simpl.
  - split; eauto.
  - destruct s as [| d s].
    + split; [discriminate | intros [b H]; discriminate].
    + rewrite andb_true_iff, chr_eqb_eq, IH. split.
      * intros [-> [b ->]]. eauto.
      * intros [b H]. inversion H; subst. eauto.
Qed.

Lemma startswith_app p b : startswith p (p ++ b) = true.
Proof. apply startswith_iff. eauto. Qed.

Lemma contains_iff p s :
  contains p s = true <-> exists a b, s = a ++ p ++ b.
Proof.
  induction s as [| d s IH].
  - simpl. rewrite orb_false_r, startswith_iff. split.
    + intros [b H]. exists [], b. exact H.
    + intros (a & b & H). destruct a; [eauto |].
      discriminate.
  - simpl. rewrite orb_true_iff, startswith_iff, IH. split.
    + intros [[b H] | (a & b & H)].
      * exists [], b. exact H.
      * exists (d :: a), b. simpl. congruence.
    + intros (a & b & H). destruct a as [| d' a].
      * left. eauto.
      * right. inversion H; subst. eauto.
Qed.

Lemma dropwhile_all f ws s :
  Forall (fun c => f c = true) ws -> dropwhile f (ws ++ s) = dropwhile f s.
Proof.
  induction 1 as [| c ws Hc _ IH]; simpl; [reflexivity |].
  rewrite Hc. exact IH.
Qed.

Lemma dropwhile_split f l :
  exists ws, l = ws ++ dropwhile f l /\ Forall (fun c => f c = true) ws.
Proof.
  induction l as [| c l (ws & H & Hws)]; simpl.
  - exists []. auto.
  - destruct (f c) eqn:Hc.
    + exists (c :: ws). split; [simpl; congruence | auto].
    + exists []. auto.
Qed.

Lemma dropwhile_head f l c t : dropwhile f l = c :: t -> f c = false.
Proof.
  induction l as [| d l IH]; simpl; [discriminate |].
  destruct (f d) eqn:Hd; [exact IH |].
  intros H; inversion H; subst. exact Hd.
Qed.

Lemma dropwhile_fixed f l :
  (forall c t, l = c :: t -> f c = false) -> dropwhile f l = l.
Proof.
  destruct l as [| c t]; simpl; [reflexivity |].
  intros H. rewrite (H c t eq_refl). reflexivity.
Qed.

Lemma dropwhile_idem f l : dropwhile f (dropwhile f l) = dropwhile f l.
Proof.
  apply dropwhile_fixed. intros c t H. eapply dropwhile_head; eauto.
Qed.

(** A string is its stripped form between two runs of white space. *)
Lemma strip_split l :
  exists ws1 ws2,
    l = ws1 ++ strip l ++ ws2
    /\ Forall (fun c => is_space c = true) ws1
    /\ Forall (fun c => is_space c = true) ws2.
Proof.
  unfold strip, rstrip, lstrip.
  destruct (dropwhile_split is_space l) as (ws1 & H1 & Hws1).
  destruct (dropwhile_split is_space (rev (dropwhile is_space l)))
    as (ws2 & H2 & Hws2).
  exists ws1, (rev ws2). repeat split; auto.
  - rewrite <- rev_app_distr, <- H2, rev_involutive. exact H1.
  - apply Forall_rev. exact Hws2.
Qed.

Lemma lstrip_spaces ws s :
  Forall (fun c => is_space c = true) ws -> lstrip (ws ++ s) = lstrip s.
Proof. apply dropwhile_all. Qed.

Lemma strip_spaces ws s :
  Forall (fun c => is_space c = true) ws -> strip (ws ++ s) = strip s.
Proof. intros H. unfold strip. rewrite lstrip_spaces; auto. Qed.

Lemma rstrip_idem l : rstrip (rstrip l) = rstrip l.
Proof.
  unfold rstrip. rewrite rev_involutive, dropwhile_idem. reflexivity.
Qed.

(** The first character of [rstrip l] is the first character of [l],
    unless everything is removed. *)
Lemma rstrip_first l c t c' t' :
  l = c :: t -> rstrip l = c' :: t' -> c' = c.
Proof.
  intros Hl Hr.
  destruct (dropwhile_split is_space (rev l)) as (ws & H & _).
  apply (f_equal (@rev ascii)) in H.
  rewrite rev_involutive, rev_app_distr in H.
  fold (rstrip l) in H. rewrite Hr, Hl in H. simpl in H.
  inversion H; reflexivity.
Qed.

Lemma strip_idem l : strip (strip l) = strip l.
Proof.
  assert (H : lstrip (strip l) = strip l).
  { unfold lstrip. apply dropwhile_fixed. intros c t Hs.
    unfold strip in Hs.
    destruct (lstrip l) as [| c0 t0] eqn:Hl.
    - unfold rstrip in Hs. simpl in Hs. discriminate.
    - pose proof (rstrip_first eq_refl Hs) as ->.
      eapply dropwhile_head. exact Hl. }
  unfold strip at 1. rewrite H. unfold strip. apply rstrip_idem.
Qed.

Lemma contains_lstrip p0 p s :
  is_space p0 = false ->
  contains (p0 :: p) (lstrip s) = contains (p0 :: p) s.
Proof.
  intros Hp. induction s as [| c s IH]; [reflexivity |].
  unfold lstrip in *. simpl dropwhile.
  destruct (is_space c) eqn:Hc; [| reflexivity].
  rewrite IH. cbn [contains startswith].
  destruct (chr_eqb p0 c) eqn:E; [| reflexivity].
  apply chr_eqb_eq in E. congruence.
Qed.

Lemma contains_snoc p z l c :
  is_space z = false -> is_space c = true ->
  contains (p ++ [z]) (l ++ [c]) = true -> contains (p ++ [z]) l = true.
Proof.
  intros Hz Hc H. apply contains_iff in H. destruct H as (a & b & H).
  apply contains_iff.
  induction b as [| c' b' _] using rev_ind.
  - rewrite app_nil_r, app_assoc in H.
    apply app_inj_tail in H. destruct H as [_ ->]. congruence.
  - rewrite !app_assoc in H. apply app_inj_tail in H. destruct H as [H _].
    exists a, b'. rewrite H, !app_assoc. reflexivity.
Qed.

Lemma contains_app_l p l m : contains p l = true -> contains p (l ++ m) = true.
Proof.
  rewrite !contains_iff. intros (a & b & ->).
  exists a, (b ++ m). rewrite !app_assoc. reflexivity.
Qed.

Lemma contains_rstrip p z s :
  is_space z = false ->
  contains (p ++ [z]) (rstrip s) = contains (p ++ [z]) s.
Proof.
  intros Hz.
  destruct (dropwhile_split is_space (rev s)) as (ws & H & Hws).
  apply (f_equal (@rev ascii)) in H.
  rewrite rev_involutive, rev_app_distr in H. fold (rstrip s) in H.
  apply Forall_rev in Hws. revert H Hws. generalize (rev ws) as u.
  intros u. revert s. induction u as [| c u IH] using rev_ind; intros s H Hu.
  - rewrite app_nil_r in H. congruence.
  - apply Forall_app in Hu. destruct Hu as [Hu Hc]. inversion Hc; subst.
    destruct (contains (p ++ [z]) (rstrip s)) eqn:E.
    + symmetry. rewrite H at 1. apply contains_app_l. exact E.
    + symmetry. destruct (contains (p ++ [z]) s) eqn:E2; [| reflexivity].
      rewrite H, app_assoc in E2.
      apply contains_snoc in E2; auto.
      assert (Hr : rstrip (rstrip s ++ u) = rstrip s).
      { unfold rstrip at 1. rewrite rev_app_distr.
        rewrite dropwhile_all by (apply Forall_rev; exact Hu).
        fold (rstrip (rstrip s)). apply rstrip_idem. }
      rewrite <- (IH (rstrip s ++ u)) in E2; auto.
      * rewrite Hr in E2. congruence.
      * rewrite Hr. reflexivity.
Qed.

Lemma contains_strip p z p0 p' s :
  p ++ [z] = p0 :: p' -> is_space z = false -> is_space p0 = false ->
  contains (p ++ [z]) (strip s) = contains (p ++ [z]) s.
Proof.
  intros Hp Hz Hp0. unfold strip.
  rewrite contains_rstrip by exact Hz.
  rewrite Hp. apply contains_lstrip. exact Hp0.
Qed.

Lemma is_activity_strip l : is_activity (strip l) = is_activity l.
Proof.
  unfold is_activity.
  rewrite (@contains_strip [ "-"%char ] ">"%char "-"%char [ ">"%char ])
    by reflexivity.
  rewrite (@contains_strip [] ":"%char ":"%char []) by reflexivity.
  reflexivity.
Qed.

(** ** Lines *)

Lemma no_linebreak_snoc l c :
  no_linebreak l -> is_linebreak c = false -> no_linebreak (l ++ [c]).
Proof.
  intros Hl Hc. apply Forall_app. split; [exact Hl | auto].
Qed.

Lemma splitlines_aux_lines s :
  forall cur, no_linebreak (rev cur) ->
              lines_of (rev cur ++ s) (splitlines_aux s cur).
Proof.
  remember (length s) as n eqn:Hn. revert s Hn.
  induction n as [n IH] using lt_wf_ind. intros s Hn cur Hcur.
  destruct s as [| c s]; simpl.
  - rewrite app_nil_r. destruct cur as [| c0 cur0] eqn:E.
    + constructor.
    + apply lines_last; [| exact Hcur].
      simpl. intros H. apply app_eq_nil in H. destruct H; discriminate.
  - destruct (is_linebreak c) eqn:Hc.
    + destruct s as [| d s'].
      * change (rev cur ++ [c]) with (rev cur ++ [c] ++ []).
        apply lines_more; [exact Hcur | | constructor].
        apply boundary_one; [exact Hc | intros _ rest' H; discriminate].
      * destruct (chr_eqb c CR && chr_eqb d LF) eqn:E.
        -- apply andb_true_iff in E. destruct E as [E1 E2].
           apply chr_eqb_eq in E1, E2. subst c d.
           change (rev cur ++ CR :: LF :: s')
             with (rev cur ++ [CR; LF] ++ (rev [] ++ s')).
           apply lines_more; [exact Hcur | constructor |].
           apply (IH (length s')); [simpl in Hn; lia | reflexivity |].
           constructor.
        -- change (rev cur ++ c :: d :: s')
             with (rev cur ++ [c] ++ (rev [] ++ d :: s')).
           apply lines_more; [exact Hcur | |].
           ++ apply boundary_one; [exact Hc |].
              intros -> rest' H. simpl in H. inversion H; subst.
              rewrite !chr_eqb_refl in E. discriminate.
           ++ apply (IH (length (d :: s'))); [simpl in *; lia | reflexivity |].
              constructor.
    + replace (rev cur ++ c :: s) with (rev (c :: cur) ++ s)
        by (simpl; rewrite <- app_assoc; reflexivity).
      apply (IH (length s)); [simpl in Hn; lia | reflexivity |].
      simpl. apply no_linebreak_snoc; assumption.
Qed.

(** [splitlines] cuts a text into its lines. *)
Lemma splitlines_lines s : lines_of s (splitlines s).
Proof. apply (splitlines_aux_lines s []). constructor. Qed.

(** ** The orchestrators *)

(** C1, as the code has it.  Both orchestrators turn an instance of
    [Exception] raised in their [try] block into the failure record whose
    [error] is its message, and let pass an exception that is no instance
    of [Exception]; so [refine_plantuml_code] raises no instance of
    [Exception].  [process_csv_and_generate] then removes the temporary
    file, and an exception of that removal replaces the outcome.  What is
    raised before its [try] block, while the temporary file is created and
    the test cases are read and written to it, reaches the caller. *)
Theorem C1_failures_isolated_in_try_block :
  forall (re_extern : bool -> pystr -> pystr -> outcome (option match_obj))
         (W dataframe : Type)
         (NamedTemporaryFile : M W pystr)
         (read_csv : pystr -> M W dataframe)
         (to_csv : dataframe -> pystr -> M W unit)
         (path_exists : pystr -> M W bool) (unlink : pystr -> M W unit)
         (agent_run : agent -> pystr -> M W response)
         (render : pystr -> pystr -> pystr -> M W pystr),
    let process :=
      process_csv_and_generate re_extern NamedTemporaryFile read_csv
        to_csv path_exists unlink agent_run render in
    let refine := refine_plantuml_code re_extern agent_run render in
    (forall plantuml_code message output_dir w o w',
        refinement_body re_extern agent_run render
          plantuml_code message output_dir w = (o, w') ->
        refine plantuml_code message output_dir w
        = (match o with
           | Ret d => Ret d
           | Raise e =>
               if exn_is_Exception e then Ret (failure_result e)
               else Raise e
           end, w'))
    /\ (forall plantuml_code message output_dir w e w',
          refine plantuml_code message output_dir w = (Raise e, w') ->
          exn_is_Exception e = false)
    /\ (forall e, dict_get (failure_result e) "error"
                  = Some (VStr (exn_str e)))
    /\ (forall csv_path output_dir w tmp df w1 w2 w3 o w4 w5,
          NamedTemporaryFile w = (Ret tmp, w1) ->
          read_csv csv_path w1 = (Ret df, w2) ->
          to_csv df tmp w2 = (Ret tt, w3) ->
          generation_body re_extern agent_run render tmp output_dir w3
            = (o, w4) ->
          cleanup path_exists unlink tmp w4 = (Ret tt, w5) ->
          process csv_path output_dir w
          = (match o with
             | Ret d => Ret d
             | Raise e =>
                 if exn_is_Exception e then Ret (failure_result e)
                 else Raise e
             end, w5))
    /\ (forall csv_path output_dir w tmp df w1 w2 w3 o w4 e w5,
          NamedTemporaryFile w = (Ret tmp, w1) ->
          read_csv csv_path w1 = (Ret df, w2) ->
          to_csv df tmp w2 = (Ret tt, w3) ->
          generation_body re_extern agent_run render tmp output_dir w3
            = (o, w4) ->
          cleanup path_exists unlink tmp w4 = (Raise e, w5) ->
          process csv_path output_dir w = (Raise e, w5))
    /\ (forall csv_path output_dir w e w',
          NamedTemporaryFile w = (Raise e, w') ->
          process csv_path output_dir w = (Raise e, w'))
    /\ (forall csv_path output_dir w tmp w1 e w',
          NamedTemporaryFile w = (Ret tmp, w1) ->
          read_csv csv_path w1 = (Raise e, w') ->
          process csv_path output_dir w = (Raise e, w'))
    /\ (forall csv_path output_dir w tmp df w1 w2 e w',
          NamedTemporaryFile w = (Ret tmp, w1) ->
          read_csv csv_path w1 = (Ret df, w2) ->
          to_csv df tmp w2 = (Raise e, w') ->
          process csv_path output_dir w = (Raise e, w')).
Proof.
  intros re_extern W dataframe NTF read_csv to_csv path_exists unlink
         agent_run render process refine.
  split; [| split; [| split; [| split; [| split; [| split; [| split]]]]]].
  - intros plantuml_code message output_dir w o w' Hb.
    unfold refine. rewrite refine_catches, Hb.
    destruct o as [d | e]; [reflexivity |].
    destruct (exn_is_Exception e); reflexivity.
  - intros plantuml_code message output_dir w e w'.
    unfold refine. rewrite refine_catches.
    destruct (refinement_body _ _ _ _ _ _ w) as [[d | e0] v0];
      [discriminate |].
    destruct (exn_is_Exception e0) eqn:E; [discriminate |].
    intros H; inversion H; subst. exact E.
  - reflexivity.
  - intros * Htmp Hread Hto Hbody Hclean. unfold process.
    eapply process_runs_try_block; eassumption.
  - intros * Htmp Hread Hto Hbody Hclean. unfold process.
    erewrite process_after_normalisation by eassumption.
    unfold mtry_finally, mtry_except. rewrite Hbody.
    destruct o as [d | e0].
    + rewrite Hclean. reflexivity.
    + destruct (exn_is_Exception e0); unfold mret; rewrite Hclean;
        reflexivity.
  - intros * Htmp. unfold process, process_csv_and_generate.
    unfold mbind at 1. rewrite Htmp. reflexivity.
  - intros * Htmp Hread. unfold process, process_csv_and_generate.
    unfold mbind at 1. rewrite Htmp.
    unfold mbind at 1. rewrite Hread. reflexivity.
  - intros * Htmp Hread Hto. unfold process, process_csv_and_generate.
    unfold mbind at 1. rewrite Htmp.
    unfold mbind at 1. rewrite Hread.
    unfold mbind at 1. rewrite Hto. reflexivity.
Qed.

(** C1 as stated fails: an exception raised while the CSV is read, before
    the [try] block, reaches the caller of [process_csv_and_generate]. *)
Lemma C1_read_error_escapes :
  exists e,
    process_csv_and_generate no_extern fake_tmp missing_csv fake_to_csv
      fake_exists fake_unlink (fake_agent ping_pong_reply) fake_render
      (py "missing.csv") (py "static") tt = (Raise e, tt)
    /\ exn_class e = "FileNotFoundError"%string.
Proof. eexists. split; reflexivity. Qed.

(** C2: every record either orchestrator returns has [success] true
    exactly when the diagram source and the image are present and [error]
    is absent, [success] false exactly when they are absent and [error] is
    present, and empty [actors] and [activities] on failure. *)
Theorem C2_result_records_well_formed :
  forall (re_extern : bool -> pystr -> pystr -> outcome (option match_obj))
         (W dataframe : Type)
         (NamedTemporaryFile : M W pystr)
         (read_csv : pystr -> M W dataframe)
         (to_csv : dataframe -> pystr -> M W unit)
         (path_exists : pystr -> M W bool) (unlink : pystr -> M W unit)
         (agent_run : agent -> pystr -> M W response)
         (render : pystr -> pystr -> pystr -> M W pystr),
    (forall csv_path output_dir w d w',
        process_csv_and_generate re_extern NamedTemporaryFile read_csv
          to_csv path_exists unlink agent_run render
          csv_path output_dir w = (Ret d, w') ->
        well_formed_result d)
    /\ (forall plantuml_code message output_dir w d w',
          refine_plantuml_code re_extern agent_run render
            plantuml_code message output_dir w = (Ret d, w') ->
          well_formed_result d).
Proof.
  intros. split; intros * H.
  - apply process_result_shape in H.
    destruct H as [(c & p & ->) | (e & ->)];
      auto using success_result_well_formed, failure_result_well_formed.
  - apply refine_result_shape in H.
    destruct H as [(c & p & ->) | (e & ->)];
      auto using success_result_well_formed, failure_result_well_formed.
Qed.

Lemma C1_witness :
  process_csv_and_generate no_extern disk_tmp disk_read_csv disk_to_csv
    disk_exists disk_unlink failing_agent disk_render
    (py "cases.csv") (py "static") []
  = (Ret (failure_result (mkExn "RuntimeError" (py "model unavailable"))),
     [py "static/notes.txt"]).
Proof.
  refine (proj1 (proj2 (proj2 (proj2
            (@C1_failures_isolated_in_try_block no_extern disk unit
               disk_tmp disk_read_csv disk_to_csv disk_exists disk_unlink
               failing_agent disk_render))))
            (py "cases.csv") (py "static") [] (py "/tmp/tmpcases.csv") tt
            [py "/tmp/tmpcases.csv"] [py "/tmp/tmpcases.csv"]
            [py "/tmp/tmpcases.csv"]
            (Raise (mkExn "RuntimeError" (py "model unavailable")))
            [py "static/notes.txt"; py "/tmp/tmpcases.csv"]
            [py "static/notes.txt"] _ _ _ _ _); reflexivity.
Defined.

Lemma C2_witness :
  well_formed_result
    (success_result ping_pong (py "static/e2e_test_diagram.png")).
Proof.
  apply (proj2 (C2_result_records_well_formed no_extern fake_tmp
                  fake_read_csv fake_to_csv fake_exists fake_unlink
                  (fake_agent ping_pong_reply) fake_render)
           (py "A -> B: ping") (py "add a reply") (py "static") tt _ tt).
  vm_compute. reflexivity.
Defined.

(** What the extractor finds in the answer of scenario C. *)
Lemma extract_ping_pong re_extern :
  extract_from re_extern (PyStr ping_pong_reply) (Some (py "plantuml"))
  = Ret ping_pong.
Proof. vm_compute. reflexivity. Qed.

(** C9, as the code has it: when the refinement capability answers with the
    fenced block of the two lines [A -> B: ping] and [B -> A: pong] and the
    rendering succeeds, the record has [success] true, the two lines as
    activities, and no actors, no participant being declared. *)
Theorem C9_scenario_C_declares_no_actor :
  forall (re_extern : bool -> pystr -> pystr -> outcome (option match_obj))
         (W : Type)
         (agent_run : agent -> pystr -> M W response)
         (render : pystr -> pystr -> pystr -> M W pystr)
         plantuml_code message output_dir w resp w1 img w2,
    agent_run refiner (refine_prompt plantuml_code message) w
      = (Ret resp, w1) ->
    resp_content resp = Some (PyStr ping_pong_reply) ->
    render ping_pong output_dir (py "e2e_test_diagram") w1 = (Ret img, w2) ->
    exists d,
      refine_plantuml_code re_extern agent_run render
        plantuml_code message output_dir w = (Ret d, w2)
      /\ dict_get d "success" = Some (VBool true)
      /\ dict_get d "actors" = Some (VList [])
      /\ dict_get d "activities"
         = Some (VList [py "A -> B: ping"; py "B -> A: pong"]).
Proof.
  intros * Hrun Hcontent Hrender.
  exists (success_result ping_pong img).
  split; [| repeat split; vm_compute; reflexivity].
  unfold refine_plantuml_code, refinement_body, mtry_except, mbind, lift.
  rewrite Hrun. unfold get_content. rewrite Hcontent.
  rewrite extract_ping_pong, Hrender. reflexivity.
Qed.

Lemma C9_witness :
  exists d,
    refine_plantuml_code no_extern (fake_agent ping_pong_reply) fake_render
      (py "A -> B: ping") (py "add a reply") (py "static") tt = (Ret d, tt)
    /\ dict_get d "success" = Some (VBool true)
    /\ dict_get d "actors" = Some (VList [])
    /\ dict_get d "activities"
       = Some (VList [py "A -> B: ping"; py "B -> A: pong"]).
Proof.
  apply (C9_scenario_C_declares_no_actor no_extern
           (fake_agent ping_pong_reply) fake_render
           (py "A -> B: ping") (py "add a reply") (py "static") tt
           (resp := mkResponse (py "RunResponse")
                      (Some (PyStr ping_pong_reply)) (py "RunResponse"))
           (w1 := tt) (img := py "static/e2e_test_diagram.png"));
    reflexivity.
Defined.

(** C9 as stated fails: in scenario C the actors are not [A] and [B]. *)
Lemma C9_actors_not_inferred :
  exists d,
    refine_plantuml_code no_extern (fake_agent ping_pong_reply) fake_render
      (py "A -> B: ping") (py "add a reply") (py "static") tt = (Ret d, tt)
    /\ dict_get d "actors" <> Some (VList [py "A"; py "B"]).
Proof.
  eexists. split; [vm_compute; reflexivity |].
  vm_compute. discriminate.
Qed.

(** ** Participants *)

(** C10: the keywords are matched whatever their case, but the names are
    compared as they are written: a source that declares [User] and, with
    the keyword in capitals, [user] has both as participants. *)
Theorem C10_names_differing_in_case_are_distinct :
  _extract_actors_from_plantuml
    (py "participant User" ++ [LF] ++ py "PARTICIPANT user")
  = [py "User"; py "user"]
  /\ py "User" <> py "user".
Proof. split; [vm_compute; reflexivity | discriminate]. Qed.

(** ** Activities *)

Lemma no_linebreak_prefix_unique l1 l2 c1 c2 r1 r2 :
  no_linebreak l1 -> no_linebreak l2 ->
  is_linebreak c1 = true -> is_linebreak c2 = true ->
  l1 ++ c1 :: r1 = l2 ++ c2 :: r2 ->
  l1 = l2 /\ c1 = c2 /\ r1 = r2.
Proof.
  intros H1. revert l2. induction H1 as [| a l1 Ha _ IH]; intros l2 H2 Hc1 Hc2 H.
  - destruct l2 as [| b l2]; simpl in H.
    + inversion H; auto.
    + inversion H; subst. inversion H2; subst. congruence.
  - destruct l2 as [| b l2]; simpl in H.
    + inversion H; subst. congruence.
    + inversion H; subst. inversion H2; subst.
      destruct (IH l2) as (-> & -> & ->); auto.
Qed.

Lemma boundary_head rest b :
  boundary rest b -> exists c t, b = c :: t /\ is_linebreak c = true.
Proof.
  intros [| c Hc _].
  - exists CR, [LF]. split; reflexivity.
  - exists c, []. auto.
Qed.

Lemma no_linebreak_no_boundary l l' b rest :
  no_linebreak l -> boundary rest b -> l = l' ++ b ++ rest -> False.
Proof.
  intros Hl Hb ->. destruct (boundary_head Hb) as (c & t & -> & Hc).
  apply Forall_app in Hl. destruct Hl as [_ Hl]. inversion Hl; subst.
  congruence.
Qed.

(** A text has one division into lines. *)
Lemma lines_of_unique s ls1 :
  lines_of s ls1 -> forall ls2, lines_of s ls2 -> ls1 = ls2.
Proof.
  induction 1 as [| l Hne Hl | l b rest ls Hl Hb Hrest IH]; intros ls2 H2.
  - inversion H2 as [| l' Hne' Hl' | l' b' rest' ls' Hl' Hb' Hrest' Heq];
      subst; try reflexivity; try congruence.
    destruct (boundary_head Hb') as (c & t & -> & _).
    destruct l'; discriminate.
  - inversion H2 as [| l' Hne' Hl' | l' b' rest' ls' Hl' Hb' Hrest' Heq];
      subst; try reflexivity; try congruence.
    exfalso.
    eapply no_linebreak_no_boundary with (1 := Hl) (2 := Hb'). reflexivity.
  - destruct (boundary_head Hb) as (c & t & Eb & Hc).
    inversion H2 as [Heq | l' Hne' Hl' | l' b' rest' ls' Hl' Hb' Hrest' Heq].
    + subst b. destruct l; discriminate.
    + subst ls2 l'. exfalso.
      eapply no_linebreak_no_boundary with (1 := Hl') (2 := Hb). eauto.
    + destruct (boundary_head Hb') as (c' & t' & Eb' & Hc').
      subst ls2.
      assert (E : l ++ c :: (t ++ rest) = l' ++ c' :: (t' ++ rest')).
      { subst b b'. simpl in Heq. symmetry. exact Heq. }
      destruct (@no_linebreak_prefix_unique _ _ _ _ _ _ Hl Hl' Hc Hc' E)
        as (El & Ec & Ht).
      subst l' c'.
      f_equal. apply IH.
      destruct Hb as [| c0 Hc0 Hn0]; destruct Hb' as [| c1 Hc1 Hn1];
        inversion Eb; inversion Eb'; subst; simpl in Ht.
      * inversion Ht; subst. assumption.
      * exfalso. eapply Hn1; eauto.
      * exfalso. eapply Hn0; eauto.
      * subst. assumption.
Qed.

Lemma comprehension_filter_map (A B : Type) (p : A -> bool) (f : A -> B) l :
  flat_map (fun x => if p x then [f x] else []) l = map f (filter p l).
Proof.
  induction l as [| x l IH]; simpl; [reflexivity |].
  destruct (p x); simpl; rewrite IH; reflexivity.
Qed.

Lemma activities_filter_map src :
  _extract_activities_from_plantuml src
  = map strip (filter is_activity (splitlines src)).
Proof.
  exact (comprehension_filter_map is_activity strip (splitlines src)).
Qed.

(** C6: the activities are exactly the lines of the source that hold both
    an arrow [->] and a separator [:], each stripped of the white space
    around it, in the order of the source. *)
Theorem C6_activities_are_the_arrow_lines :
  forall src,
    exists ls,
      lines_of src ls
      /\ (forall ls', lines_of src ls' -> ls' = ls)
      /\ _extract_activities_from_plantuml src
         = map strip (filter is_activity ls)
      /\ Forall (fun a => trimmed a /\ is_activity a = true)
                (_extract_activities_from_plantuml src).
Proof.
  intros src. exists (splitlines src).
  pose proof (splitlines_lines src) as Hl.
  repeat split.
  - exact Hl.
  - intros ls' H. eapply lines_of_unique; eauto.
  - apply activities_filter_map.
  - rewrite activities_filter_map. apply Forall_forall.
    intros a Ha. apply in_map_iff in Ha. destruct Ha as (l & <- & Hin).
    apply filter_In in Hin. destruct Hin as [_ Hact].
    split; [apply strip_idem | rewrite is_activity_strip; exact Hact].
Qed.

(** ** The matcher *)

Section MatcherFacts.
Variable R : Type.
Variable ic : bool.

Lemma rmatch_Eps s g (k : pystr -> groups -> option R) :
  rmatch ic Eps s g k = k s g.
Proof. reflexivity. Qed.

Lemma rmatch_Lit c d s g (k : pystr -> groups -> option R) :
  rmatch ic (Lit c) (d :: s) g k = if lit_match ic c d then k s g else None.
Proof. reflexivity. Qed.

Lemma rmatch_Cat r1 r2 s g (k : pystr -> groups -> option R) :
  rmatch ic (Cat r1 r2) s g k
  = rmatch ic r1 s g (fun s' g' => rmatch ic r2 s' g' k).
Proof. reflexivity. Qed.

Lemma rmatch_Rep greedy lo hi r1 s g (k : pystr -> groups -> option R) :
  rmatch ic (Rep greedy lo hi r1) s g k
  = rep_loop (rmatch ic r1) greedy lo hi k (S (length s)) 0 s g.
Proof. reflexivity. Qed.

Lemma rmatch_Grp n r1 s g (k : pystr -> groups -> option R) :
  rmatch ic (Grp n r1) s g k
  = rmatch ic r1 s g
      (fun s' g' => k s' ((n, firstn (length s - length s') s) :: g')).
Proof. reflexivity. Qed.

Lemma rmatch_lits w rest s g (k : pystr -> groups -> option R) :
  rmatch ic (lits w rest) s g k =
  if lit_prefix ic w s then rmatch ic rest (skipn (length w) s) g k
  else None.
Proof.
  revert s. induction w as [| c w IH]; intros s; simpl; [reflexivity |].
  destruct s as [| d s]; [reflexivity |].
  destruct (lit_match ic c d); simpl; [apply IH | reflexivity].
Qed.

(** A greedy repeat of a set takes the whole run of characters of the set
    when what follows the repeat then matches. *)
Lemma rep_greedy_set neg items lo (k : pystr -> groups -> option R) res s g :
  (forall c t, s = c :: t -> cset_match ic neg items c = false) ->
  k s g = Some res ->
  forall ws fuel cnt,
    Forall (fun c => cset_match ic neg items c = true) ws ->
    length ws < fuel -> lo <= cnt + length ws ->
    rep_loop (rmatch ic (CSet neg items)) true lo None k fuel cnt (ws ++ s) g
    = Some res.
Proof.
  intros Hs Hk. induction ws as [| c ws IH]; intros fuel cnt Hws Hf Hlo.
  - destruct fuel as [| fuel]; [simpl in Hf; lia |].
    simpl. replace (lo <=? cnt) with true
      by (symmetry; apply Nat.leb_le; simpl in Hlo; lia).
    rewrite Hk. destruct s as [| d t]; [reflexivity |].
    rewrite (Hs d t eq_refl). reflexivity.
  - destruct fuel as [| fuel]; [simpl in Hf; lia |].
    inversion Hws as [| ? ? Hc Hws']; subst.
    cbn [rep_loop app rmatch below]. rewrite Hc.
    replace (length (ws ++ s) <? length (c :: ws ++ s)) with true
      by (symmetry; apply Nat.ltb_lt; simpl; lia).
    rewrite IH; [reflexivity | assumption | simpl in Hf; lia |].
    simpl in Hlo. lia.
Qed.

(** A lazy repeat of a set that holds every character stops at the first
    place where what follows the repeat matches. *)
Lemma rep_lazy_any neg items (k : pystr -> groups -> option R) res s g :
  (forall c, cset_match ic neg items c = true) ->
  k s g = Some res ->
  forall x fuel cnt,
    (forall j, j < length x -> k (skipn j (x ++ s)) g = None) ->
    length x < fuel ->
    rep_loop (rmatch ic (CSet neg items)) false 0 None k fuel cnt (x ++ s) g
    = Some res.
Proof.
  intros Hany Hk. induction x as [| c x IH]; intros fuel cnt Hx Hf.
  - destruct fuel as [| fuel]; [simpl in Hf; lia |].
    simpl. rewrite Hk. reflexivity.
  - destruct fuel as [| fuel]; [simpl in Hf; lia |].
    cbn [rep_loop app rmatch below Nat.leb].
    assert (H0 : k (c :: x ++ s) g = None)
      by (apply (Hx 0); simpl; lia).
    rewrite H0, Hany.
    replace (length (x ++ s) <? length (c :: x ++ s)) with true
      by (symmetry; apply Nat.ltb_lt; simpl; lia).
    cbn [orelse]. apply IH; [| simpl in Hf; lia].
    intros j Hj. apply (Hx (S j)). simpl. lia.
Qed.

Lemma reaches_step (k : pystr -> groups -> option R) c s res :
  reaches k s res -> reaches k (c :: s) res.
Proof.
  intros (x & s' & g' & -> & H). exists (c :: x), s', g'. auto.
Qed.

Lemma reaches_trans (k1 k2 : pystr -> groups -> option R) s res :
  reaches k1 s res ->
  (forall s' g', k1 s' g' = Some res -> reaches k2 s' res) ->
  reaches k2 s res.
Proof.
  intros (x & s' & g' & -> & H) Hk.
  destruct (Hk _ _ H) as (y & s'' & g'' & -> & H').
  exists (x ++ y), s'', g''. rewrite app_assoc. auto.
Qed.

Lemma rep_loop_reaches step greedy lo hi (k : pystr -> groups -> option R) res :
  (forall s g k', step s g k' = Some res -> reaches k' s res) ->
  forall fuel cnt s g,
    rep_loop step greedy lo hi k fuel cnt s g = Some res -> reaches k s res.
Proof.
  intros Hstep. induction fuel as [| fuel IH]; intros cnt s g; [discriminate |].
  cbn [rep_loop].
  set (more := if below cnt hi then _ else None).
  set (stop := if lo <=? cnt then k s g else None).
  assert (Hmore : more = Some res -> reaches k s res).
  { subst more. destruct (below cnt hi); [| discriminate].
    intros H. apply Hstep in H. eapply reaches_trans; [exact H |].
    intros s' g'. cbn beta. destruct (length s' <? length s); [| discriminate].
    apply IH. }
  assert (Hstop : stop = Some res -> reaches k s res).
  { subst stop. destruct (lo <=? cnt); [| discriminate].
    intros H. exists [], s, g. auto. }
  destruct greedy.
  - destruct more as [r0 |]; cbn [orelse]; auto.
  - destruct stop as [r0 |]; cbn [orelse]; auto.
Qed.

(** Whatever a pattern matches, what follows it is matched on a suffix of
    the text. *)
Lemma rmatch_reaches r :
  forall s g (k : pystr -> groups -> option R) res,
    rmatch ic r s g k = Some res -> reaches k s res.
Proof.
  induction r as [| c | | neg items | r1 IH1 r2 IH2 | r1 IH1 r2 IH2
                  | greedy lo hi r1 IH1 | n r1 IH1];
    intros s g k res; cbn [rmatch].
  - intros H. exists [], s, g. auto.
  - destruct s as [| d s]; [discriminate |].
    destruct (lit_match ic c d); [| discriminate].
    intros H. apply reaches_step. exists [], s, g. auto.
  - destruct s as [| d s]; [discriminate |].
    destruct (chr_eqb d LF); [discriminate |].
    intros H. apply reaches_step. exists [], s, g. auto.
  - destruct s as [| d s]; [discriminate |].
    destruct (cset_match ic neg items d); [| discriminate].
    intros H. apply reaches_step. exists [], s, g. auto.
  - intros H. apply IH1 in H. eapply reaches_trans; [exact H |].
    intros s' g'. apply IH2.
  - destruct (rmatch ic r1 s g k) eqn:E; cbn [orelse].
    + intros H; inversion H; subst. eapply IH1; eauto.
    + apply IH2.
  - apply rep_loop_reaches. intros s0 g0 k'. apply IH1.
  - intros H. apply IH1 in H. eapply reaches_trans; [exact H |].
    intros s' g' H'. exists [], s', ((n, firstn (length s - length s') s) :: g').
    auto.
Qed.

End MatcherFacts.

(** ** Compiling the pattern of a plain hint *)

Lemma plain_not_special c :
  plain c = true ->
  is_chr "\" c = false /\ is_chr "[" c = false /\ is_chr "(" c = false
  /\ is_chr ")" c = false /\ is_chr "|" c = false
  /\ one_of "*+?" c = false /\ is_chr "." c = false
  /\ one_of "{^$" c = false.
Proof.
  unfold plain, one_of, is_chr. cbn [list_ascii_of_string existsb].
  rewrite negb_true_iff, !orb_false_iff.
  intros (H1 & H2 & H3 & H4 & H5 & H6 & H7 & H8 & H9 & H10 & H11 & H12 & _).
  rewrite H1, H2, H3, H4, H5, H6, H7, H8, H9, H10, H11, H12.
  repeat split; reflexivity.
Qed.

Lemma parse_plain_char c s pos st :
  plain c = true ->
  parse (c :: s) pos st = parse s (pos + 1) (push st (Lit c)).
Proof.
  intros H. apply plain_not_special in H.
  destruct H as (H1 & H2 & H3 & H4 & H5 & H6 & H7 & H8).
  cbn [parse]. rewrite H1, H2, H3, H4, H5, H6, H7, H8. reflexivity.
Qed.

Lemma parse_plain h : forall s pos st,
  forallb plain h = true ->
  parse (h ++ s) pos st
  = parse s (pos + length h) (fold_left push (map Lit h) st).
Proof.
  induction h as [| c h IH]; intros s pos st Hh.
  - simpl. rewrite Nat.add_0_r. reflexivity.
  - simpl in Hh. apply andb_true_iff in Hh. destruct Hh as [Hc Hh].
    cbn [app map fold_left length]. rewrite parse_plain_char by exact Hc.
    rewrite IH by exact Hh. f_equal. lia.
Qed.

Lemma fold_push l : forall st,
  l <> [] ->
  fold_left push l st
  = mkPState (mkFrame (fr_open (ps_cur st)) (fr_group (ps_cur st))
                      (fr_alts (ps_cur st)) (rev l ++ fr_seq (ps_cur st)))
             (ps_stack st) (ps_groups st) LAtom.
Proof.
  induction l as [| r l IH]; intros st Hl; [congruence |].
  destruct l as [| r' l'].
  - reflexivity.
  - cbn [fold_left]. cbn [fold_left] in IH. rewrite IH by discriminate.
    cbn [push ps_cur fr_open fr_group fr_alts fr_seq ps_stack ps_groups].
    f_equal. f_equal. cbn [rev]. rewrite <- !app_assoc. reflexivity.
Qed.

Lemma mkseq_lits w items :
  mkseq (map Lit w ++ items) = lits w (mkseq items).
Proof.
  induction w as [| c w IH]; simpl; [reflexivity | rewrite IH; reflexivity].
Qed.

(** The pattern built from a hint of plain characters compiles to
    [hinted_regex]. *)
Lemma compile_hinted hint :
  forallb plain hint = true ->
  re_compile (py "```" ++ hint ++ py "\s*([\s\S]*?)```")
  = Compiled (lits (FENCE ++ hint)
                (Cat (Rep true 0 None (CSet false [CSpace]))
                   (Cat (Grp 1 (Cat (Rep false 0 None
                                       (CSet false [CSpace; CNotSpace])) Eps))
                      (Cat (Lit "`") (Cat (Lit "`") (Cat (Lit "`") Eps)))))).
Proof.
  intros Hh. unfold re_compile.
  rewrite app_assoc. rewrite parse_plain.
  2: { rewrite forallb_app, Hh. reflexivity. }
  rewrite fold_push by (destruct hint; discriminate).
  cbn -[rev map FENCE lits]. f_equal.
  unfold close_frame. cbn -[map FENCE lits].
  rewrite !rev_app_distr, rev_involutive. cbn -[map FENCE lits].
  rewrite <- !app_assoc.
  change (py "```") with FENCE.
  rewrite (mkseq_lits (FENCE ++ hint)). reflexivity.
Qed.

(** ** Searching *)

Lemma search_from_here ic r pos s len g :
  match_here ic r s = Some (len, g) ->
  search_from ic r pos s = Some (mkMatch pos (pos + len) g (count_groups r)).
Proof. intros H. destruct s; simpl; rewrite H; reflexivity. Qed.

Lemma search_from_skip ic r : forall n s pos,
  (forall i, i < n -> match_here ic r (skipn i s) = None) ->
  n <= length s ->
  search_from ic r pos s = search_from ic r (pos + n) (skipn n s).
Proof.
  induction n as [| n IH]; intros s pos Hn Hlen.
  - rewrite Nat.add_0_r. reflexivity.
  - destruct s as [| c s]; [simpl in Hlen; lia |].
    pose proof (Hn 0 ltac:(lia)) as H0. cbn [skipn] in H0.
    cbn [search_from]. rewrite H0.
    rewrite (IH s (S pos)).
    + cbn [skipn]. f_equal. lia.
    + intros i Hi. apply (Hn (S i)). lia.
    + simpl in Hlen. lia.
Qed.

Lemma search_from_none ic r : forall s pos,
  (forall i, i <= length s -> match_here ic r (skipn i s) = None) ->
  search_from ic r pos s = None.
Proof.
  induction s as [| c s IH]; intros pos H.
  - pose proof (H 0 ltac:(simpl; lia)) as H0. cbn [skipn] in H0.
    simpl. rewrite H0. reflexivity.
  - pose proof (H 0 ltac:(simpl; lia)) as H0. cbn [skipn] in H0.
    cbn [search_from]. rewrite H0.
    apply IH. intros i Hi. apply (H (S i)). simpl. lia.
Qed.

(** ** Literal prefixes *)

Lemma lower_backtick d : lit_match true "`" d = chr_eqb "`" d.
Proof. destruct d as [[] [] [] [] [] [] [] []]; reflexivity. Qed.

Lemma lit_match_backtick ic d : lit_match ic "`" d = chr_eqb "`" d.
Proof. destruct ic; [apply lower_backtick | reflexivity]. Qed.

Lemma lit_prefix_fence ic s : lit_prefix ic FENCE s = startswith FENCE s.
Proof.
  unfold FENCE. cbn [py list_ascii_of_string lit_prefix startswith].
  destruct s as [| d1 [| d2 [| d3 s]]]; cbn [lit_prefix startswith];
    rewrite ?lit_match_backtick; reflexivity.
Qed.

Lemma lit_prefix_app ic w1 w2 s :
  lit_prefix ic (w1 ++ w2) s
  = lit_prefix ic w1 s && lit_prefix ic w2 (skipn (length w1) s).
Proof.
  revert s. induction w1 as [| c w1 IH]; intros s; simpl; [reflexivity |].
  destruct s as [| d s]; [reflexivity |].
  rewrite IH, andb_assoc. reflexivity.
Qed.

Lemma lit_prefix_ci w s :
  lit_prefix true w s = true <->
  exists w' rest, s = w' ++ rest /\ same_ci w' w.
Proof.
  unfold same_ci. revert s. induction w as [| c w IH]; intros s; simpl.
  - split; [intros _; exists [], s; auto | auto].
  - destruct s as [| d s].
    + split; [discriminate |]. intros (w' & rest & H & E).
      destruct w'; discriminate.
    + rewrite andb_true_iff, IH. unfold lit_match. rewrite chr_eqb_eq. split.
      * intros [E (w' & rest & -> & E')]. exists (d :: w'), rest.
        simpl. split; congruence.
      * intros (w' & rest & H & E). destruct w' as [| d' w']; [discriminate |].
        simpl in H, E. inversion H; subst. inversion E. eauto.
Qed.

Lemma same_ci_length a b : same_ci a b -> length a = length b.
Proof.
  unfold same_ci. intros H. apply (f_equal (@length ascii)) in H.
  rewrite !length_map in H. exact H.
Qed.

Lemma skipn_app_exact (A : Type) (a b : list A) :
  skipn (length a) (a ++ b) = b.
Proof. induction a; simpl; auto. Qed.

(** [opens_block] is what the literal front of the hinted pattern tests. *)
Lemma lit_prefix_opens hint s :
  lit_prefix true (FENCE ++ hint) s = true <-> opens_block hint s.
Proof.
  unfold opens_block. rewrite lit_prefix_app, andb_true_iff.
  rewrite lit_prefix_fence, startswith_iff, lit_prefix_ci. split.
  - intros [[b ->] (w' & rest & H & E)].
    rewrite skipn_app_exact in H. subst b. eauto.
  - intros (label & rest & -> & E). split; [eauto |].
    rewrite skipn_app_exact. eauto.
Qed.

(** ** The tail of the fence patterns *)

Lemma firstn_app_exact (A : Type) (a b : list A) :
  firstn (length (a ++ b) - length b) (a ++ b) = a.
Proof.
  rewrite length_app. replace (length a + length b - length b) with (length a)
    by lia.
  rewrite firstn_app, Nat.sub_diag, firstn_all. simpl. apply app_nil_r.
Qed.

Lemma skipn_app_plus (A : Type) (a b : list A) j :
  skipn (length a + j) (a ++ b) = skipn j b.
Proof. induction a; simpl; auto. Qed.

(** After the opening fence and the label, the pattern passes the white
    space, takes as group 1 the text up to the first closing fence, and
    passes that fence. *)
Lemma tail_match (R : Type) ic body post g
  (kf : pystr -> groups -> option R) res :
  closes_first body post ->
  kf post ((1, lstrip body) :: g) = Some res ->
  rmatch ic hinted_tail (body ++ FENCE ++ post) g kf = Some res.
Proof.
  intros Hclose Hkf.
  destruct (dropwhile_split is_space body) as (ws & Hb & Hws).
  fold (lstrip body) in Hb. set (x := lstrip body) in *.
  unfold hinted_tail. rewrite rmatch_Cat, rmatch_Rep.
  rewrite Hb, <- app_assoc.
  apply rep_greedy_set.
  - intros c t E. unfold cset_match. cbn. rewrite orb_false_r.
    destruct x as [| c0 x0] eqn:Ex.
    + inversion E. reflexivity.
    + inversion E; subst. subst x. eapply dropwhile_head. exact Ex.
  - rewrite rmatch_Cat, rmatch_Grp, rmatch_Cat, rmatch_Rep.
    apply rep_lazy_any.
    + intros c. unfold cset_match. cbn. destruct (is_space c); reflexivity.
    + rewrite rmatch_Eps, rmatch_lits, lit_prefix_fence, startswith_app.
      rewrite skipn_app_exact, rmatch_Eps.
      rewrite firstn_app_exact. exact Hkf.
    + intros j Hj. rewrite rmatch_Eps, rmatch_lits, lit_prefix_fence.
      rewrite <- (skipn_app_plus ws), app_assoc, <- Hb.
      rewrite Hclose; [reflexivity |].
      rewrite Hb, length_app. lia.
    + rewrite length_app. lia.
  - eapply Forall_impl; [| exact Hws].
    intros c Hc. unfold cset_match. cbn. rewrite Hc. reflexivity.
  - rewrite length_app. lia.
  - lia.
Qed.

Lemma count_groups_lits w r : count_groups (lits w r) = count_groups r.
Proof. induction w; simpl; auto. Qed.

(** At a fence that names the hint, with a closing fence after it, the
    hinted pattern matches, and group 1 is the text between the label and
    the first closing fence, less the white space at its front. *)
Lemma match_hinted_here hint label body post :
  same_ci label hint ->
  closes_first body post ->
  exists len,
    match_here true (hinted_regex hint)
      (FENCE ++ label ++ body ++ FENCE ++ post)
    = Some (len, [(1, lstrip body)]).
Proof.
  intros Hci Hclose. eexists.
  unfold match_here, hinted_regex.
  rewrite rmatch_lits.
  replace (lit_prefix true (FENCE ++ hint)
             (FENCE ++ label ++ body ++ FENCE ++ post)) with true.
  2: { symmetry. apply lit_prefix_opens. exists label. eauto. }
  rewrite length_app, <- (same_ci_length Hci), <- length_app.
  rewrite (app_assoc FENCE label), skipn_app_exact.
  apply tail_match; [exact Hclose | reflexivity].
Qed.

(** ** The extractor *)

Lemma strip_lstrip s : strip (lstrip s) = strip s.
Proof. unfold strip, lstrip. rewrite dropwhile_idem. reflexivity. Qed.

Lemma compile_hinted_regex hint :
  forallb plain hint = true ->
  re_compile (py "```" ++ hint ++ py "\s*([\s\S]*?)```")
  = Compiled (hinted_regex hint).
Proof. exact (@compile_hinted hint). Qed.

Lemma match_hinted_none hint s :
  ~ opens_block hint s -> match_here true (hinted_regex hint) s = None.
Proof.
  intros H. unfold match_here, hinted_regex. rewrite rmatch_lits.
  destruct (lit_prefix true (FENCE ++ hint) s) eqn:E; [| reflexivity].
  apply lit_prefix_opens in E. contradiction.
Qed.

(** The search of the hinted pattern stops at the first fence that names
    the hint. *)
Lemma search_hinted hint pre label body post :
  same_ci label hint ->
  (forall i, i < length pre ->
     ~ opens_block hint
         (skipn i (pre ++ FENCE ++ label ++ body ++ FENCE ++ post))) ->
  closes_first body post ->
  exists len,
    re_search true (hinted_regex hint)
      (pre ++ FENCE ++ label ++ body ++ FENCE ++ post)
    = Some (mkMatch (length pre) (length pre + len) [(1, lstrip body)] 1).
Proof.
  intros Hci Hpre Hclose.
  destruct (@match_hinted_here hint label body post Hci Hclose)
    as [len Hlen].
  exists len. unfold re_search.
  rewrite (@search_from_skip true _ (length pre)).
  - rewrite skipn_app_exact.
    rewrite (@search_from_here true _ (0 + length pre) _ _ _ Hlen).
    unfold hinted_regex. rewrite count_groups_lits. reflexivity.
  - intros i Hi. apply match_hinted_none. auto.
  - rewrite length_app. lia.
Qed.

(** The extractor returns the stripped content of the first fence that
    names a hint of plain characters. *)
Lemma extract_first_hinted_block
  (re_extern : bool -> pystr -> pystr -> outcome (option match_obj))
  hint text pre label body post :
  hint <> [] ->
  forallb plain hint = true ->
  text = pre ++ FENCE ++ label ++ body ++ FENCE ++ post ->
  same_ci label hint ->
  (forall i, i < length pre -> ~ opens_block hint (skipn i text)) ->
  closes_first body post ->
  _extract_code_block re_extern text (Some hint) = Ret (strip body).
Proof.
  intros Hne Hplain -> Hci Hpre Hcl.
  destruct hint as [| c h]; [congruence |].
  unfold _extract_code_block, py_re_search.
  rewrite compile_hinted_regex by exact Hplain.
  destruct (@search_hinted _ pre label body post Hci Hpre Hcl) as [len ->].
  cbn. rewrite strip_lstrip. reflexivity.
Qed.

(** C3, as the code has it, for a hint of plain characters: the extractor
    returns the stripped content of the first fence whose text begins with
    the hint, in whatever case, up to the first closing fence after it. *)
Theorem C3_first_hinted_block :
  forall (re_extern : bool -> pystr -> pystr -> outcome (option match_obj))
         hint text pre label body post,
    hint <> [] ->
    forallb plain hint = true ->
    text = pre ++ FENCE ++ label ++ body ++ FENCE ++ post ->
    same_ci label hint ->
    (forall i, i < length pre -> ~ opens_block hint (skipn i text)) ->
    closes_first body post ->
    _extract_code_block re_extern text (Some hint) = Ret (strip body).
Proof.
  intros. eapply extract_first_hinted_block; eassumption.
Qed.

Lemma C3_witness :
  _extract_code_block no_extern
    (py "Here it is: ```PlantUML" ++ [LF] ++ py "A -> B: hi" ++ [LF]
        ++ py "``` done")
    (Some (py "plantuml"))
  = Ret (py "A -> B: hi").
Proof.
  apply (@C3_first_hinted_block no_extern
           (py "plantuml") _ (py "Here it is: ") (py "PlantUML")
           ([LF] ++ py "A -> B: hi" ++ [LF]) (py " done")).
  - discriminate.
  - reflexivity.
  - reflexivity.
  - reflexivity.
  - intros i Hi H. apply lit_prefix_opens in H.
    do 12 (destruct i as [| i]; [discriminate H |]).
    simpl in Hi. lia.
  - intros j Hj.
    do 12 (destruct j as [| j]; [reflexivity |]).
    simpl in Hj. lia.
Defined.

(** C3 as stated fails: the text holds a block whose fence names the hint,
    with content [B], but an earlier fence whose label only begins with
    the hint is the one extracted. *)
Lemma C3_later_block_not_returned :
  let text := py "```plantumlx" ++ [LF] ++ py "A```" ++ [LF]
              ++ py "```plantuml" ++ [LF] ++ py "B```" in
  text = (py "```plantumlx" ++ [LF] ++ py "A```" ++ [LF])
         ++ FENCE ++ py "plantuml" ++ ([LF] ++ py "B") ++ FENCE ++ []
  /\ _extract_code_block no_extern text (Some (py "plantuml"))
     = Ret (py "x" ++ [LF] ++ py "A")
  /\ py "x" ++ [LF] ++ py "A" <> strip ([LF] ++ py "B").
Proof.
  cbv zeta. split; [reflexivity |].
  split; [vm_compute; reflexivity | vm_compute; discriminate].
Qed.

(** *** The fallback *)

Lemma fenced_any_compiles : pattern_of FENCED_ANY = fenced_any_regex.
Proof. reflexivity. Qed.

(** The optional label takes the whole run of word characters. *)
Lemma optional_label_match (R : Type) ic label s g
  (k : pystr -> groups -> option R) res :
  Forall (fun c => is_word c = true) label ->
  (forall c t, s = c :: t -> is_word c = false) ->
  k s g = Some res ->
  rmatch ic optional_label (label ++ s) g k = Some res.
Proof.
  intros Hlabel Hs Hk.
  assert (Hset : forall c t, s = c :: t ->
                             cset_match ic false [CWord] c = false).
  { intros c t E. unfold cset_match. cbn. rewrite (Hs c t E). reflexivity. }
  unfold optional_label. rewrite rmatch_Rep.
  cbn [rep_loop below Nat.ltb Nat.leb]. cbn [Nat.leb].
  rewrite rmatch_Cat, rmatch_Rep.
  destruct label as [| c label].
  - cbn [app]. cbn [rep_loop below]. rewrite Hk.
    destruct s as [| d t]; cbn [rmatch Nat.leb orelse]; [reflexivity |].
    rewrite (Hset d t eq_refl). reflexivity.
  - erewrite rep_greedy_set; [reflexivity | exact Hset | | | | ].
    + rewrite rmatch_Eps.
      cbn [app length rep_loop below Nat.ltb Nat.leb orelse].
      match goal with
      | |- (if ?b then _ else _) = _ => replace b with true; [exact Hk |]
      end.
      symmetry. apply Nat.leb_le. rewrite length_app. lia.
    + eapply Forall_impl; [| exact Hlabel].
      intros d Hd. unfold cset_match. cbn. rewrite Hd. reflexivity.
    + rewrite length_app. lia.
    + simpl. lia.
Qed.

Lemma match_any_here label body post :
  Forall (fun c => is_word c = true) label ->
  (forall c t, body = c :: t -> is_word c = false) ->
  closes_first body post ->
  exists len,
    match_here false fenced_any_regex
      (FENCE ++ label ++ body ++ FENCE ++ post)
    = Some (len, [(1, lstrip body)]).
Proof.
  intros Hlabel Hbody Hclose. eexists.
  unfold match_here, fenced_any_regex.
  rewrite rmatch_lits, lit_prefix_fence, startswith_app, skipn_app_exact.
  rewrite rmatch_Cat. apply optional_label_match; [exact Hlabel | |].
  - intros c t E. destruct body as [| c0 body0].
    + inversion E. reflexivity.
    + inversion E; subst. eapply Hbody. reflexivity.
  - apply tail_match; [exact Hclose | reflexivity].
Qed.

(** A match of the tail passes a fence and sets group 1. *)
Lemma tail_match_inv (R : Type) ic s g (kf : pystr -> groups -> option R) res :
  rmatch ic hinted_tail s g kf = Some res ->
  exists x t v g', s = x ++ FENCE ++ t /\ kf t ((1, v) :: g') = Some res.
Proof.
  unfold hinted_tail. rewrite rmatch_Cat. intros H.
  apply rmatch_reaches in H. destruct H as (x1 & s1 & g1 & -> & H).
  rewrite rmatch_Cat, rmatch_Grp in H.
  apply rmatch_reaches in H. destruct H as (x2 & s2 & g2 & E2 & H).
  rewrite rmatch_lits, lit_prefix_fence in H.
  destruct (startswith FENCE s2) eqn:E; [| discriminate].
  apply startswith_iff in E. destruct E as [t ->].
  rewrite skipn_app_exact, rmatch_Eps in H.
  exists (x1 ++ x2), t. do 2 eexists. split; [| exact H].
  rewrite E2, <- app_assoc. reflexivity.
Qed.

Lemma match_hinted_inv hint s len g :
  match_here true (hinted_regex hint) s = Some (len, g) ->
  (exists label b,
      s = FENCE ++ label ++ b /\ same_ci label hint
      /\ contains FENCE b = true)
  /\ exists v, group_of g 1 = Some v.
Proof.
  unfold match_here, hinted_regex. rewrite rmatch_lits.
  destruct (lit_prefix true (FENCE ++ hint) s) eqn:E; [| discriminate].
  apply lit_prefix_opens in E. destruct E as (label & rest & -> & Hci).
  rewrite length_app, <- (same_ci_length Hci), <- length_app.
  rewrite (app_assoc FENCE label), skipn_app_exact.
  intros H. apply tail_match_inv in H.
  destruct H as (x & t & v & g' & -> & H). inversion H; subst. split.
  - exists label, (x ++ FENCE ++ t). repeat split; auto.
    apply contains_iff. eauto.
  - exists v. reflexivity.
Qed.

Lemma match_any_inv s len g :
  match_here false fenced_any_regex s = Some (len, g) ->
  (exists m b, s = FENCE ++ m ++ FENCE ++ b)
  /\ exists v, group_of g 1 = Some v.
Proof.
  unfold match_here, fenced_any_regex. rewrite rmatch_lits, lit_prefix_fence.
  destruct (startswith FENCE s) eqn:E; [| discriminate].
  apply startswith_iff in E. destruct E as [rest ->].
  rewrite skipn_app_exact, rmatch_Cat. intros H.
  apply rmatch_reaches in H. destruct H as (x1 & s1 & g1 & -> & H).
  apply tail_match_inv in H.
  destruct H as (x & t & v & g' & -> & H). inversion H; subst. split.
  - exists (x1 ++ x), t. rewrite <- !app_assoc. reflexivity.
  - exists v. reflexivity.
Qed.

Lemma skipn_split (A : Type) i (l : list A) : l = firstn i l ++ skipn i l.
Proof. symmetry. apply firstn_skipn. Qed.

(** Without a fenced block that names the hint, the hinted search finds
    nothing. *)
Lemma search_hinted_none hint text :
  no_hinted_block hint text ->
  re_search true (hinted_regex hint) text = None.
Proof.
  intros Hno. apply search_from_none. intros i _.
  destruct (match_here true (hinted_regex hint) (skipn i text))
    as [[len g] |] eqn:E; [| reflexivity].
  apply match_hinted_inv in E.
  destruct E as [(label & b & Hs & Hci & Hb) _].
  rewrite (Hno (firstn i text) label b) in Hb; [discriminate | | exact Hci].
  rewrite <- Hs. apply skipn_split.
Qed.

Lemma search_any_none text :
  no_fenced_block text -> re_search false fenced_any_regex text = None.
Proof.
  intros Hno. apply search_from_none. intros i _.
  destruct (match_here false fenced_any_regex (skipn i text))
    as [[len g] |] eqn:E; [| reflexivity].
  apply match_any_inv in E. destruct E as [(m & b & Hs) _].
  exfalso. apply (Hno (firstn i text) m b).
  rewrite <- Hs. apply skipn_split.
Qed.

Lemma search_any pre label body post :
  (forall i, i < length pre ->
     startswith FENCE
       (skipn i (pre ++ FENCE ++ label ++ body ++ FENCE ++ post)) = false) ->
  Forall (fun c => is_word c = true) label ->
  (forall c t, body = c :: t -> is_word c = false) ->
  closes_first body post ->
  exists len,
    re_search false fenced_any_regex
      (pre ++ FENCE ++ label ++ body ++ FENCE ++ post)
    = Some (mkMatch (length pre) (length pre + len) [(1, lstrip body)] 1).
Proof.
  intros Hpre Hlabel Hbody Hclose.
  destruct (@match_any_here label body post Hlabel Hbody Hclose)
    as [len Hlen].
  exists len. unfold re_search.
  rewrite (@search_from_skip false _ (length pre)).
  - rewrite skipn_app_exact.
    rewrite (@search_from_here false _ (0 + length pre) _ _ _ Hlen).
    reflexivity.
  - intros i Hi. unfold match_here, fenced_any_regex.
    rewrite rmatch_lits, lit_prefix_fence, Hpre by exact Hi. reflexivity.
  - rewrite length_app. lia.
Qed.

(** With nothing for the hinted search to find, the extractor is its
    fallback. *)
Lemma extract_fallback re_extern text lang_hint :
  nothing_hinted lang_hint text ->
  _extract_code_block re_extern text lang_hint =
  match re_search false fenced_any_regex text with
  | Some m => bind (group m 1) strip_method
  | None => Ret (strip text)
  end.
Proof.
  intros H. unfold _extract_code_block.
  destruct lang_hint as [[| c h] |]; try reflexivity.
  destruct H as [Hplain Hno].
  unfold py_re_search. rewrite compile_hinted_regex by exact Hplain.
  rewrite (search_hinted_none Hno). reflexivity.
Qed.

(** C4, as the code has it: when no hint is given, or the hint is of
    plain characters and no fence followed by the hint, in whatever case,
    is closed by a later fence, the extractor returns, stripped, what
    stands between the run of word characters after the first fence and
    the first closing fence, and the stripped text itself when the text
    holds no two fences. *)
Theorem C4_fallback_to_any_block_or_text :
  forall (re_extern : bool -> pystr -> pystr -> outcome (option match_obj))
         text lang_hint,
    nothing_hinted lang_hint text ->
    (forall pre label body post,
        text = pre ++ FENCE ++ label ++ body ++ FENCE ++ post ->
        (forall i, i < length pre ->
                   startswith FENCE (skipn i text) = false) ->
        Forall (fun c => is_word c = true) label ->
        (forall c t, body = c :: t -> is_word c = false) ->
        closes_first body post ->
        _extract_code_block re_extern text lang_hint = Ret (strip body))
    /\ (no_fenced_block text ->
        _extract_code_block re_extern text lang_hint = Ret (strip text)).
Proof.
  intros re_extern text lang_hint Hhint. split.
  - intros pre label body post -> Hpre Hlabel Hbody Hclose.
    rewrite extract_fallback by exact Hhint.
    destruct (@search_any pre label body post Hpre Hlabel Hbody Hclose)
      as [len ->].
    cbn. rewrite strip_lstrip. reflexivity.
  - intros Hno. rewrite extract_fallback by exact Hhint.
    rewrite (search_any_none Hno). reflexivity.
Qed.

(** A test that decides [no_hinted_block] on a given text. *)
Lemma no_hinted_block_check hint text :
  forallb
    (fun i =>
       negb (lit_prefix true (FENCE ++ hint) (skipn i text)
             && contains FENCE (skipn (i + length (FENCE ++ hint)) text)))
    (seq 0 (S (length text))) = true ->
  no_hinted_block hint text.
Proof.
  intros H a label b -> Hci.
  rewrite forallb_forall in H. specialize (H (length a)).
  rewrite skipn_app_exact in H.
  replace (lit_prefix true (FENCE ++ hint) (FENCE ++ label ++ b)) with true
    in H by (symmetry; apply lit_prefix_opens; exists label; eauto).
  rewrite skipn_app_plus in H.
  replace (length (FENCE ++ hint)) with (length (FENCE ++ label)) in H
    by (rewrite !length_app, (same_ci_length Hci); reflexivity).
  rewrite (app_assoc FENCE label), skipn_app_exact in H.
  destruct (contains FENCE b); [| reflexivity].
  discriminate H. apply in_seq. rewrite length_app. lia.
Qed.

Lemma no_fence_no_block text :
  contains FENCE text = false -> no_fenced_block text.
Proof.
  intros H a m b E.
  assert (contains FENCE text = true) by (apply contains_iff; eauto).
  congruence.
Qed.

Lemma C4_witness :
  _extract_code_block no_extern
    (py "see ```python" ++ [LF] ++ py "print(1)" ++ [LF] ++ py "``` ok")
    (Some (py "plantuml"))
  = Ret (py "print(1)")
  /\ _extract_code_block no_extern (py "  no diagram, sorry ")
       (Some (py "plantuml"))
     = Ret (py "no diagram, sorry").
Proof.
  split.
  - refine (proj1 (@C4_fallback_to_any_block_or_text no_extern _
                     (Some (py "plantuml")) _)
              (py "see ") (py "python") ([LF] ++ py "print(1)" ++ [LF])
              (py " ok") eq_refl _ _ _ _).
    + split; [reflexivity |].
      apply no_hinted_block_check. vm_compute. reflexivity.
    + intros i Hi. do 4 (destruct i as [| i]; [reflexivity |]).
      simpl in Hi. lia.
    + repeat constructor.
    + intros c t E. inversion E. reflexivity.
    + intros j Hj. do 10 (destruct j as [| j]; [reflexivity |]).
      simpl in Hj. lia.
  - refine (proj2 (@C4_fallback_to_any_block_or_text no_extern
                     (py "  no diagram, sorry ")
                     (Some (py "plantuml")) _) _).
    + split; [reflexivity |].
      apply no_hinted_block_check. vm_compute. reflexivity.
    + apply no_fence_no_block. vm_compute. reflexivity.
Defined.

(** C4 as stated fails: what the fallback passes after the opening fence
    is a run of word characters, not the label of the block.  The text is
    one block labelled [c++] that holds [A], and no block names
    [plantuml]; what is returned is [++], a line feed and [A], with or
    without the hint. *)
Lemma C4_label_kept_beyond_word_characters :
  no_hinted_block (py "plantuml")
    (FENCE ++ py "c++" ++ [LF] ++ py "A" ++ FENCE)
  /\ _extract_code_block no_extern
       (FENCE ++ py "c++" ++ [LF] ++ py "A" ++ FENCE) (Some (py "plantuml"))
     = Ret (py "++" ++ [LF] ++ py "A")
  /\ _extract_code_block no_extern
       (FENCE ++ py "c++" ++ [LF] ++ py "A" ++ FENCE) None
     = Ret (py "++" ++ [LF] ++ py "A")
  /\ py "++" ++ [LF] ++ py "A" <> py "A".
Proof.
  split; [apply no_hinted_block_check; vm_compute; reflexivity |].
  split; [vm_compute; reflexivity |].
  split; [vm_compute; reflexivity | discriminate].
Qed.

(** C7 fails on a hint that is not a pattern: the hint is made part of the
    pattern as it is, and [re.search] raises [re.error]. *)
Theorem C7_hint_with_parenthesis_raises :
  forall (re_extern : bool -> pystr -> pystr -> outcome (option match_obj))
         text,
    _extract_code_block re_extern text (Some (py "("))
    = Raise (mkExn "re.error"
               (py "missing ), unterminated subpattern at position 3")).
Proof. intros. reflexivity. Qed.

(** With nothing odd in the hint the extractor never raises: it returns a
    string for every text, when no hint is given or the hint is made of
    plain characters. *)
Lemma extract_total_on_plain_hints re_extern text lang_hint :
  match lang_hint with
  | Some hint => forallb plain hint = true
  | None => True
  end ->
  exists r, _extract_code_block re_extern text lang_hint = Ret r.
Proof.
  intros Hhint.
  assert (Hany : exists r,
             match re_search false fenced_any_regex text with
             | Some m => bind (group m 1) strip_method
             | None => Ret (strip text)
             end = Ret r).
  { destruct (re_search false fenced_any_regex text) as [m |] eqn:E;
      [| eauto].
    unfold re_search in E.
    assert (G : forall s pos,
               search_from false fenced_any_regex pos s = Some m ->
               m_ngroups m = 1 /\ exists v, group_of (m_groups m) 1 = Some v).
    { induction s as [| c s IH]; intros pos; cbn [search_from];
        destruct (match_here false fenced_any_regex _) as [[len g] |] eqn:Em;
        try discriminate; try (intros H; inversion H; subst; cbn;
          split; [reflexivity | eapply match_any_inv; eauto]).
      apply IH. }
    destruct (G _ _ E) as [Hn [v Hv]].
    unfold group. rewrite Hn. cbn. rewrite Hv. cbn. eauto. }
  unfold _extract_code_block.
  destruct lang_hint as [[| c h] |]; try exact Hany.
  unfold py_re_search. rewrite compile_hinted_regex by exact Hhint.
  cbn [bind].
  destruct (re_search true (hinted_regex (c :: h)) text) as [m |] eqn:E;
    [| exact Hany].
  unfold re_search in E.
  assert (G : forall s pos,
             search_from true (hinted_regex (c :: h)) pos s = Some m ->
             m_ngroups m = 1 /\ exists v, group_of (m_groups m) 1 = Some v).
  { induction s as [| d s IH]; intros pos; cbn [search_from];
      destruct (match_here true (hinted_regex (c :: h)) _)
        as [[len g] |] eqn:Em;
      try discriminate; try (intros H; inversion H; subst;
        cbn [m_ngroups m_groups]; split;
        [unfold hinted_regex; rewrite count_groups_lits; reflexivity
        | eapply match_hinted_inv; eauto]).
    apply IH. }
  destruct (G _ _ E) as [Hn [v Hv]].
  unfold group. rewrite Hn. cbn. rewrite Hv. cbn. eauto.
Qed.

(** ** Sorted sets of strings *)

Lemma code_inj c d : code c = code d -> c = d.
Proof.
  unfold code. intros H.
  rewrite <- (ascii_nat_embedding c), <- (ascii_nat_embedding d), H.
  reflexivity.
Qed.

Lemma str_eqb_eq a b : str_eqb a b = true <-> a = b.
Proof.
  revert b. induction a as [| c a IH]; intros [| d b]; simpl;
    try (split; [discriminate | discriminate]); [split; auto |].
  rewrite andb_true_iff, chr_eqb_eq, IH. split.
  - intros [-> ->]. reflexivity.
  - intros H. inversion H. auto.
Qed.

Lemma str_ltb_irrefl a : str_ltb a a = false.
Proof.
  induction a as [| c a IH]; simpl; [reflexivity |].
  rewrite Nat.ltb_irrefl, Nat.eqb_refl. exact IH.
Qed.

Lemma str_ltb_trans a : forall b c,
  str_ltb a b = true -> str_ltb b c = true -> str_ltb a c = true.
Proof.
  induction a as [| x a IH]; intros [| y b] [| z c]; simpl;
    try discriminate; auto.
  destruct (code x <? code y) eqn:Exy.
  - intros _. apply Nat.ltb_lt in Exy.
    destruct (code y <? code z) eqn:Eyz.
    + intros _. apply Nat.ltb_lt in Eyz.
      replace (code x <? code z) with true
        by (symmetry; apply Nat.ltb_lt; lia). reflexivity.
    + destruct (code y =? code z) eqn:E; [| discriminate].
      apply Nat.eqb_eq in E. intros _.
      replace (code x <? code z) with true
        by (symmetry; apply Nat.ltb_lt; lia). reflexivity.
  - destruct (code x =? code y) eqn:E; [| discriminate].
    apply Nat.eqb_eq in E. rewrite <- E.
    destruct (code x <? code z); [reflexivity |].
    destruct (code x =? code z); [| discriminate].
    apply IH.
Qed.

Lemma str_ltb_total a : forall b,
  str_ltb a b = false -> str_eqb a b = false -> str_ltb b a = true.
Proof.
  induction a as [| x a IH]; intros [| y b]; simpl; try discriminate; auto.
  destruct (code x <? code y) eqn:Exy; [discriminate |].
  apply Nat.ltb_ge in Exy.
  destruct (code x =? code y) eqn:E.
  - apply Nat.eqb_eq in E. rewrite E, Nat.ltb_irrefl, Nat.eqb_refl.
    apply code_inj in E. subst y. rewrite chr_eqb_refl. apply IH.
  - intros _ _. apply Nat.eqb_neq in E.
    replace (code y <? code x) with true
      by (symmetry; apply Nat.ltb_lt; lia). reflexivity.
Qed.

Lemma insert_sorted_in x l z :
  In z (insert_sorted x l) <-> z = x \/ In z l.
Proof.
  induction l as [| y l IH]; simpl.
  - intuition.
  - destruct (str_ltb x y); [simpl; intuition |].
    destruct (str_eqb x y) eqn:E.
    + apply str_eqb_eq in E. subst y. simpl. intuition.
    + simpl. rewrite IH. intuition.
Qed.

Lemma insert_sorted_sorted x l :
  StronglySorted str_lt l -> StronglySorted str_lt (insert_sorted x l).
Proof.
  induction 1 as [| y l Hs IH Hy]; simpl.
  - repeat constructor.
  - destruct (str_ltb x y) eqn:Exy.
    + constructor; [constructor; assumption |].
      constructor; [exact Exy |].
      eapply Forall_impl; [| exact Hy].
      intros z Hz. eapply str_ltb_trans; eauto.
    + destruct (str_eqb x y) eqn:E; [constructor; assumption |].
      constructor; [exact IH |].
      apply Forall_forall. intros z Hz. apply insert_sorted_in in Hz.
      destruct Hz as [-> | Hz].
      * apply str_ltb_total; assumption.
      * rewrite Forall_forall in Hy. auto.
Qed.

Lemma sorted_set_sorted l : StronglySorted str_lt (sorted_set l).
Proof.
  induction l; simpl; [constructor | apply insert_sorted_sorted; assumption].
Qed.

Lemma sorted_set_in l z : In z (sorted_set l) <-> In z l.
Proof.
  induction l as [| x l IH]; simpl; [tauto |].
  rewrite insert_sorted_in, IH. intuition.
Qed.

Lemma sorted_nodup l : StronglySorted str_lt l -> NoDup l.
Proof.
  induction 1 as [| y l Hs IH Hy]; constructor; [| exact IH].
  intros Hin. rewrite Forall_forall in Hy. specialize (Hy y Hin).
  unfold str_lt in Hy. rewrite str_ltb_irrefl in Hy. discriminate.
Qed.

(** A strictly increasing list is its own sorted set. *)
Lemma sorted_set_fixed l : StronglySorted str_lt l -> sorted_set l = l.
Proof.
  induction 1 as [| y l Hs IH Hy]; simpl; [reflexivity |].
  rewrite IH. destruct l as [| z l]; [reflexivity |].
  simpl. inversion Hy; subst. unfold str_lt in *.
  match goal with H : str_ltb y z = true |- _ => rewrite H end.
  reflexivity.
Qed.

(** ** Finding every match *)

Lemma findall_nothing ic r : forall s skip,
  (forall i, match_here ic r (skipn i s) = None) ->
  findall_from ic r skip s = [].
Proof.
  induction s as [| c s IH]; intros skip H.
  - destruct skip; [| reflexivity]. cbn [findall_from].
    pose proof (H 0) as H0. cbn [skipn] in H0. rewrite H0. reflexivity.
  - assert (Hs : forall i, match_here ic r (skipn i s) = None)
      by (intros i; apply (H (S i))).
    destruct skip as [| skip]; cbn [findall_from]; [| auto].
    pose proof (H 0) as H0. cbn [skipn] in H0. rewrite H0. auto.
Qed.

Lemma findall_skip ic r : forall n s,
  (forall i, i < n -> match_here ic r (skipn i s) = None) ->
  findall_from ic r 0 s = findall_from ic r 0 (skipn n s).
Proof.
  induction n as [| n IH]; intros s H; [reflexivity |].
  destruct s as [| c s]; [reflexivity |].
  pose proof (H 0 ltac:(lia)) as H0. cbn [skipn] in H0.
  cbn [findall_from skipn]. rewrite H0. apply IH.
  intros i Hi. apply (H (S i)). lia.
Qed.

Lemma findall_head ic r s len g :
  match_here ic r s = Some (len, g) ->
  exists tl, findall_from ic r 0 s = reported g :: tl.
Proof.
  intros H. destruct s as [| c s]; cbn [findall_from]; rewrite H;
    destruct len; eauto.
Qed.

(** ** The participant patterns *)

Lemma bare_pattern_compiles kw :
  In kw participant_keywords ->
  pattern_of (bare_pattern kw) = lits (py kw) bare_tail.
Proof.
  unfold participant_keywords. simpl.
  intros H; repeat (destruct H as [<- | H]; [reflexivity |]); contradiction.
Qed.

Lemma quoted_pattern_compiles kw :
  In kw participant_keywords ->
  pattern_of (quoted_pattern kw) = lits (py kw) quoted_tail.
Proof.
  unfold participant_keywords. simpl.
  intros H; repeat (destruct H as [<- | H]; [reflexivity |]); contradiction.
Qed.


Lemma extend_concat (A B : Type) (f : A -> list B) l : forall acc,
  fold_left (fun acc x => acc ++ f x) l acc = acc ++ flat_map f l.
Proof.
  induction l as [| x l IH]; intros acc; simpl.
  - rewrite app_nil_r. reflexivity.
  - rewrite IH, app_assoc. reflexivity.
Qed.


(** The actors are the sorted set of what the sixteen patterns find. *)
Lemma actors_sorted_set src :
  _extract_actors_from_plantuml src
  = sorted_set
      (flat_map (fun p => re_findall true (pattern_of p) src)
                participant_patterns).
Proof.
  unfold _extract_actors_from_plantuml. rewrite extend_concat. reflexivity.
Qed.

Lemma actors_in src x :
  In x (_extract_actors_from_plantuml src) <->
  exists p, In p participant_patterns
            /\ In x (re_findall true (pattern_of p) src).
Proof. rewrite actors_sorted_set, sorted_set_in. apply in_flat_map. Qed.





Lemma word_not_space c : is_word c = true -> is_space c = false.
Proof.
  destruct c as [[] [] [] [] [] [] [] []]; vm_compute; congruence.
Qed.

Lemma keyword_prefix kw kw' rest :
  same_ci kw' kw -> lit_prefix true kw (kw' ++ rest) = true.
Proof. intros H. apply lit_prefix_ci. eauto. Qed.

(** A declaration with a bare identifier is matched, whatever the case of
    the keyword, and group 1 is the identifier. *)
Lemma match_bare_here_len kw kw' ws name post :
  same_ci kw' kw -> ws <> [] -> all_space ws ->
  name <> [] -> all_word name -> ends_word post ->
  match_here true (lits kw bare_tail) (kw' ++ ws ++ name ++ post)
  = Some (length (kw' ++ ws ++ name ++ post) - length post, [(1, name)]).
Proof.
  intros Hci Hws0 Hws Hname0 Hname Hpost.
  unfold match_here. rewrite rmatch_lits, (keyword_prefix _ Hci).
  rewrite <- (same_ci_length Hci), skipn_app_exact.
  unfold bare_tail. rewrite rmatch_Cat, rmatch_Rep.
  apply rep_greedy_set.
  - intros c t E. unfold cset_match. cbn. rewrite orb_false_r.
    destruct name as [| c0 name0]; [congruence |].
    inversion E; subst. inversion Hname; subst.
    apply word_not_space. assumption.
  - rewrite rmatch_Cat, rmatch_Grp, rmatch_Cat, rmatch_Rep.
    apply rep_greedy_set.
    + intros c t E. unfold cset_match. cbn. rewrite (Hpost c t E).
      reflexivity.
    + rewrite !rmatch_Eps, firstn_app_exact. reflexivity.
    + eapply Forall_impl; [| exact Hname].
      intros c Hc. unfold cset_match. cbn. rewrite Hc. reflexivity.
    + rewrite length_app. lia.
    + destruct name; [congruence | simpl; lia].
  - eapply Forall_impl; [| exact Hws].
    intros c Hc. unfold cset_match. cbn. rewrite Hc. reflexivity.
  - rewrite length_app. lia.
  - destruct ws; [congruence | simpl; lia].
Qed.

Lemma match_bare_here kw kw' ws name post :
  same_ci kw' kw -> ws <> [] -> all_space ws ->
  name <> [] -> all_word name -> ends_word post ->
  exists len,
    match_here true (lits kw bare_tail) (kw' ++ ws ++ name ++ post)
    = Some (len, [(1, name)]).
Proof. intros. eexists. apply match_bare_here_len; assumption. Qed.

Lemma not_dquote_in_set c :
  c <> DQUOTE -> cset_match true true [CLit DQUOTE] c = true.
Proof.
  destruct c as [[] [] [] [] [] [] [] []]; intros H; try reflexivity.
  exfalso. apply H. reflexivity.
Qed.

(** A declaration with a quoted label is matched, whatever the case of
    the keyword, and group 1 is the label. *)
Lemma match_quoted_here_len kw kw' ws label post :
  same_ci kw' kw -> ws <> [] -> all_space ws ->
  label <> [] -> ~ In DQUOTE label ->
  match_here true (lits kw quoted_tail)
    (kw' ++ ws ++ [DQUOTE] ++ label ++ [DQUOTE] ++ post)
  = Some (length (kw' ++ ws ++ [DQUOTE] ++ label ++ [DQUOTE] ++ post)
          - length post, [(1, label)]).
Proof.
  intros Hci Hws0 Hws Hlabel0 Hlabel.
  unfold match_here. rewrite rmatch_lits, (keyword_prefix _ Hci).
  rewrite <- (same_ci_length Hci), skipn_app_exact.
  unfold quoted_tail. rewrite rmatch_Cat, rmatch_Rep.
  apply rep_greedy_set.
  - intros c t E. inversion E; subst. reflexivity.
  - rewrite rmatch_Cat. cbn [app]. rewrite rmatch_Lit.
    replace (lit_match true DQUOTE DQUOTE) with true by reflexivity.
    rewrite rmatch_Cat, rmatch_Grp, rmatch_Cat, rmatch_Rep.
    apply rep_greedy_set.
    + intros c t E. inversion E; subst. reflexivity.
    + rewrite rmatch_Eps, rmatch_Cat, rmatch_Lit.
      replace (lit_match true DQUOTE DQUOTE) with true by reflexivity.
      rewrite rmatch_Eps.
      change (DQUOTE :: post) with ([DQUOTE] ++ post).
      rewrite firstn_app_exact. reflexivity.
    + apply Forall_forall. intros c Hc. apply not_dquote_in_set.
      intros ->. contradiction.
    + rewrite length_app. lia.
    + destruct label; [congruence | simpl; lia].
  - eapply Forall_impl; [| exact Hws].
    intros c Hc. unfold cset_match. cbn. rewrite Hc. reflexivity.
  - rewrite length_app. lia.
  - destruct ws; [congruence | simpl; lia].
Qed.

Lemma match_quoted_here kw kw' ws label post :
  same_ci kw' kw -> ws <> [] -> all_space ws ->
  label <> [] -> ~ In DQUOTE label ->
  exists len,
    match_here true (lits kw quoted_tail)
      (kw' ++ ws ++ [DQUOTE] ++ label ++ [DQUOTE] ++ post)
    = Some (len, [(1, label)]).
Proof. intros. eexists. apply match_quoted_here_len; assumption. Qed.

(** What a pattern finds at the first place where its keyword occurs. *)
Lemma findall_first_occurrence kw tail_ pre s len g :
  (forall i, i < length pre -> ~ begins_ci kw (skipn i (pre ++ s))) ->
  match_here true (lits kw tail_) s = Some (len, g) ->
  In (reported g) (re_findall true (lits kw tail_) (pre ++ s)).
Proof.
  intros Hpre Hm. unfold re_findall.
  rewrite (@findall_skip true _ (length pre)).
  - rewrite skipn_app_exact.
    destruct (findall_head _ _ _ Hm) as [tl ->]. left. reflexivity.
  - intros i Hi. unfold match_here. rewrite rmatch_lits.
    destruct (lit_prefix true kw (skipn i (pre ++ s))) eqn:E; [| reflexivity].
    apply lit_prefix_ci in E. exfalso. apply (Hpre i Hi). exact E.
Qed.

Lemma bare_pattern_in kw :
  In kw participant_keywords -> In (bare_pattern kw) participant_patterns.
Proof.
  intros H. unfold participant_patterns. apply in_flat_map.
  exists kw. split; [exact H | right; left; reflexivity].
Qed.

Lemma quoted_pattern_in kw :
  In kw participant_keywords -> In (quoted_pattern kw) participant_patterns.
Proof.
  intros H. unfold participant_patterns. apply in_flat_map.
  exists kw. split; [exact H | left; reflexivity].
Qed.

(** ** What the participant patterns can find *)

Section Inversions.
Variable R : Type.
Variable ic : bool.

Lemma rmatch_CSet neg items s g (k : pystr -> groups -> option R) :
  rmatch ic (CSet neg items) s g k
  = match s with
    | d :: s' => if cset_match ic neg items d then k s' g else None
    | [] => None
    end.
Proof. reflexivity. Qed.

(** A repeat of a set passes a run of characters of the set, at least as
    many as it must, and nothing else happens. *)
Lemma rep_set_inv neg items greedy lo hi
  (k : pystr -> groups -> option R) res :
  forall fuel cnt s g,
    rep_loop (rmatch ic (CSet neg items)) greedy lo hi k fuel cnt s g
    = Some res ->
    exists x s',
      s = x ++ s'
      /\ Forall (fun c => cset_match ic neg items c = true) x
      /\ lo <= cnt + length x
      /\ k s' g = Some res.
Proof.
  induction fuel as [| fuel IH]; intros cnt s g; [discriminate |].
  cbn [rep_loop]. rewrite rmatch_CSet.
  set (more := if below cnt hi then _ else None).
  set (stop := if lo <=? cnt then k s g else None).
  assert (Hmore : more = Some res ->
                  exists x s',
                    s = x ++ s'
                    /\ Forall (fun c => cset_match ic neg items c = true) x
                    /\ lo <= cnt + length x /\ k s' g = Some res).
  { subst more. destruct (below cnt hi); [| discriminate].
    destruct s as [| d t]; [discriminate |].
    destruct (cset_match ic neg items d) eqn:Ed; [| discriminate].
    destruct (length t <? length (d :: t)); [| discriminate].
    intros H. apply IH in H. destruct H as (x & s' & -> & Hx & Hlo & Hk).
    exists (d :: x), s'. repeat split; auto. simpl. lia. }
  assert (Hstop : stop = Some res ->
                  exists x s',
                    s = x ++ s'
                    /\ Forall (fun c => cset_match ic neg items c = true) x
                    /\ lo <= cnt + length x /\ k s' g = Some res).
  { subst stop. destruct (lo <=? cnt) eqn:E; [| discriminate].
    apply Nat.leb_le in E. intros H. exists [], s. repeat split; auto.
    simpl. lia. }
  destruct greedy.
  - destruct more as [r0 |]; cbn [orelse]; auto.
  - destruct stop as [r0 |]; cbn [orelse]; auto.
Qed.

Lemma bare_tail_inv s g (kf : pystr -> groups -> option R) res :
  rmatch ic bare_tail s g kf = Some res ->
  exists name s',
    name <> [] /\ all_word name /\ kf s' ((1, name) :: g) = Some res.
Proof.
  unfold bare_tail. rewrite rmatch_Cat, rmatch_Rep. intros H.
  apply rep_set_inv in H. destruct H as (ws & s1 & -> & _ & _ & H).
  rewrite rmatch_Cat, rmatch_Grp, rmatch_Cat, rmatch_Rep in H.
  apply rep_set_inv in H. destruct H as (name & s2 & -> & Hname & Hlen & H).
  rewrite !rmatch_Eps, firstn_app_exact in H.
  exists name, s2. repeat split; [| | exact H].
  - destruct name; [simpl in Hlen; lia | discriminate].
  - eapply Forall_impl; [| exact Hname].
    intros c Hc. unfold cset_match in Hc. cbn in Hc.
    rewrite orb_false_r in Hc. exact Hc.
Qed.

Lemma quoted_tail_inv s g (kf : pystr -> groups -> option R) res :
  rmatch ic quoted_tail s g kf = Some res ->
  exists label s',
    label <> [] /\ ~ In DQUOTE label
    /\ kf s' ((1, label) :: g) = Some res.
Proof.
  unfold quoted_tail. rewrite rmatch_Cat, rmatch_Rep. intros H.
  apply rep_set_inv in H. destruct H as (ws & s1 & -> & _ & _ & H).
  rewrite rmatch_Cat in H. destruct s1 as [| d s1]; [discriminate H |].
  rewrite rmatch_Lit in H. destruct (lit_match ic DQUOTE d); [| discriminate].
  rewrite rmatch_Cat, rmatch_Grp, rmatch_Cat, rmatch_Rep in H.
  apply rep_set_inv in H. destruct H as (label & s2 & -> & Hlabel & Hlen & H).
  rewrite rmatch_Eps, firstn_app_exact, rmatch_Cat in H.
  destruct s2 as [| d2 s2]; [discriminate H |].
  rewrite rmatch_Lit in H.
  destruct (lit_match ic DQUOTE d2); [| discriminate].
  rewrite rmatch_Eps in H.
  exists label, s2. repeat split; [| | exact H].
  - destruct label; [simpl in Hlen; lia | discriminate].
  - intros Hin. rewrite Forall_forall in Hlabel.
    specialize (Hlabel DQUOTE Hin). destruct ic; discriminate Hlabel.
Qed.

Lemma space_set_spaces ws :
  Forall (fun c => cset_match ic false [CSpace] c = true) ws -> all_space ws.
Proof.
  intros H. eapply Forall_impl; [| exact H].
  intros c Hc. unfold cset_match in Hc. cbn in Hc.
  rewrite orb_false_r in Hc. exact Hc.
Qed.

Lemma word_set_words name :
  Forall (fun c => cset_match ic false [CWord] c = true) name ->
  all_word name.
Proof.
  intros H. eapply Forall_impl; [| exact H].
  intros c Hc. unfold cset_match in Hc. cbn in Hc.
  rewrite orb_false_r in Hc. exact Hc.
Qed.

Lemma dquote_only d : lit_match ic DQUOTE d = true -> d = DQUOTE.
Proof.
  destruct ic, d as [[] [] [] [] [] [] [] []]; vm_compute;
    intros H; try discriminate H; reflexivity.
Qed.

(** What the tail of a pattern for a bare identifier passes. *)
Lemma bare_tail_split s g (kf : pystr -> groups -> option R) res :
  rmatch ic bare_tail s g kf = Some res ->
  exists ws name s',
    s = ws ++ name ++ s'
    /\ ws <> [] /\ all_space ws /\ name <> [] /\ all_word name
    /\ kf s' ((1, name) :: g) = Some res.
Proof.
  unfold bare_tail. rewrite rmatch_Cat, rmatch_Rep. intros H.
  apply rep_set_inv in H. destruct H as (ws & s1 & -> & Hws & Hwl & H).
  rewrite rmatch_Cat, rmatch_Grp, rmatch_Cat, rmatch_Rep in H.
  apply rep_set_inv in H. destruct H as (name & s2 & -> & Hname & Hlen & H).
  rewrite !rmatch_Eps, firstn_app_exact in H.
  exists ws, name, s2.
  split; [reflexivity |].
  split; [destruct ws; [simpl in Hwl; lia | discriminate] |].
  split; [apply space_set_spaces; exact Hws |].
  split; [destruct name; [simpl in Hlen; lia | discriminate] |].
  split; [apply word_set_words; exact Hname | exact H].
Qed.

(** What the tail of a pattern for a quoted label passes. *)
Lemma quoted_tail_split s g (kf : pystr -> groups -> option R) res :
  rmatch ic quoted_tail s g kf = Some res ->
  exists ws label s',
    s = ws ++ [DQUOTE] ++ label ++ [DQUOTE] ++ s'
    /\ ws <> [] /\ all_space ws /\ label <> [] /\ ~ In DQUOTE label
    /\ kf s' ((1, label) :: g) = Some res.
Proof.
  unfold quoted_tail. rewrite rmatch_Cat, rmatch_Rep. intros H.
  apply rep_set_inv in H. destruct H as (ws & s1 & -> & Hws & Hwl & H).
  rewrite rmatch_Cat in H. destruct s1 as [| d s1]; [discriminate H |].
  rewrite rmatch_Lit in H.
  destruct (lit_match ic DQUOTE d) eqn:Ed; [| discriminate].
  apply dquote_only in Ed. subst d.
  rewrite rmatch_Cat, rmatch_Grp, rmatch_Cat, rmatch_Rep in H.
  apply rep_set_inv in H. destruct H as (label & s2 & -> & Hlabel & Hlen & H).
  rewrite rmatch_Eps, firstn_app_exact, rmatch_Cat in H.
  destruct s2 as [| d2 s2]; [discriminate H |].
  rewrite rmatch_Lit in H.
  destruct (lit_match ic DQUOTE d2) eqn:Ed2; [| discriminate].
  apply dquote_only in Ed2. subst d2.
  rewrite rmatch_Eps in H.
  exists ws, label, s2.
  split; [reflexivity |].
  split; [destruct ws; [simpl in Hwl; lia | discriminate] |].
  split; [apply space_set_spaces; exact Hws |].
  split; [destruct label; [simpl in Hlen; lia | discriminate] |].
  split; [| exact H].
  intros Hin. rewrite Forall_forall in Hlabel.
  specialize (Hlabel DQUOTE Hin). destruct ic; discriminate Hlabel.
Qed.

End Inversions.

(** Everything [re.findall] reports is group 1 of a match somewhere in the
    text. *)
Lemma findall_in ic r x : forall s skip,
  In x (findall_from ic r skip s) ->
  exists s' len g,
    (match_here ic r s' = Some (len, g)
     \/ match_here_nonempty ic r s' = Some (len, g))
    /\ x = reported g.
Proof.
  induction s as [| c s IH]; intros skip.
  - destruct skip; [| intros []]. cbn [findall_from].
    destruct (match_here ic r []) as [[[| len] g] |] eqn:E.
    + destruct (match_here_nonempty ic r []) as [[len' g'] |] eqn:E'.
      * intros [<- | [<- | []]]; eauto 7.
      * intros [<- | []]; eauto 7.
    + intros [<- | []]; eauto 7.
    + intros [].
  - destruct skip as [| skip]; cbn [findall_from]; [| apply IH].
    destruct (match_here ic r (c :: s)) as [[[| len] g] |] eqn:E.
    + destruct (match_here_nonempty ic r (c :: s)) as [[len' g'] |] eqn:E'.
      * intros [<- | [<- | H]]; eauto 7.
      * intros [<- | H]; eauto 7.
    + intros [<- | H]; eauto 7.
    + apply IH.
Qed.

Lemma declaration_found kw tail_ s len g :
  (forall s0 g0 (kf : pystr -> groups -> option (nat * groups)) res,
      rmatch true tail_ s0 g0 kf = Some res ->
      exists name s',
        name <> [] /\ ~ In DQUOTE name
        /\ kf s' ((1, name) :: g0) = Some res) ->
  match_here true (lits kw tail_) s = Some (len, g)
  \/ match_here_nonempty true (lits kw tail_) s = Some (len, g) ->
  reported g <> [] /\ ~ In DQUOTE (reported g).
Proof.
  intros Htail H.
  assert (Hg : exists name g0,
             name <> [] /\ ~ In DQUOTE name /\ g = (1, name) :: g0).
  { destruct H as [H | H];
      unfold match_here, match_here_nonempty in H;
      rewrite rmatch_lits in H;
      destruct (lit_prefix true kw s); try discriminate;
      apply Htail in H; destruct H as (name & s' & Hn & Hq & H).
    - inversion H; subst. eauto.
    - destruct (length s' <? length s); [| discriminate].
      inversion H; subst. eauto. }
  destruct Hg as (name & g0 & Hn & Hq & ->). cbn. auto.
Qed.

Lemma word_is_not_dquote name : all_word name -> ~ In DQUOTE name.
Proof.
  intros H Hin. unfold all_word in H. rewrite Forall_forall in H.
  specialize (H DQUOTE Hin). discriminate H.
Qed.

(** ** Reading the declarations from left to right *)

(** A declaration is matched by its pattern, which passes it whole. *)
Lemma match_bare_decl kw s name rest :
  bare_decl kw s name rest ->
  match_here true (lits kw bare_tail) s
  = Some (length s - length rest, [(1, name)]).
Proof.
  intros (kw' & ws & -> & Hci & Hws0 & Hws & Hn0 & Hn & Hrest).
  apply match_bare_here_len; assumption.
Qed.

Lemma match_quoted_decl kw s label rest :
  quoted_decl kw s label rest ->
  match_here true (lits kw quoted_tail) s
  = Some (length s - length rest, [(1, label)]).
Proof.
  intros (kw' & ws & -> & Hci & Hws0 & Hws & Hl0 & Hl).
  apply match_quoted_here_len; assumption.
Qed.

Lemma bare_decl_consumes kw s name rest :
  bare_decl kw s name rest -> exists x, x <> [] /\ s = x ++ rest.
Proof.
  intros (kw' & ws & -> & _ & Hws0 & _).
  exists (kw' ++ ws ++ name). split.
  - destruct kw'; [destruct ws; [congruence | discriminate] | discriminate].
  - rewrite <- !app_assoc. reflexivity.
Qed.

Lemma quoted_decl_consumes kw s label rest :
  quoted_decl kw s label rest -> exists x, x <> [] /\ s = x ++ rest.
Proof.
  intros (kw' & ws & -> & _ & Hws0 & _).
  exists (kw' ++ ws ++ [DQUOTE] ++ label ++ [DQUOTE]). split.
  - destruct kw'; [destruct ws; [congruence | discriminate] | discriminate].
  - rewrite <- !app_assoc. reflexivity.
Qed.

(** Where a pattern matches, a declaration begins. *)
Lemma match_bare_inv kw s len g :
  match_here true (lits kw bare_tail) s = Some (len, g) ->
  exists name rest, bare_decl kw s name rest.
Proof.
  unfold match_here. rewrite rmatch_lits.
  destruct (lit_prefix true kw s) eqn:E; [| discriminate].
  apply lit_prefix_ci in E. destruct E as (kw' & s1 & -> & Hci).
  rewrite <- (same_ci_length Hci), skipn_app_exact. intros H.
  apply bare_tail_split in H.
  destruct H as (ws & name & s' & -> & Hws0 & Hws & Hn0 & Hn & _).
  destruct (dropwhile_split is_word s') as (more & Hs' & Hmore).
  exists (name ++ more), (dropwhile is_word s'), kw', ws.
  split; [rewrite <- !app_assoc, <- Hs'; reflexivity |].
  split; [exact Hci |]. split; [exact Hws0 |]. split; [exact Hws |].
  split; [destruct name; [congruence | discriminate] |].
  split; [apply Forall_app; split; assumption |].
  intros c t Ht. eapply dropwhile_head. exact Ht.
Qed.

Lemma match_quoted_inv kw s len g :
  match_here true (lits kw quoted_tail) s = Some (len, g) ->
  exists label rest, quoted_decl kw s label rest.
Proof.
  unfold match_here. rewrite rmatch_lits.
  destruct (lit_prefix true kw s) eqn:E; [| discriminate].
  apply lit_prefix_ci in E. destruct E as (kw' & s1 & -> & Hci).
  rewrite <- (same_ci_length Hci), skipn_app_exact. intros H.
  apply quoted_tail_split in H.
  destruct H as (ws & label & s' & -> & Hws0 & Hws & Hl0 & Hl & _).
  exists label, s', kw', ws. auto 10.
Qed.

Lemma findall_from_skip ic r : forall n s,
  n <= length s ->
  findall_from ic r n s = findall_from ic r 0 (skipn n s).
Proof.
  induction n as [| n IH]; intros s Hn; [reflexivity |].
  destruct s as [| c s]; [simpl in Hn; lia |].
  cbn [findall_from skipn]. apply IH. simpl in Hn. lia.
Qed.

Section Scanning.

Variable r : regex.
Variable decl : pystr -> pystr -> pystr -> Prop.

Hypothesis matched :
  forall s name rest,
    decl s name rest ->
    match_here true r s = Some (length s - length rest, [(1, name)]).
Hypothesis consumes :
  forall s name rest, decl s name rest -> exists x, x <> [] /\ s = x ++ rest.
Hypothesis begins :
  forall s len g,
    match_here true r s = Some (len, g) -> exists name rest, decl s name rest.

Lemma no_decl_no_match s :
  (forall name rest, ~ decl s name rest) -> match_here true r s = None.
Proof.
  intros H. destruct (match_here true r s) as [[len g] |] eqn:E;
    [| reflexivity].
  destruct (begins _ E) as (name & rest & Hd). destruct (H _ _ Hd).
Qed.

(** At a declaration, [re.findall] reports its name and goes on after
    it. *)
Lemma findall_at_decl s name rest :
  decl s name rest ->
  findall_from true r 0 s = name :: findall_from true r 0 rest.
Proof.
  intros Hd. pose proof (matched Hd) as Hm.
  destruct (consumes Hd) as (x & Hx & ->).
  replace (length (x ++ rest) - length rest) with (length x) in Hm
    by (rewrite length_app; lia).
  destruct x as [| c x]; [congruence |].
  cbn [app findall_from]. cbn [app] in Hm. rewrite Hm. cbn [length].
  f_equal. rewrite findall_from_skip by (rewrite length_app; lia).
  rewrite skipn_app_exact. reflexivity.
Qed.

(** What [re.findall] reports is what a reading from left to right
    meets. *)
Lemma findall_scanned s names :
  scanned decl s names -> findall_from true r 0 s = names.
Proof.
  induction 1 as [s Hno | pre s name rest names Hpre Hd _ IH].
  - apply findall_nothing. intros i. apply no_decl_no_match.
    intros name rest. apply Hno.
  - rewrite (@findall_skip true r (length pre)).
    + rewrite skipn_app_exact, (findall_at_decl Hd), IH. reflexivity.
    + intros i Hi. apply no_decl_no_match.
      intros name' rest'. apply Hpre. exact Hi.
Qed.

Lemma scanned_cons c s names :
  (forall name rest, ~ decl (c :: s) name rest) ->
  scanned decl s names -> scanned decl (c :: s) names.
Proof.
  intros Hc H. inversion H as [s0 Hno | pre s0 name rest names0 Hpre Hd Hs];
    subst.
  - apply scanned_none. intros [| i] name rest; [apply Hc | apply Hno].
  - change (c :: pre ++ s0) with ((c :: pre) ++ s0).
    eapply scanned_next; [| exact Hd | exact Hs].
    intros [| i] name' rest' Hi; [apply Hc |].
    cbn [app skipn]. apply Hpre. simpl in Hi. lia.
Qed.

Lemma scanned_findall : forall n s,
  length s <= n -> scanned decl s (findall_from true r 0 s).
Proof.
  induction n as [| n IH]; intros s Hn.
  - destruct s as [| c s]; [| simpl in Hn; lia].
    assert (Hno : forall name rest, ~ decl [] name rest).
    { intros name rest Hd. destruct (consumes Hd) as (x & Hx & E).
      destruct x; [congruence | discriminate]. }
    cbn [findall_from]. rewrite (no_decl_no_match Hno).
    apply scanned_none. intros i name rest. destruct i; apply Hno.
  - destruct (match_here true r s) as [[len g] |] eqn:E.
    + destruct (begins _ E) as (name & rest & Hd).
      rewrite (findall_at_decl Hd).
      change s with ([] ++ s).
      eapply scanned_next; [intros i ? ? Hi; simpl in Hi; lia | exact Hd |].
      apply IH. destruct (consumes Hd) as (x & Hx & ->).
      rewrite length_app in Hn. destruct x; [congruence |].
      simpl in Hn. lia.
    + destruct s as [| c s].
      * cbn [findall_from]. rewrite E. apply scanned_none.
        intros i name rest Hd. destruct i; cbn [skipn] in Hd;
          rewrite (matched Hd) in E; discriminate.
      * cbn [findall_from]. rewrite E. apply scanned_cons.
        -- intros name rest Hd. rewrite (matched Hd) in E. discriminate.
        -- apply IH. simpl in Hn. lia.
Qed.

End Scanning.

(** What the two patterns of a keyword find is what a reading from left to
    right meets. *)
Lemma findall_bare_scanned kw src names :
  re_findall true (lits kw bare_tail) src = names
  <-> scanned (bare_decl kw) src names.
Proof.
  unfold re_findall. split.
  - intros <-.
    apply (@scanned_findall _ _ (@match_bare_decl kw)
             (@bare_decl_consumes kw) (@match_bare_inv kw) (length src)).
    lia.
  - apply (@findall_scanned _ _ (@match_bare_decl kw)
             (@bare_decl_consumes kw) (@match_bare_inv kw)).
Qed.

Lemma findall_quoted_scanned kw src names :
  re_findall true (lits kw quoted_tail) src = names
  <-> scanned (quoted_decl kw) src names.
Proof.
  unfold re_findall. split.
  - intros <-.
    apply (@scanned_findall _ _ (@match_quoted_decl kw)
             (@quoted_decl_consumes kw) (@match_quoted_inv kw) (length src)).
    lia.
  - apply (@findall_scanned _ _ (@match_quoted_decl kw)
             (@quoted_decl_consumes kw) (@match_quoted_inv kw)).
Qed.

(** C5, as the code has it: the actors are strictly increasing, hence
    without duplicates, and extracting is idempotent.  They are the names
    met when the source is read from left to right for the declarations
    of each of the eight keywords [participant], [actor], [entity],
    [boundary], [control], [database], [collections] and [queue], written
    in whatever case, once for the bare identifiers and once for the
    quoted labels.  In particular the first declaration by a keyword
    gives an actor. *)
Theorem C5_actors_sorted_distinct_case_insensitive :
  forall src,
    StronglySorted str_lt (_extract_actors_from_plantuml src)
    /\ NoDup (_extract_actors_from_plantuml src)
    /\ sorted_set (_extract_actors_from_plantuml src)
       = _extract_actors_from_plantuml src
    /\ (forall x,
          In x (_extract_actors_from_plantuml src) <->
          exists kw names,
            In kw ["participant"; "actor"; "entity"; "boundary"; "control";
                   "database"; "collections"; "queue"]%string
            /\ (scanned (bare_decl (py kw)) src names
                \/ scanned (quoted_decl (py kw)) src names)
            /\ In x names)
    /\ (forall kw pre kw' ws name post,
          In kw ["participant"; "actor"; "entity"; "boundary"; "control";
                 "database"; "collections"; "queue"]%string ->
          src = pre ++ kw' ++ ws ++ name ++ post ->
          same_ci kw' (py kw) ->
          (forall i, i < length pre -> ~ begins_ci (py kw) (skipn i src)) ->
          ws <> [] -> all_space ws ->
          name <> [] -> all_word name -> ends_word post ->
          In name (_extract_actors_from_plantuml src))
    /\ (forall kw pre kw' ws label post,
          In kw ["participant"; "actor"; "entity"; "boundary"; "control";
                 "database"; "collections"; "queue"]%string ->
          src = pre ++ kw' ++ ws ++ [DQUOTE] ++ label ++ [DQUOTE] ++ post ->
          same_ci kw' (py kw) ->
          (forall i, i < length pre -> ~ begins_ci (py kw) (skipn i src)) ->
          ws <> [] -> all_space ws ->
          label <> [] -> ~ In DQUOTE label ->
          In label (_extract_actors_from_plantuml src)).
Proof.
  intros src.
  assert (Hs : StronglySorted str_lt (_extract_actors_from_plantuml src))
    by (rewrite actors_sorted_set; apply sorted_set_sorted).
  split; [exact Hs |].
  split; [apply sorted_nodup; exact Hs |].
  split; [apply sorted_set_fixed; exact Hs |].
  split; [| split].
  - intros x. rewrite actors_in. split.
    + intros (p & Hp & Hx).
      unfold participant_patterns in Hp. apply in_flat_map in Hp.
      destruct Hp as (kw & Hkw & [<- | [<- | []]]).
      * rewrite (quoted_pattern_compiles Hkw) in Hx.
        exists kw, (re_findall true (lits (py kw) quoted_tail) src).
        split; [exact Hkw |]. split; [| exact Hx].
        right. apply findall_quoted_scanned. reflexivity.
      * rewrite (bare_pattern_compiles Hkw) in Hx.
        exists kw, (re_findall true (lits (py kw) bare_tail) src).
        split; [exact Hkw |]. split; [| exact Hx].
        left. apply findall_bare_scanned. reflexivity.
    + intros (kw & names & Hkw & [Hsc | Hsc] & Hx).
      * exists (bare_pattern kw).
        split; [apply bare_pattern_in; exact Hkw |].
        rewrite (bare_pattern_compiles Hkw).
        apply findall_bare_scanned in Hsc. rewrite Hsc. exact Hx.
      * exists (quoted_pattern kw).
        split; [apply quoted_pattern_in; exact Hkw |].
        rewrite (quoted_pattern_compiles Hkw).
        apply findall_quoted_scanned in Hsc. rewrite Hsc. exact Hx.
  - intros kw pre kw' ws name post Hkw -> Hci Hpre Hws0 Hws Hn0 Hn Hpost.
    apply actors_in. exists (bare_pattern kw).
    split; [apply bare_pattern_in; exact Hkw |].
    rewrite (bare_pattern_compiles Hkw).
    destruct (@match_bare_here (py kw) kw' ws name post
                Hci Hws0 Hws Hn0 Hn Hpost) as [len Hm].
    apply (@findall_first_occurrence _ _ pre _ _ _ Hpre Hm).
  - intros kw pre kw' ws label post Hkw -> Hci Hpre Hws0 Hws Hl0 Hl.
    apply actors_in. exists (quoted_pattern kw).
    split; [apply quoted_pattern_in; exact Hkw |].
    rewrite (quoted_pattern_compiles Hkw).
    destruct (@match_quoted_here (py kw) kw' ws label post
                Hci Hws0 Hws Hl0 Hl) as [len Hm].
    apply (@findall_first_occurrence _ _ pre _ _ _ Hpre Hm).
Qed.

Lemma C5_witness :
  In (py "Db1")
     (_extract_actors_from_plantuml
        (py "@startuml" ++ [LF] ++ py "DataBase  Db1" ++ [LF])).
Proof.
  refine (proj1 (proj2 (proj2 (proj2 (proj2
            (C5_actors_sorted_distinct_case_insensitive _)))))
            "database"%string (py "@startuml" ++ [LF]) (py "DataBase")
            (py "  ") (py "Db1") [LF] _ eq_refl eq_refl _ _ _ _ _ _).
  - simpl. tauto.
  - intros i Hi H. apply lit_prefix_ci in H.
    do 10 (destruct i as [| i]; [discriminate H |]).
    simpl in Hi. lia.
  - discriminate.
  - repeat constructor.
  - discriminate.
  - repeat constructor.
  - intros c t E. inversion E. reflexivity.
Defined.

(** C5 as stated fails on the seventh category: the keyword of the code
    is [collections], and [collection] declares nothing. *)
Lemma C5_collection_declares_nothing :
  _extract_actors_from_plantuml (py "collection Orders") = []
  /\ _extract_actors_from_plantuml (py "COLLECTION Orders") = []
  /\ _extract_actors_from_plantuml (py "collections Orders")
     = [py "Orders"].
Proof. repeat split; vm_compute; reflexivity. Qed.

(** * Further properties of the service *)

(** ** The extractor *)

(** X1: with no hint, an empty hint, or a hint of plain characters,
    [_extract_code_block] returns a string for every text: neither
    [re.error] nor an error on group 1 can arise. *)
Theorem X1_extract_never_raises_on_plain_hints :
  forall (re_extern : bool -> pystr -> pystr -> outcome (option match_obj))
         text lang_hint,
    match lang_hint with
    | Some hint => forallb plain hint = true
    | None => True
    end ->
    exists r, _extract_code_block re_extern text lang_hint = Ret r.
Proof. intros. apply extract_total_on_plain_hints. assumption. Qed.

Lemma X1_witness :
  exists r,
    _extract_code_block no_extern (py "``` unclosed") (Some (py "plantuml"))
    = Ret r.
Proof.
  apply (@X1_extract_never_raises_on_plain_hints no_extern
           (py "``` unclosed") (Some (py "plantuml"))).
  reflexivity.
Defined.

Lemma strip_method_trimmed x r : strip_method x = Ret r -> trimmed r.
Proof.
  destruct x as [s |]; simpl; [| discriminate].
  intros H; inversion H. apply strip_idem.
Qed.

Lemma group_strip_trimmed m r :
  bind (group m 1) strip_method = Ret r -> trimmed r.
Proof.
  unfold group. destruct (1 <=? m_ngroups m); [| discriminate].
  cbn [bind]. apply strip_method_trimmed.
Qed.

Lemma extract_returns_trimmed
  (re_extern : bool -> pystr -> pystr -> outcome (option match_obj))
  text lang_hint r :
  _extract_code_block re_extern text lang_hint = Ret r -> trimmed r.
Proof.
  unfold _extract_code_block.
  assert (Hany :
            match re_search false (pattern_of FENCED_ANY) text with
            | Some m => bind (group m 1) strip_method
            | None => Ret (strip text)
            end = Ret r -> trimmed r).
  { destruct (re_search false (pattern_of FENCED_ANY) text) as [m |].
    - apply group_strip_trimmed.
    - intros H; inversion H. apply strip_idem. }
  destruct lang_hint as [[| c h] |]; cbn [bind]; try exact Hany.
  destruct (py_re_search _ _ _ _) as [[m |] | e]; cbn [bind];
    [| exact Hany | discriminate].
  destruct (group m 1) as [x | e]; cbn [bind]; [| discriminate].
  destruct (strip_method x) as [r0 | e] eqn:E; cbn [bind]; [| discriminate].
  intros H; inversion H; subst. eapply strip_method_trimmed; eauto.
Qed.

(** X2: whatever the hint, what [_extract_code_block] returns has no
    white space at either end. *)
Theorem X2_extract_returns_trimmed_text :
  forall (re_extern : bool -> pystr -> pystr -> outcome (option match_obj))
         text lang_hint r,
    _extract_code_block re_extern text lang_hint = Ret r -> trimmed r.
Proof. intros. eapply extract_returns_trimmed; eassumption. Qed.

Lemma X2_witness : trimmed (py "A -> B: hi").
Proof.
  apply (@X2_extract_returns_trimmed_text no_extern
           (py "Here it is: ```PlantUML" ++ [LF] ++ py "A -> B: hi" ++ [LF]
               ++ py "``` done")
           (Some (py "plantuml"))).
  vm_compute. reflexivity.
Defined.

Lemma dropwhile_app f s t :
  dropwhile f (s ++ t)
  = match dropwhile f s with
    | [] => dropwhile f t
    | l => l ++ t
    end.
Proof.
  induction s as [| c s IH]; simpl; [destruct (dropwhile f t); reflexivity |].
  destruct (f c); [exact IH | reflexivity].
Qed.

Lemma rstrip_spaces s ws : all_space ws -> rstrip (s ++ ws) = rstrip s.
Proof.
  intros H. unfold rstrip. rewrite rev_app_distr.
  rewrite dropwhile_all by (apply Forall_rev; exact H). reflexivity.
Qed.

(** White space after a text does not change its stripped form. *)
Lemma strip_spaces_after s ws : all_space ws -> strip (s ++ ws) = strip s.
Proof.
  intros H. unfold strip, lstrip. rewrite dropwhile_app.
  destruct (dropwhile is_space s) as [| c l] eqn:E.
  - rewrite <- (app_nil_r ws), dropwhile_all by exact H. reflexivity.
  - apply rstrip_spaces. exact H.
Qed.

Lemma startswith_app_long p : forall l m,
  length p <= length l -> startswith p (l ++ m) = startswith p l.
Proof.
  induction p as [| c p IH]; intros l m H; [reflexivity |].
  destruct l as [| d l]; [simpl in H; lia |].
  cbn [app startswith]. rewrite IH by (simpl in H; lia). reflexivity.
Qed.

Lemma no_fence_before_linefeed code : forall j rest,
  contains FENCE code = false -> j <= length code ->
  startswith FENCE (skipn j (code ++ LF :: rest)) = false.
Proof.
  induction code as [| c code IH]; intros j rest Hc Hj.
  - destruct j; [reflexivity | simpl in Hj; lia].
  - cbn [contains] in Hc. apply orb_false_iff in Hc. destruct Hc as [Hs Hc].
    destruct j as [| j].
    + cbn [skipn].
      destruct (Nat.le_gt_cases 3 (length (c :: code))) as [Hlen | Hlen].
      * rewrite startswith_app_long by exact Hlen. exact Hs.
      * destruct code as [| c2 [| c3 code]]; [| | simpl in Hlen; lia];
          unfold FENCE; cbn [py list_ascii_of_string app startswith].
        -- replace (chr_eqb "`" LF) with false by reflexivity.
           rewrite andb_false_r. reflexivity.
        -- replace (chr_eqb "`" LF) with false by reflexivity.
           rewrite !andb_false_r. reflexivity.
    + cbn [skipn app]. apply IH; [exact Hc | simpl in Hj; lia].
Qed.

(** X3: the prompt of [refine_plantuml_code] fences the diagram the way
    the extractor reads it: from the prompt, the extractor gives back the
    diagram, stripped, when the diagram holds no fence of its own. *)
Theorem X3_refine_prompt_round_trip :
  forall (re_extern : bool -> pystr -> pystr -> outcome (option match_obj))
         plantuml_code message,
    contains FENCE plantuml_code = false ->
    _extract_code_block re_extern (refine_prompt plantuml_code message)
      (Some (py "plantuml"))
    = Ret (strip plantuml_code).
Proof.
  intros re_extern code message Hc.
  set (post := [LF; LF] ++ py "User request: " ++ message ++ [LF; LF]
               ++ py "Please return the updated PlantUML code.").
  transitivity (@Ret pystr (strip ([LF] ++ code ++ [LF]))).
  2: { f_equal. rewrite strip_spaces by (repeat constructor).
       apply strip_spaces_after. repeat constructor. }
  apply (@extract_first_hinted_block re_extern (py "plantuml")
           (refine_prompt code message)
           (py "Here is the current PlantUML code:" ++ [LF])
           (py "plantuml") ([LF] ++ code ++ [LF]) post).
  - discriminate.
  - reflexivity.
  - unfold refine_prompt, post, FENCE. rewrite <- !app_assoc. reflexivity.
  - reflexivity.
  - intros i Hi H. apply lit_prefix_opens in H.
    do 35 (destruct i as [| i]; [discriminate H |]).
    simpl in Hi. lia.
  - intros j Hj. destruct j as [| j]; [reflexivity |].
    cbn [app skipn]. rewrite <- app_assoc.
    apply no_fence_before_linefeed; [exact Hc |].
    rewrite !length_app in Hj. simpl in Hj. lia.
Qed.

Lemma X3_witness :
  _extract_code_block no_extern
    (refine_prompt (py "A -> B: ping") (py "add a reply"))
    (Some (py "plantuml"))
  = Ret (strip (py "A -> B: ping")).
Proof.
  apply (@X3_refine_prompt_round_trip no_extern (py "A -> B: ping")
           (py "add a reply")).
  reflexivity.
Defined.

(** ** The records of the orchestrators *)

Lemma split_on_no_sep sep s : forall cur,
  ~ In sep cur ->
  Forall (fun part => ~ In sep part) (split_on sep s cur).
Proof.
  induction s as [| c s IH]; intros cur Hcur; simpl.
  - constructor; [| constructor]. rewrite <- in_rev. exact Hcur.
  - destruct (chr_eqb c sep) eqn:E.
    + constructor; [rewrite <- in_rev; exact Hcur |].
      apply IH. intros [].
    + apply IH. intros [-> | H]; [| contradiction].
      rewrite chr_eqb_refl in E. discriminate.
Qed.

(** The name of a path holds no slash. *)
Lemma path_name_no_slash p : ~ In "/"%char (path_name p).
Proof.
  unfold path_name, path_parts.
  pose proof (@split_on_no_sep "/"%char p [] (fun H => H)) as Hall.
  set (parts := filter _ _).
  assert (Hparts : Forall (fun part => ~ In "/"%char part) parts).
  { apply Forall_forall. intros part Hin. apply filter_In in Hin.
    rewrite Forall_forall in Hall. apply Hall. tauto. }
  clearbody parts. induction Hparts as [| x l Hx Hl IH]; [intros [] |].
  destruct l; [exact Hx | exact IH].
Qed.

Section Records.

Variable re_extern : bool -> pystr -> pystr -> outcome (option match_obj).
Variable W : Type.
Variable dataframe : Type.
Variable NamedTemporaryFile : M W pystr.
Variable read_csv : pystr -> M W dataframe.
Variable to_csv : dataframe -> pystr -> M W unit.
Variable path_exists : pystr -> M W bool.
Variable unlink : pystr -> M W unit.
Variable agent_run : agent -> pystr -> M W response.
Variable render_plantuml_from_text : pystr -> pystr -> pystr -> M W pystr.

Let process := process_csv_and_generate re_extern NamedTemporaryFile
                 read_csv to_csv path_exists unlink agent_run
                 render_plantuml_from_text.
Let refine := refine_plantuml_code re_extern agent_run
                render_plantuml_from_text.

Lemma extract_from_trimmed text lang_hint r :
  extract_from re_extern text lang_hint = Ret r -> trimmed r.
Proof.
  destruct text as [s | t | t]; [apply extract_returns_trimmed | |];
    unfold extract_from;
    (destruct lang_hint as [[| c h] |]; try discriminate;
     destruct (py_re_search _ _ _ _); discriminate).
Qed.

(** The source of a success record is what the extractor returned. *)
Lemma generation_body_source tmp output_dir w d w' :
  generation_body re_extern agent_run render_plantuml_from_text
    tmp output_dir w = (Ret d, w') ->
  exists c p, d = success_result c p /\ trimmed c.
Proof.
  unfold generation_body, mbind, lift, mret.
  destruct (agent_run _ _ w) as [[resp | e] v1]; [| discriminate].
  destruct (extract_from _ _ _) as [u | e] eqn:E; [| discriminate].
  destruct (render_plantuml_from_text u _ _ v1) as [[p | e] v2];
    [| discriminate].
  intros H; inversion H; subst. exists u, p. split; [reflexivity |].
  eapply extract_from_trimmed; eauto.
Qed.

Lemma refinement_body_source plantuml_code message output_dir w d w' :
  refinement_body re_extern agent_run render_plantuml_from_text
    plantuml_code message output_dir w = (Ret d, w') ->
  exists c p, d = success_result c p /\ trimmed c.
Proof.
  unfold refinement_body, mbind, lift, mret.
  destruct (agent_run _ _ w) as [[resp | e] v1]; [| discriminate].
  destruct (get_content resp) as [c | e]; [| discriminate].
  destruct (extract_from _ _ _) as [u | e] eqn:E; [| discriminate].
  destruct (render_plantuml_from_text u _ _ v1) as [[p | e] v2];
    [| discriminate].
  intros H; inversion H; subst. exists u, p. split; [reflexivity |].
  eapply extract_from_trimmed; eauto.
Qed.

Lemma refine_success_source plantuml_code message output_dir w d w' :
  refine plantuml_code message output_dir w = (Ret d, w') ->
  is_success d ->
  exists c p, d = success_result c p /\ trimmed c.
Proof.
  unfold refine. rewrite refine_catches.
  destruct (refinement_body _ _ _ _ _ _ w) as [[d0 | e] v] eqn:Hb.
  - intros H Hs; inversion H; subst.
    eapply refinement_body_source; eauto.
  - destruct (exn_is_Exception e); intros H Hs; inversion H; subst.
    discriminate Hs.
Qed.

Lemma process_success_source csv_path output_dir w d w' :
  process csv_path output_dir w = (Ret d, w') ->
  is_success d ->
  exists c p, d = success_result c p /\ trimmed c.
Proof.
  unfold process, process_csv_and_generate.
  unfold mbind at 1.
  destruct (NamedTemporaryFile w) as [[tmp | e] w1]; [| discriminate].
  unfold mbind at 1.
  destruct (read_csv csv_path w1) as [[df | e] w2]; [| discriminate].
  unfold mbind at 1.
  destruct (to_csv df tmp w2) as [[[] | e] w3]; [| discriminate].
  unfold mtry_finally, mtry_except.
  destruct (generation_body _ _ _ tmp output_dir w3) as [[d0 | e] w4]
    eqn:Hbody.
  - destruct (cleanup _ _ tmp w4) as [[[] | e] w5]; [| discriminate].
    intros H _; inversion H; subst.
    eapply generation_body_source; eauto.
  - unfold mret.
    destruct (exn_is_Exception e);
      destruct (cleanup path_exists unlink tmp w4) as [[[] | e'] w5];
      try discriminate.
    intros H Hs; inversion H; subst. discriminate Hs.
Qed.

End Records.

(** X4: in every success record the fields agree: the source has no white
    space at either end, [actors] and [activities] are what the two
    analyzers give on that very source, and the image is a name without
    slash under [/static/]. *)
Theorem X4_success_record_agrees_with_its_source :
  forall (re_extern : bool -> pystr -> pystr -> outcome (option match_obj))
         (W dataframe : Type)
         (NamedTemporaryFile : M W pystr)
         (read_csv : pystr -> M W dataframe)
         (to_csv : dataframe -> pystr -> M W unit)
         (path_exists : pystr -> M W bool) (unlink : pystr -> M W unit)
         (agent_run : agent -> pystr -> M W response)
         (render : pystr -> pystr -> pystr -> M W pystr)
         (d : dict),
    ((exists csv_path output_dir w w',
         process_csv_and_generate re_extern NamedTemporaryFile read_csv
           to_csv path_exists unlink agent_run render
           csv_path output_dir w = (Ret d, w'))
     \/ (exists plantuml_code message output_dir w w',
           refine_plantuml_code re_extern agent_run render
             plantuml_code message output_dir w = (Ret d, w'))) ->
    is_success d ->
    exists source name,
      dict_get d "plantuml_code" = Some (VStr source)
      /\ trimmed source
      /\ dict_get d "actors"
         = Some (VList (_extract_actors_from_plantuml source))
      /\ dict_get d "activities"
         = Some (VList (_extract_activities_from_plantuml source))
      /\ dict_get d "plantuml_image" = Some (VStr (py "/static/" ++ name))
      /\ ~ In "/"%char name.
Proof.
  intros * Hd Hs.
  assert (H : exists c p, d = success_result c p /\ trimmed c).
  { destruct Hd as [(csv_path & output_dir & w & w' & H)
                   | (code_ & message & output_dir & w & w' & H)].
    - eapply process_success_source; eauto.
    - eapply refine_success_source; eauto. }
  destruct H as (c & p & -> & Hc).
  exists c, (path_name p). repeat split; try reflexivity; try exact Hc.
  apply path_name_no_slash.
Qed.

Lemma X4_witness :
  exists source name,
    dict_get (success_result ping_pong (py "static/e2e_test_diagram.png"))
      "plantuml_code" = Some (VStr source)
    /\ trimmed source
    /\ dict_get (success_result ping_pong (py "static/e2e_test_diagram.png"))
         "actors" = Some (VList (_extract_actors_from_plantuml source))
    /\ dict_get (success_result ping_pong (py "static/e2e_test_diagram.png"))
         "activities"
       = Some (VList (_extract_activities_from_plantuml source))
    /\ dict_get (success_result ping_pong (py "static/e2e_test_diagram.png"))
         "plantuml_image" = Some (VStr (py "/static/" ++ name))
    /\ ~ In "/"%char name.
Proof.
  apply (@X4_success_record_agrees_with_its_source no_extern unit unit
           fake_tmp fake_read_csv fake_to_csv fake_exists fake_unlink
           (fake_agent ping_pong_reply) fake_render).
  - right. exists (py "A -> B: ping"), (py "add a reply"), (py "static"),
      tt, tt. vm_compute. reflexivity.
  - reflexivity.
Defined.

(** With the hint of the two orchestrators, a text that is no string is
    rejected by [re.search]. *)
Lemma extract_from_not_a_string
      (re_extern : bool -> pystr -> pystr -> outcome (option match_obj)) c :
  (forall s, c <> PyStr s) ->
  extract_from re_extern c (Some (py "plantuml")) = Raise (not_a_string c).
Proof.
  intros H. destruct c as [s | t | t];
    [exfalso; apply (H s); reflexivity | |]; vm_compute; reflexivity.
Qed.

Lemma not_a_string_class c : exn_class (not_a_string c) = "TypeError"%string.
Proof. destruct c; reflexivity. Qed.

(** X5: the two orchestrators differ on an answer of the agent that has no
    [content]: [refine_plantuml_code] reads the attribute and returns a
    failure record, [process_csv_and_generate] falls back on the text of
    the answer and goes on with it.  An answer whose content is not a
    string gives a failure record in both. *)
Theorem X5_answers_without_text :
  forall (re_extern : bool -> pystr -> pystr -> outcome (option match_obj))
         (W : Type)
         (agent_run : agent -> pystr -> M W response)
         (render : pystr -> pystr -> pystr -> M W pystr),
    (forall plantuml_code message output_dir w resp w1,
        agent_run refiner (refine_prompt plantuml_code message) w
          = (Ret resp, w1) ->
        (forall s, resp_content resp <> Some (PyStr s)) ->
        exists e,
          refine_plantuml_code re_extern agent_run render
            plantuml_code message output_dir w
            = (Ret (failure_result e), w1)
          /\ (exn_class e = "AttributeError"%string
              \/ exn_class e = "TypeError"%string))
    /\ (forall tmp output_dir w resp w1 source img w2,
          agent_run (generation_agent tmp output_dir) puml_prompt w
            = (Ret resp, w1) ->
          resp_content resp = None ->
          _extract_code_block re_extern (resp_str resp)
            (Some (py "plantuml")) = Ret source ->
          render source output_dir (py "e2e_test_diagram") w1
            = (Ret img, w2) ->
          generation_body re_extern agent_run render tmp output_dir w
          = (Ret (success_result source img), w2))
    /\ (forall tmp output_dir w resp w1 c,
          agent_run (generation_agent tmp output_dir) puml_prompt w
            = (Ret resp, w1) ->
          resp_content resp = Some c ->
          (forall s, c <> PyStr s) ->
          exists e,
            generation_body re_extern agent_run render tmp output_dir w
            = (Raise e, w1)
            /\ exn_class e = "TypeError"%string
            /\ exn_is_Exception e = true).
Proof.
  intros. split; [| split].
  - intros * Hrun Hc.
    unfold refine_plantuml_code, refinement_body, mtry_except, mbind, lift.
    rewrite Hrun. unfold get_content.
    destruct (resp_content resp) as [c |].
    + rewrite extract_from_not_a_string
        by (intros s ->; apply (Hc s); reflexivity).
      replace (exn_is_Exception (not_a_string c)) with true
        by (destruct c; reflexivity).
      eexists. split; [reflexivity |].
      right. apply not_a_string_class.
    + cbn. eexists. split; [reflexivity | left; reflexivity].
  - intros * Hrun Hc Hex Hr.
    unfold generation_body, mbind, lift, mret.
    rewrite Hrun, Hc. cbn [extract_from]. rewrite Hex, Hr. reflexivity.
  - intros * Hrun Hc Hs.
    unfold generation_body, mbind, lift, mret.
    rewrite Hrun, Hc, (extract_from_not_a_string _ Hs).
    eexists. split; [reflexivity |].
    split; [apply not_a_string_class | destruct c; reflexivity].
Qed.

Lemma X5_witness :
  exists e,
    refine_plantuml_code no_extern
      (fun _ _ => mret (mkResponse (py "RunResponse") (Some (PyOther (py "NoneType")))
                          (py "RunResponse")))
      fake_render (py "A -> B: ping") (py "add a reply") (py "static") tt
    = (Ret (failure_result e), tt)
    /\ (exn_class e = "AttributeError"%string
        \/ exn_class e = "TypeError"%string).
Proof.
  refine (proj1 (@X5_answers_without_text no_extern unit _ fake_render)
            (py "A -> B: ping") (py "add a reply") (py "static") tt
            (mkResponse (py "RunResponse") (Some (PyOther (py "NoneType")))
                        (py "RunResponse")) tt eq_refl _).
  intros s H. discriminate H.
Defined.

(** ** The handlers *)

Section HandlerFacts.

Variable re_extern : bool -> pystr -> pystr -> outcome (option match_obj).
Variable W : Type.
Variable dataframe : Type.
Variable NamedTemporaryFile : M W pystr.
Variable read_csv : pystr -> M W dataframe.
Variable to_csv : dataframe -> pystr -> M W unit.
Variable path_exists : pystr -> M W bool.
Variable unlink : pystr -> M W unit.
Variable agent_run : agent -> pystr -> M W response.
Variable render_plantuml_from_text : pystr -> pystr -> pystr -> M W pystr.
Variable UPLOAD_DIR : pystr.
Variable STATIC_DIR : pystr.
Variable path_join : pystr -> pystr -> pystr.
Variable with_suffix : pystr -> pystr -> pystr.
Variable save_upload : pystr -> M W unit.
Variable read_excel : pystr -> M W dataframe.

Lemma respond_success (m : M W dict) default w c p w' :
  m w = (Ret (success_result c p), w') ->
  respond m default w = (Returned (success_result c p), w').
Proof. intros H. unfold respond. rewrite H. reflexivity. Qed.

Lemma respond_failure (m : M W dict) default w e w' :
  m w = (Ret (failure_result e), w') ->
  respond m default w = (HTTPException 500 (VStr (exn_str e)), w').
Proof. intros H. unfold respond. rewrite H. reflexivity. Qed.

Lemma respond_raise (m : M W dict) default w e w' :
  m w = (Raise e, w') -> respond m default w = (Propagated e, w').
Proof. intros H. unfold respond. rewrite H. reflexivity. Qed.

(** A handler relays the outcome of an orchestrator whose records are
    success records and failure records. *)
Lemma respond_relays (m : M W dict) default w o w' :
  m w = (o, w') ->
  (forall d, o = Ret d ->
     (exists c p, d = success_result c p)
     \/ (exists e, d = failure_result e)) ->
  exists out, respond m default w = (out, w') /\ relays o out.
Proof.
  intros Hm Hshape. destruct o as [d | e].
  - destruct (Hshape d eq_refl) as [(c & p & ->) | (e & ->)].
    + eexists. split; [apply respond_success; exact Hm |].
      left. split; [reflexivity |].
      split; [apply success_result_well_formed | reflexivity].
    + eexists. split; [apply respond_failure; exact Hm |].
      right. split; [reflexivity |].
      eexists. split; reflexivity.
  - eexists. split; [apply respond_raise; exact Hm | reflexivity].
Qed.

(** What [chat_plantuml] makes of the [try] block of
    [refine_plantuml_code]. *)
Lemma respond_refine plantuml_code message default w o w' :
  refinement_body re_extern agent_run render_plantuml_from_text
    plantuml_code message STATIC_DIR w = (o, w') ->
  respond (refine_plantuml_code re_extern agent_run
             render_plantuml_from_text plantuml_code message STATIC_DIR)
    default w = (relays_try o, w').
Proof.
  intros Hb. destruct o as [d | e].
  - destruct (refinement_body_ret _ _ _ _ _ _ _ Hb) as (c & p & ->).
    apply respond_success. rewrite refine_catches, Hb. reflexivity.
  - cbn [relays_try]. destruct (exn_is_Exception e) eqn:E.
    + apply respond_failure. rewrite refine_catches, Hb, E. reflexivity.
    + apply respond_raise. rewrite refine_catches, Hb, E. reflexivity.
Qed.

End HandlerFacts.

(** X6: [chat_plantuml] answers 400, without calling the agent, when
    [plantuml_code] or [message] is missing or empty.  Otherwise it runs
    [refine_plantuml_code] on the two texts: what the [try] block returns
    is returned, a success record; an instance of [Exception] raised in
    it is answered 500 with its message as detail; any other exception
    reaches the framework.  The handler ends in no other way and returns
    no failure record. *)
Theorem X6_chat_plantuml_answers :
  forall (re_extern : bool -> pystr -> pystr -> outcome (option match_obj))
         (W : Type)
         (agent_run : agent -> pystr -> M W response)
         (render : pystr -> pystr -> pystr -> M W pystr)
         (STATIC_DIR : pystr) request w,
    let plantuml_code := request_get request "plantuml_code" in
    let user_message := request_get request "message" in
    let chat :=
      chat_plantuml re_extern agent_run render STATIC_DIR request in
    let body :=
      refinement_body re_extern agent_run render
        (jtext plantuml_code) (jtext user_message) STATIC_DIR in
    (jtruthy plantuml_code = false \/ jtruthy user_message = false ->
     chat w
     = (HTTPException 400
          (VStr (py "plantuml_code and message are required")), w))
    /\ (jtruthy plantuml_code = true -> jtruthy user_message = true ->
        forall o w',
          body w = (o, w') ->
          chat w = (relays_try o, w')
          /\ (forall d, o = Ret d -> is_success d /\ well_formed_result d))
    /\ (forall out w',
          chat w = (out, w') ->
          match out with
          | Returned d =>
              is_success d /\ well_formed_result d /\ body w = (Ret d, w')
          | HTTPException status_code detail =>
              (status_code = 400 /\ w' = w
               /\ detail
                  = VStr (py "plantuml_code and message are required"))
              \/ (status_code = 500
                  /\ exists e,
                       body w = (Raise e, w')
                       /\ exn_is_Exception e = true
                       /\ detail = VStr (exn_str e))
          | Propagated e =>
              exn_is_Exception e = false /\ body w = (Raise e, w')
          end).
Proof.
  intros re_extern W agent_run render STATIC_DIR request w
         plantuml_code user_message chat body.
  assert (Hvalid : jtruthy plantuml_code = true ->
                   jtruthy user_message = true ->
                   forall o w', body w = (o, w') ->
                                chat w = (relays_try o, w')).
  { intros H1 H2 o w' Hb. unfold chat, chat_plantuml.
    fold plantuml_code user_message. rewrite H1, H2. cbn [negb orb].
    apply respond_refine. exact Hb. }
  split; [| split].
  - unfold chat, chat_plantuml. fold plantuml_code user_message.
    intros [H | H]; rewrite H; cbn [negb orb].
    + reflexivity.
    + rewrite orb_true_r. reflexivity.
  - intros H1 H2 o w' Hb. split; [apply Hvalid; assumption |].
    intros d ->.
    destruct (refinement_body_ret _ _ _ _ _ _ _ Hb) as (c & p & ->).
    split; [reflexivity | apply success_result_well_formed].
  - intros out w'.
    destruct (jtruthy plantuml_code) eqn:H1;
      [destruct (jtruthy user_message) eqn:H2 |].
    + destruct (body w) as [o v] eqn:Hb.
      rewrite (Hvalid eq_refl eq_refl o v eq_refl).
      intros H; inversion H; subst. destruct o as [d | e]; cbn [relays_try].
      * destruct (refinement_body_ret _ _ _ _ _ _ _ Hb) as (c & p & ->).
        split; [reflexivity |].
        split; [apply success_result_well_formed | reflexivity].
      * destruct (exn_is_Exception e) eqn:E.
        -- right. split; [reflexivity |]. exists e. auto.
        -- auto.
    + unfold chat, chat_plantuml. fold plantuml_code user_message.
      rewrite H1, H2. cbn [negb orb].
      intros H; inversion H; subst. left. auto.
    + unfold chat, chat_plantuml. fold plantuml_code user_message.
      rewrite H1. cbn [negb orb].
      intros H; inversion H; subst. left. auto.
Qed.

Lemma X6_witness :
  chat_plantuml no_extern failing_agent disk_render (py "static")
    [("plantuml_code"%string, JStr (py "A -> B: ping"));
     ("message"%string, JStr (py "add a reply"))] []
  = (HTTPException 500 (VStr (py "model unavailable")),
     [py "static/notes.txt"]).
Proof.
  refine (proj1 (proj1 (proj2 (@X6_chat_plantuml_answers no_extern disk
                    failing_agent disk_render (py "static")
                    [("plantuml_code"%string, JStr (py "A -> B: ping"));
                     ("message"%string, JStr (py "add a reply"))] []))
            eq_refl eq_refl
            (Raise (mkExn "RuntimeError" (py "model unavailable")))
            [py "static/notes.txt"] _)).
  reflexivity.
Defined.

(** X7: [upload_csv] writes the upload first and looks at its name after:
    a name that ends, in whatever case, neither in [.xlsx], [.xls] nor in
    [.csv] is answered 400 with the file already written and nothing else
    done.  A name in [.csv] is handed to [process_csv_and_generate] as it
    is written, an Excel name after its conversion; the handler returns
    the success record it gets, answers 500 with the [error] of the
    failure record it gets, that is the message of the instance of
    [Exception] raised in the [try] block, and lets every exception of the
    copy, the conversion and the orchestrator reach the framework. *)
Theorem X7_upload_csv_answers :
  forall (re_extern : bool -> pystr -> pystr -> outcome (option match_obj))
         (W dataframe : Type)
         (NamedTemporaryFile : M W pystr)
         (read_csv : pystr -> M W dataframe)
         (to_csv : dataframe -> pystr -> M W unit)
         (path_exists : pystr -> M W bool) (unlink : pystr -> M W unit)
         (agent_run : agent -> pystr -> M W response)
         (render : pystr -> pystr -> pystr -> M W pystr)
         (UPLOAD_DIR STATIC_DIR : pystr)
         (path_join with_suffix : pystr -> pystr -> pystr)
         (save_upload : pystr -> M W unit)
         (read_excel : pystr -> M W dataframe)
         file_filename w,
    let upload :=
      upload_csv re_extern NamedTemporaryFile read_csv to_csv path_exists
        unlink agent_run render UPLOAD_DIR STATIC_DIR path_join with_suffix
        save_upload read_excel file_filename in
    let process :=
      process_csv_and_generate re_extern NamedTemporaryFile read_csv
        to_csv path_exists unlink agent_run render in
    let dest := path_join UPLOAD_DIR file_filename in
    let filename := map lower file_filename in
    (forall w1,
        save_upload (path_join UPLOAD_DIR file_filename) w = (Ret tt, w1) ->
        endswith (py ".xlsx") (map lower file_filename) = false ->
        endswith (py ".xls") (map lower file_filename) = false ->
        endswith (py ".csv") (map lower file_filename) = false ->
        upload w
        = (HTTPException 400 (VStr (py "Only CSV or Excel files allowed")),
           w1))
    /\ (forall e w1,
          save_upload dest w = (Raise e, w1) ->
          upload w = (Propagated e, w1))
    /\ (forall w1 o w',
          save_upload dest w = (Ret tt, w1) ->
          endswith (py ".xlsx") filename || endswith (py ".xls") filename
            = false ->
          endswith (py ".csv") filename = true ->
          process dest STATIC_DIR w1 = (o, w') ->
          exists out, upload w = (out, w') /\ relays o out)
    /\ (forall w1 df w2 w3 o w',
          save_upload dest w = (Ret tt, w1) ->
          endswith (py ".xlsx") filename || endswith (py ".xls") filename
            = true ->
          read_excel dest w1 = (Ret df, w2) ->
          to_csv df (with_suffix dest (py ".csv")) w2 = (Ret tt, w3) ->
          process (with_suffix dest (py ".csv")) STATIC_DIR w3 = (o, w') ->
          exists out, upload w = (out, w') /\ relays o out)
    /\ (forall w1 e w2,
          save_upload dest w = (Ret tt, w1) ->
          endswith (py ".xlsx") filename || endswith (py ".xls") filename
            = true ->
          read_excel dest w1 = (Raise e, w2) ->
          upload w = (Propagated e, w2))
    /\ (forall w1 df w2 e w3,
          save_upload dest w = (Ret tt, w1) ->
          endswith (py ".xlsx") filename || endswith (py ".xls") filename
            = true ->
          read_excel dest w1 = (Ret df, w2) ->
          to_csv df (with_suffix dest (py ".csv")) w2 = (Raise e, w3) ->
          upload w = (Propagated e, w3))
    /\ (forall w1 tmp df w2 w3 w4 o w5 w6,
          save_upload dest w = (Ret tt, w1) ->
          endswith (py ".xlsx") filename || endswith (py ".xls") filename
            = false ->
          endswith (py ".csv") filename = true ->
          NamedTemporaryFile w1 = (Ret tmp, w2) ->
          read_csv dest w2 = (Ret df, w3) ->
          to_csv df tmp w3 = (Ret tt, w4) ->
          generation_body re_extern agent_run render tmp STATIC_DIR w4
            = (o, w5) ->
          cleanup path_exists unlink tmp w5 = (Ret tt, w6) ->
          upload w = (relays_try o, w6)).
Proof.
  intros re_extern W dataframe NTF read_csv to_csv path_exists unlink
         agent_run render UPLOAD_DIR STATIC_DIR path_join with_suffix
         save_upload read_excel file_filename w
         upload process dest filename.
  assert (Hrelay : forall d default v o w',
             process d STATIC_DIR v = (o, w') ->
             exists out,
               respond (process d STATIC_DIR) default v = (out, w')
               /\ relays o out).
  { intros d default v o w' Hp.
    apply respond_relays; [exact Hp |].
    intros r ->. eapply process_result_shape. exact Hp. }
  split; [| split; [| split; [| split; [| split; [| split]]]]].
  - intros w1 Hsave H1 H2 H3. unfold upload, upload_csv.
    rewrite Hsave, H1, H2, H3. reflexivity.
  - intros e w1 Hsave. unfold upload, upload_csv.
    fold dest. rewrite Hsave. reflexivity.
  - intros w1 o w' Hsave Hx Hc Hp. unfold upload, upload_csv.
    fold dest filename. rewrite Hsave, Hx, Hc. cbn [negb].
    apply Hrelay. exact Hp.
  - intros w1 df w2 w3 o w' Hsave Hx Hr Ht Hp. unfold upload, upload_csv.
    fold dest filename. rewrite Hsave, Hx, Hr, Ht.
    apply Hrelay. exact Hp.
  - intros w1 e w2 Hsave Hx Hr. unfold upload, upload_csv.
    fold dest filename. rewrite Hsave, Hx, Hr. reflexivity.
  - intros w1 df w2 e w3 Hsave Hx Hr Ht. unfold upload, upload_csv.
    fold dest filename. rewrite Hsave, Hx, Hr, Ht. reflexivity.
  - intros w1 tmp df w2 w3 w4 o w5 w6 Hsave Hx Hc Htmp Hread Hto Hb Hcl.
    unfold upload, upload_csv.
    fold dest filename. rewrite Hsave, Hx, Hc. cbn [negb].
    pose proof (@process_runs_try_block re_extern W dataframe NTF read_csv
                  to_csv path_exists unlink agent_run render
                  dest STATIC_DIR w1 tmp df w2 w3 w4 o w5 w6
                  Htmp Hread Hto Hb Hcl) as Hp.
    destruct o as [d | e].
    + destruct (@generation_body_ret re_extern W agent_run render
                  tmp STATIC_DIR w4 d w5 Hb) as (c & p & ->).
      apply respond_success. exact Hp.
    + cbn [relays_try]. destruct (exn_is_Exception e).
      * apply respond_failure. exact Hp.
      * apply respond_raise. exact Hp.
Qed.

Lemma X7_witness :
  upload_csv no_extern disk_tmp disk_read_csv disk_to_csv disk_exists
    disk_unlink failing_agent disk_render
    (py "uploads") (py "static")
    (fun d n => d ++ py "/" ++ n) (fun p s => p ++ s)
    (fun p w => (Ret tt, p :: w)) disk_read_csv (py "Cases.CSV") []
  = (HTTPException 500 (VStr (py "model unavailable")),
     [py "static/notes.txt"; py "uploads/Cases.CSV"]).
Proof.
  refine (proj2 (proj2 (proj2 (proj2 (proj2 (proj2
            (@X7_upload_csv_answers no_extern disk unit disk_tmp
               disk_read_csv disk_to_csv disk_exists disk_unlink
               failing_agent disk_render (py "uploads") (py "static")
               (fun d n => d ++ py "/" ++ n) (fun p s => p ++ s)
               (fun p w => (Ret tt, p :: w)) disk_read_csv
               (py "Cases.CSV") []))))))
            [py "uploads/Cases.CSV"] (py "/tmp/tmpcases.csv") tt
            [py "/tmp/tmpcases.csv"; py "uploads/Cases.CSV"]
            [py "/tmp/tmpcases.csv"; py "uploads/Cases.CSV"]
            [py "/tmp/tmpcases.csv"; py "uploads/Cases.CSV"]
            (Raise (mkExn "RuntimeError" (py "model unavailable")))
            [py "static/notes.txt"; py "/tmp/tmpcases.csv";
             py "uploads/Cases.CSV"]
            [py "static/notes.txt"; py "uploads/Cases.CSV"]
            _ _ _ _ _ _ _ _); reflexivity.
Defined.

(** ** What the actors are *)

(** X8: no actor is the empty string, and no actor holds a double quote:
    a quoted label ends at the first quote after it begins. *)
Theorem X8_actors_are_nonempty_without_quote :
  forall src x,
    In x (_extract_actors_from_plantuml src) ->
    x <> [] /\ ~ In DQUOTE x.
Proof.
  intros src x Hx. apply actors_in in Hx. destruct Hx as (p & Hp & Hx).
  unfold participant_patterns in Hp. apply in_flat_map in Hp.
  destruct Hp as (kw & Hkw & Hp).
  unfold re_findall in Hx. apply findall_in in Hx.
  destruct Hx as (s' & len & g & Hm & ->).
  destruct Hp as [<- | [<- | []]].
  - rewrite (quoted_pattern_compiles Hkw) in Hm.
    eapply declaration_found; [| exact Hm].
    intros s0 g0 kf res H. apply quoted_tail_inv in H. exact H.
  - rewrite (bare_pattern_compiles Hkw) in Hm.
    eapply declaration_found; [| exact Hm].
    intros s0 g0 kf res H. apply bare_tail_inv in H.
    destruct H as (name & s1 & Hn & Hw & H).
    exists name, s1. repeat split; auto using word_is_not_dquote.
Qed.

Lemma X8_witness :
  py "My User" <> [] /\ ~ In DQUOTE (py "My User").
Proof.
  apply (@X8_actors_are_nonempty_without_quote
           (py "actor " ++ [DQUOTE] ++ py "My User" ++ [DQUOTE])).
  vm_compute. left. reflexivity.
Defined.

(** ** More on activities *)

Lemma lines_of_parts s ls :
  lines_of s ls -> forall l, In l ls -> exists a b, s = a ++ l ++ b.
Proof.
  induction 1 as [| l0 Hne Hl | l0 bd rest ls Hl Hb Hrest IH]; intros l Hin.
  - destruct Hin.
  - destruct Hin as [<- | []]. exists [], []. rewrite app_nil_r. reflexivity.
  - destruct Hin as [<- | Hin].
    + exists [], (bd ++ rest). reflexivity.
    + destruct (IH l Hin) as (a & b & ->).
      exists (l0 ++ bd ++ a), b. rewrite <- !app_assoc. reflexivity.
Qed.

(** X9: every activity stands in the source as it is returned. *)
Theorem X9_activities_are_parts_of_the_source :
  forall src a,
    In a (_extract_activities_from_plantuml src) ->
    exists before after, src = before ++ a ++ after.
Proof.
  intros src a Ha. rewrite activities_filter_map in Ha.
  apply in_map_iff in Ha. destruct Ha as (l & <- & Hin).
  apply filter_In in Hin. destruct Hin as [Hin _].
  destruct (lines_of_parts (splitlines_lines src) l Hin) as (x & y & ->).
  destruct (strip_split l) as (ws1 & ws2 & Hl & _ & _).
  exists (x ++ ws1), (ws2 ++ y).
  rewrite Hl at 1. rewrite <- !app_assoc. reflexivity.
Qed.

Lemma X9_witness :
  exists before after,
    py "  A -> B: ping  " ++ [LF] ++ py "note" =
    before ++ py "A -> B: ping" ++ after.
Proof.
  apply (@X9_activities_are_parts_of_the_source
           (py "  A -> B: ping  " ++ [LF] ++ py "note")).
  vm_compute. left. reflexivity.
Defined.

Lemma linefeed_boundary rest : boundary rest [LF].
Proof. apply boundary_one; [reflexivity | discriminate]. Qed.

(** The lines of two texts joined by a line feed are the lines of the
    first, then perhaps an empty line, then the lines of the second. *)
Lemma lines_of_joined a la :
  lines_of a la ->
  forall b lb,
    lines_of b lb ->
    exists extra,
      (extra = [] \/ extra = [[]])
      /\ lines_of (a ++ LF :: b) (la ++ extra ++ lb).
Proof.
  induction 1 as [| l Hne Hl | l bd rest ls Hl Hb Hrest IH]; intros b lb Hlb.
  - exists [[]]. split; [auto |].
    change ([] ++ LF :: b) with ([] ++ [LF] ++ b).
    apply lines_more; [constructor | apply linefeed_boundary | exact Hlb].
  - exists []. split; [auto |].
    change (l ++ LF :: b) with (l ++ [LF] ++ b).
    apply lines_more; [exact Hl | apply linefeed_boundary | exact Hlb].
  - destruct Hb as [| c Hc Hcr].
    + destruct (IH b lb Hlb) as (extra & He & Hlines).
      exists extra. split; [exact He |].
      rewrite <- !app_assoc. cbn [app].
      change (l ++ CR :: LF :: rest ++ LF :: b)
        with (l ++ [CR; LF] ++ (rest ++ LF :: b)).
      apply lines_more; [exact Hl | constructor | exact Hlines].
    + destruct rest as [| d rest'].
      * assert (ls = []) as ->
          by (eapply lines_of_unique; [exact Hrest | constructor]).
        destruct (chr_eqb c CR) eqn:E.
        -- apply chr_eqb_eq in E. subst c. exists []. split; [auto |].
           cbn [app]. rewrite <- !app_assoc. cbn [app].
           change (l ++ CR :: LF :: b) with (l ++ [CR; LF] ++ b).
           apply lines_more; [exact Hl | constructor | exact Hlb].
        -- exists [[]]. split; [auto |].
           cbn [app]. rewrite <- !app_assoc. cbn [app].
           change (l ++ c :: LF :: b) with (l ++ [c] ++ ([] ++ [LF] ++ b)).
           apply lines_more; [exact Hl | |].
           ++ apply boundary_one; [exact Hc |].
              intros ->. rewrite chr_eqb_refl in E. discriminate.
           ++ apply lines_more;
                [constructor | apply linefeed_boundary | exact Hlb].
      * destruct (IH b lb Hlb) as (extra & He & Hlines).
        exists extra. split; [exact He |].
        rewrite <- !app_assoc. cbn [app].
        change (l ++ c :: d :: rest' ++ LF :: b)
          with (l ++ [c] ++ ((d :: rest') ++ LF :: b)).
        apply lines_more; [exact Hl | | exact Hlines].
        apply boundary_one; [exact Hc |].
        intros -> rest'' H. inversion H; subst.
        eapply Hcr; reflexivity.
Qed.

(** X10: the activities of two diagrams joined by a line feed are the
    activities of the first followed by those of the second. *)
Theorem X10_activities_of_joined_diagrams :
  forall a b,
    _extract_activities_from_plantuml (a ++ [LF] ++ b)
    = _extract_activities_from_plantuml a
      ++ _extract_activities_from_plantuml b.
Proof.
  intros a b. rewrite !activities_filter_map.
  destruct (lines_of_joined (splitlines_lines a) (splitlines_lines b))
    as (extra & He & Hlines).
  rewrite (lines_of_unique (splitlines_lines (a ++ [LF] ++ b)) Hlines).
  rewrite !filter_app, !map_app.
  destruct He as [-> | ->]; reflexivity.
Qed.

(** ** The temporary file *)

Lemma disk_unlink_removes p w :
  on_disk p (snd (disk_unlink p w)) = false.
Proof.
  unfold on_disk, disk_unlink. cbn [snd].
  induction w as [| q w IH]; [reflexivity |].
  cbn [filter]. destruct (str_eqb p q) eqn:E; cbn [negb]; [exact IH |].
  cbn [existsb]. rewrite E. exact IH.
Qed.

(** X11: once the test cases are normalised into the temporary file, that
    file is gone when [process_csv_and_generate] ends, whatever the agent
    and the renderer did and whether the call returned or raised; this for
    any file system on which [os.path.exists] only observes and
    [os.unlink] removes a file that exists. *)
Theorem X11_temporary_file_is_removed :
  forall (re_extern : bool -> pystr -> pystr -> outcome (option match_obj))
         (W dataframe : Type)
         (NamedTemporaryFile : M W pystr)
         (read_csv : pystr -> M W dataframe)
         (to_csv : dataframe -> pystr -> M W unit)
         (path_exists : pystr -> M W bool) (unlink : pystr -> M W unit)
         (agent_run : agent -> pystr -> M W response)
         (render : pystr -> pystr -> pystr -> M W pystr)
         (exists_in : pystr -> W -> bool)
         csv_path output_dir w tmp df w1 w2 w3,
    (forall p v, path_exists p v = (Ret (exists_in p v), v)) ->
    (forall p v, exists_in p v = true ->
       exists v', unlink p v = (Ret tt, v') /\ exists_in p v' = false) ->
    NamedTemporaryFile w = (Ret tmp, w1) ->
    read_csv csv_path w1 = (Ret df, w2) ->
    to_csv df tmp w2 = (Ret tt, w3) ->
    exists_in tmp
      (snd (process_csv_and_generate re_extern NamedTemporaryFile read_csv
              to_csv path_exists unlink agent_run render
              csv_path output_dir w)) = false.
Proof.
  intros re_extern W dataframe NTF read_csv to_csv path_exists unlink
         agent_run render exists_in csv_path output_dir w tmp df w1 w2 w3
         Hex Hun Htmp Hread Hto.
  unfold process_csv_and_generate.
  unfold mbind at 1. rewrite Htmp.
  unfold mbind at 1. rewrite Hread.
  unfold mbind at 1. rewrite Hto.
  unfold mtry_finally.
  destruct (mtry_except _ _ w3) as [r w4].
  unfold cleanup, mbind. rewrite Hex.
  destruct (exists_in tmp w4) eqn:E.
  - destruct (Hun tmp w4 E) as (v' & -> & Hv'). exact Hv'.
  - unfold mret. exact E.
Qed.

Lemma X11_witness :
  on_disk (py "/tmp/tmpcases.csv")
    (snd (process_csv_and_generate no_extern disk_tmp disk_read_csv
            disk_to_csv disk_exists disk_unlink failing_agent disk_render
            (py "cases.csv") (py "static") [])) = false.
Proof.
  apply (@X11_temporary_file_is_removed no_extern disk unit disk_tmp
           disk_read_csv disk_to_csv disk_exists disk_unlink failing_agent
           disk_render on_disk (py "cases.csv") (py "static") []
           (py "/tmp/tmpcases.csv") tt
           [py "/tmp/tmpcases.csv"] [py "/tmp/tmpcases.csv"]
           [py "/tmp/tmpcases.csv"]).
  - reflexivity.
  - intros p v _. eexists. split; [reflexivity |].
    apply disk_unlink_removes.
  - reflexivity.
  - reflexivity.
  - reflexivity.
Defined.
